(** * inputlayer: expression compiler, type registry and migrations

    A shallow embedding of the Python package [inputlayer]
    ([_naming.py], [types.py], [relation.py], [_ast.py], [compiler.py],
    [migrations/operations.py], [migrations/state.py],
    [migrations/autodetector.py], [migrations/recorder.py],
    [migrations/executor.py]) and the properties its specification states
    about it.

    Conventions of the embedding.
    - Python [str] is [string]; text is ASCII (class names, column names and
      the emitted Datalog are identifiers and punctuation).
    - A Python [dict] used as a map is a [gmap]; a [dict] that is iterated
      (insertion order) is an association list.
    - A function that can raise returns [result]; the exceptions are the
      constructors of [exn].  A [while] loop is run with fuel, and running
      out of fuel is the separate outcome [OutOfFuel]. *)

From Stdlib Require Import Ascii String.
From stdpp Require Import gmap strings list sorting pretty.

Set Warnings "-register-all".

(** ** Outcomes of fallible code *)

Inductive exn : Type :=
  | ValueError (msg : string)
  | TypeError (msg : string)
  | AssertionError
  | AttributeError (msg : string)
  | KeyError (key : string)
  | MigrationError (target : string).

Inductive result (A : Type) : Type :=
  | Ok (a : A)
  | Raise (e : exn)
  | OutOfFuel.

Arguments Ok {A} a.
Arguments Raise {A} e.
Arguments OutOfFuel {A}.

#[global] Instance result_ret : MRet result := λ A a, Ok a.

#[global] Instance result_bind : MBind result := λ A B k r,
  match r with
  | Ok a => k a
  | Raise e => Raise e
  | OutOfFuel => OutOfFuel
  end.

#[global] Instance result_fmap : FMap result := λ A B f r,
  match r with
  | Ok a => Ok (f a)
  | Raise e => Raise e
  | OutOfFuel => OutOfFuel
  end.

Definition raises {A} (r : result A) : Prop :=
  match r with Raise _ => True | _ => False end.

(** What a call is allowed to do: return a value satisfying [P]; raise,
    but only when [may_raise] holds; never run out of fuel. *)
Definition res_spec {A} (may_raise : Prop) (P : A → Prop) (r : result A)
  : Prop :=
  match r with
  | Ok a => P a
  | Raise _ => may_raise
  | OutOfFuel => False
  end.

(** [", ".join(parts)] *)
Fixpoint join (sep : string) (parts : list string) : string :=
  match parts with
  | [] => ""
  | [p] => p
  | p :: rest => p +:+ sep +:+ join sep rest
  end.

(** ** [_naming.py] *)

Module Naming.

Definition is_upper (c : ascii) : bool :=
  let n := nat_of_ascii c in ((65 <=? n) && (n <=? 90))%nat.
Definition is_lower (c : ascii) : bool :=
  let n := nat_of_ascii c in ((97 <=? n) && (n <=? 122))%nat.
Definition is_digit (c : ascii) : bool :=
  let n := nat_of_ascii c in ((48 <=? n) && (n <=? 57))%nat.

(** [str.upper] and [str.lower] on one ASCII character.  Class and column
    names are taken to be ASCII: on a letter outside ASCII the methods of
    Python change case as well, and these two leave it alone. *)
Definition upper (c : ascii) : ascii :=
  if is_lower c then ascii_of_nat (nat_of_ascii c - 32) else c.
Definition lower (c : ascii) : ascii :=
  if is_upper c then ascii_of_nat (nat_of_ascii c + 32) else c.

Fixpoint lower_str (s : string) : string :=
  match s with
  | "" => ""
  | String c s' => String (lower c) (lower_str s')
  end.

(** [re.sub(r"([A-Z]+)([A-Z][a-z])", r"\1_\2", name)].  A match starts at
    an upper-case letter; the greedy [[A-Z]+] backs off one letter at a
    time, and only the split that leaves the last letter of the upper-case
    run for the second group can be followed by a lower-case letter.  So at
    a run of at least two upper-case letters followed by a lower-case one
    the underscore goes before the last letter of the run, and the scan
    resumes after the lower-case letter.  [acronym_run s] is [Some (g1, c,
    d, rest)] when [s] starts with such a match: [g1] the first group, [c
    d] the second. *)
Fixpoint acronym_run (s : string) : option (string * ascii * ascii * string) :=
  match s with
  | String a ((String b s2) as s1) =>
      if is_upper a && is_upper b then
        match acronym_run s1 with
        | Some (g1, c, d, rest) => Some (String a g1, c, d, rest)
        | None =>
            match s2 with
            | String d rest =>
                if is_lower d then Some (String a "", b, d, rest) else None
            | "" => None
            end
        end
      else None
  | _ => None
  end.

(** The scan of the first substitution; [fuel] bounds the number of
    positions visited and is the length of the input. *)
Fixpoint sub_acronym (fuel : nat) (s : string) : string :=
  match fuel with
  | 0 => s
  | S fuel' =>
      match s with
      | "" => ""
      | String a s' =>
          match acronym_run s with
          | Some (g1, c, d, rest) =>
              g1 +:+ "_" +:+ String c (String d (sub_acronym fuel' rest))
          | None => String a (sub_acronym fuel' s')
          end
      end
  end.

(** [re.sub(r"([a-z0-9])([A-Z])", r"\1_\2", s)]: a match is two characters
    and the scan resumes after its upper-case letter. *)
Fixpoint sub_boundary (s : string) : string :=
  match s with
  | String a ((String b s2) as s1) =>
      if (is_lower a || is_digit a) && is_upper b
      then String a (String "_" (String b (sub_boundary s2)))
      else String a (sub_boundary s1)
  | _ => s
  end.

Definition camel_to_snake (name : string) : string :=
  let s := sub_acronym (String.length name) name in
  let s := sub_boundary s in
  lower_str s.

(** [name.split("_")] *)
Fixpoint split_us (cur : string) (s : string) : list string :=
  match s with
  | "" => [String.rev cur]
  | String c s' =>
      if Ascii.eqb c "_" then String.rev cur :: split_us "" s'
      else split_us (String c cur) s'
  end.

(** [part.capitalize()]: first character upper-cased, the rest lower-cased. *)
Definition capitalize (part : string) : string :=
  match part with
  | "" => ""
  | String c s => String (upper c) (lower_str s)
  end.

Fixpoint concat_str (parts : list string) : string :=
  match parts with
  | [] => ""
  | p :: rest => p +:+ concat_str rest
  end.

Definition snake_to_camel (name : string) : string :=
  concat_str (map capitalize (split_us "" name)).

Definition column_to_variable (column_name : string) : string :=
  snake_to_camel column_name.

End Naming.

(** ** [types.py] *)

Module Types.

(** The type objects [python_type_to_datalog] can be handed.  [Vector[N]]
    and [VectorInt8[N]] only exist for a positive [N] ([__getitem__]
    raises otherwise), hence [positive].  [TSubclass n ns b] is a class
    [class n(b)]; [ns] is the entry [_dim] of its class body, if the body
    has one: [Some (Some d)] for [_dim = d], [Some None] for [_dim = None],
    [None] when the body does not mention [_dim] and the attribute is
    inherited.  [Vector[3][4]] is such a class: [__getitem__] on
    [Vector[3]] builds it with base [Vector[3]] and body [_dim = 4].
    [TClass n] is a class that derives from
    nothing in the registry ([dict], [bytes], ...); [TNonClass r] is an
    annotation that is not a class ([list[int]], [Optional[int]]), on which
    [issubclass] raises [TypeError]. *)
Inductive PyType : Type :=
  | Tbool
  | TTimestamp
  | Tint
  | Tfloat
  | Tstr
  | TVector (_dim : option positive)
  | TVectorInt8 (_dim : option positive)
  | TSubclass (cls_name : string) (ns : option (option Z)) (base : PyType)
  | TClass (cls_name : string)
  | TNonClass (repr : string).

#[global] Instance PyType_eq_dec : EqDecision PyType.
Proof. solve_decision. Defined.

(** [isinstance(tp, _VectorMeta)] together with [tp._dim]: [None] when the
    metaclass of [tp] is not [_VectorMeta], otherwise the class attribute
    [_dim], looked up along the bases: the entry of the class body when
    there is one, else what the base has. *)
Fixpoint vector_meta_dim (tp : PyType) : option (option Z) :=
  match tp with
  | TVector d => Some (Z.pos <$> d)
  | TSubclass _ ns b =>
      match vector_meta_dim b with
      | Some inherited => Some (default inherited ns)
      | None => None
      end
  | _ => None
  end.

Fixpoint vector_int8_meta_dim (tp : PyType) : option (option Z) :=
  match tp with
  | TVectorInt8 d => Some (Z.pos <$> d)
  | TSubclass _ ns b =>
      match vector_int8_meta_dim b with
      | Some inherited => Some (default inherited ns)
      | None => None
      end
  | _ => None
  end.

(** [issubclass(tp, base_type)] for a class [tp]: [bool] and [Timestamp]
    derive from [int], [Vector[N]] from [Vector], [VectorInt8[N]] from
    [VectorInt8]. *)
Fixpoint issubclass (tp base_type : PyType) : bool :=
  bool_decide (tp = base_type) ||
  match tp with
  | Tbool | TTimestamp => bool_decide (base_type = Tint)
  | TVector (Some _) => bool_decide (base_type = TVector None)
  | TVectorInt8 (Some _) => bool_decide (base_type = TVectorInt8 None)
  | TSubclass _ _ b => issubclass b base_type
  | _ => false
  end.

Definition is_class (tp : PyType) : bool :=
  match tp with TNonClass _ => false | _ => true end.

(** The dict literal, in its insertion order. *)
Definition TYPE_MAP : list (PyType * string) :=
  [ (Tbool, "bool");
    (TTimestamp, "timestamp");
    (Tint, "int");
    (Tfloat, "float");
    (Tstr, "string");
    (TVector None, "vector");
    (TVectorInt8 None, "vector_int8") ].

(** The [for base_type, name in ....items()] loop.  The [try] swallows the
    [TypeError] of [issubclass] on a non-class. *)
Fixpoint scan_type_map (items : list (PyType * string)) (tp : PyType)
  : option string :=
  match items with
  | [] => None
  | (base_type, name) :: rest =>
      if bool_decide (tp = base_type) then Some name
      else if is_class tp && issubclass tp base_type
              && negb (bool_decide (tp = base_type)) then Some name
      else scan_type_map rest tp
  end.

Definition unsupported_type : exn :=
  TypeError "Unsupported type for InputLayer schema".

Definition python_type_to_datalog (tp : PyType) : result string :=
  match vector_meta_dim tp with
  | Some (Some d) => Ok ("vector[" +:+ pretty d +:+ "]")
  | _ =>
      match vector_int8_meta_dim tp with
      | Some (Some d) => Ok ("vector_int8[" +:+ pretty d +:+ "]")
      | _ =>
          match scan_type_map TYPE_MAP tp with
          | Some name => Ok name
          | None => Raise unsupported_type
          end
      end
  end.

(** Membership in the registry: a key of [TYPE_MAP] or a dimensioned
    vector type. *)
Definition in_registry (tp : PyType) : bool :=
  bool_decide (tp ∈ (TYPE_MAP).*1) ||
  match tp with
  | TVector (Some _) | TVectorInt8 (Some _) => true
  | _ => false
  end.

(** [tp] derives from a registry type. *)
Definition derives_from_registry (tp : PyType) : bool :=
  match tp with
  | TSubclass _ _ b =>
      existsb (issubclass b) ((TYPE_MAP).*1)
      || bool_decide (is_Some (vector_meta_dim b))
      || bool_decide (is_Some (vector_int8_meta_dim b))
  | _ => false
  end.

End Types.

(** ** [relation.py]: what the compiler reads off a [Relation] subclass *)

Module Relation.

Record RelationCls : Type := {
  __name__ : string;
  __relation_name__ : option string;
  model_fields : list (string * Types.PyType)
}.

Definition _resolve_name (cls : RelationCls) : string :=
  match __relation_name__ cls with
  | Some rn => rn
  | None => Naming.camel_to_snake (__name__ cls)
  end.

Definition _get_columns (relation_cls : RelationCls) : list string :=
  (model_fields relation_cls).*1.

(** [{k: hints[k] for k in target.model_fields}] *)
Definition _get_column_types (relation_cls : RelationCls)
  : gmap string Types.PyType :=
  list_to_map (model_fields relation_cls).

End Relation.

(** ** [_ast.py] *)

Module Ast.

(** What a [Literal] or an aggregation parameter can hold ([Any] in the
    source).  A float is carried by its [repr]; [VList] is a list or a
    tuple; [VOther] is a value of any other type, named by its type. *)
Inductive Value : Type :=
  | VNone
  | VBool (b : bool)
  | VInt (n : Z)
  | VFloat (repr : string)
  | VStr (s : string)
  | VList (items : list Value)
  | VTimestamp (ms : Z)
  | VOther (type_name : string).

Record Column : Type := {
  relation : string;
  name : string;
  ref_alias : option string
}.

Inductive Expr : Type :=
  | EColumn (col : Column)
  | Literal (value : Value)
  | Arithmetic (op : string) (left right : Expr)
  | FuncCall (name : string) (args : list Expr)
  | AggExpr (func : string) (column : option Expr) (params : list Value)
            (passthrough : list Expr) (order_column : option Expr)
            (desc : bool)
  | OrderedColumn (column : Expr) (descending : bool).

Inductive BoolExpr : Type :=
  | Comparison (op : string) (left right : Expr)
  | And (left right : BoolExpr)
  | Or (left right : BoolExpr)
  | Not (operand : BoolExpr)
  | InExpr (column target_column : Expr)
  | NegatedIn (column target_column : Expr)
  | MatchExpr (relation : string) (bindings : list (string * Expr))
              (negated : bool).

(** [f"{col.ref_alias or col.relation}.{col.name}"]; an empty alias is
    falsy, like [None]. *)
Definition qualified (col : Column) : string :=
  let prefix :=
    match ref_alias col with
    | Some a => if bool_decide (a = "") then relation col else a
    | None => relation col
    end in
  prefix +:+ "." +:+ name col.

End Ast.

(** ** [compiler.py]: the variable environment *)

Module VarEnv.
Import Ast.

Record _VarEnv : Type := {
  _map : gmap string string;
  _counter : nat;
  _parent : gmap string string
}.

(** [_VarEnv()] *)
Definition new : _VarEnv :=
  {| _map := ∅; _counter := 0; _parent := ∅ |}.

(** The [while] loop of [_find], with path halving:
    [parent[key] = parent.get(parent[key], parent[key]); key = parent[key]]. *)
Fixpoint find_loop (fuel : nat) (parent : gmap string string) (key : string)
  : option (string * gmap string string) :=
  match fuel with
  | 0 => None
  | S fuel' =>
      let p := default key (parent !! key) in
      if bool_decide (p = key) then Some (key, parent)
      else
        let gp := default p (parent !! p) in
        find_loop fuel' (<[key := gp]> parent) gp
  end.

Definition _find (key : string) (env : _VarEnv) : result (string * _VarEnv) :=
  match find_loop (S (size (_parent env))) (_parent env) key with
  | Some (root, parent') =>
      Ok (root, {| _map := _map env; _counter := _counter env;
                   _parent := parent' |})
  | None => OutOfFuel
  end.

Definition _union (a b : string) (env : _VarEnv) : result _VarEnv :=
  '(ra, env) ← _find a env;
  '(rb, env) ← _find b env;
  if bool_decide (ra ≠ rb)
  then Ok {| _map := _map env; _counter := _counter env;
             _parent := <[rb := ra]> (_parent env) |}
  else Ok env.

(** [set(self._map.values())] *)
Definition used_vars (env : _VarEnv) : list string :=
  (map_to_list (_map env)).*2.

(** The tail shared by [get_var] and [unify]: name the root [root], whose
    column is called [col_name]. *)
Definition assign (root col_name : string) (env : _VarEnv)
  : string * _VarEnv :=
  match _map env !! root with
  | Some v => (v, env)
  | None =>
      let var := Naming.column_to_variable col_name in
      if bool_decide (var ∈ used_vars env) then
        let counter := S (_counter env) in
        let var := var +:+ "_" +:+ pretty counter in
        (var, {| _map := <[root := var]> (_map env); _counter := counter;
                 _parent := _parent env |})
      else
        (var, {| _map := <[root := var]> (_map env);
                 _counter := _counter env; _parent := _parent env |})
  end.

Definition get_var (col : Column) (env : _VarEnv) : result (string * _VarEnv) :=
  let key := qualified col in
  '(root, env) ← _find key env;
  Ok (assign root (name col) env).

Definition unify (col_a col_b : Column) (env : _VarEnv)
  : result (string * _VarEnv) :=
  let key_a := qualified col_a in
  let key_b := qualified col_b in
  env ← _union key_a key_b env;
  '(root, env) ← _find key_a env;
  Ok (assign root (name col_a) env).

Definition lookup (col : Column) (env : _VarEnv)
  : result (option string * _VarEnv) :=
  let key := qualified col in
  '(root, env) ← _find key env;
  Ok (_map env !! root, env).

(** [path parent k r n]: following [parent] from [k] reaches the root
    [r] in [n] steps. *)
Inductive path (parent : gmap string string) : string → string → nat → Prop :=
  | path_root k : parent !! k = None → path parent k k 0
  | path_step k p r n :
      parent !! k = Some p → path parent p r n → path parent k r (S n).

(** The union-find forest is well formed: every key reaches a root, in no
    more steps than there are entries. *)
Definition parent_wf (parent : gmap string string) : Prop :=
  ∀ k, ∃ r n, path parent k r n ∧ n ≤ size parent.

Definition env_wf (env : _VarEnv) : Prop := parent_wf (_parent env).

End VarEnv.

(** ** [compiler.py]: values, expressions, conditions *)

Module Compiler.
Import Ast VarEnv.

Definition dquote : string := String "034" "".
Definition backslash : string := String "092" "".

(** [value.replace(old, new)] for a one-character [old]. *)
Fixpoint replace (old : ascii) (new : string) (value : string) : string :=
  match value with
  | "" => ""
  | String c rest =>
      if Ascii.eqb c old then new +:+ replace old new rest
      else String c (replace old new rest)
  end.

Definition cannot_compile_value : exn :=
  TypeError "Cannot compile value".

(** [compile_value]; the [isinstance] tests in source order.  A
    [Timestamp] is an [int] and leaves through the [int] branch. *)
Fixpoint compile_value (value : Value) : result string :=
  match value with
  | VNone => Ok "null"
  | VBool b => Ok (if b then "true" else "false")
  | VInt n => Ok (pretty n)
  | VTimestamp ms => Ok (pretty ms)
  | VFloat repr => Ok repr
  | VStr s =>
      let escaped :=
        replace "034" (backslash +:+ dquote)
          (replace "092" (backslash +:+ backslash) s) in
      Ok (dquote +:+ escaped +:+ dquote)
  | VList items =>
      inner ← (fix go (l : list Value) : result (list string) :=
                 match l with
                 | [] => Ok []
                 | v :: l' =>
                     s ← compile_value v; ss ← go l'; Ok (s :: ss)
                 end) items;
      Ok ("[" +:+ join ", " inner +:+ "]")
  | VOther _ => Raise cannot_compile_value
  end.

Fixpoint compile_values (l : list Value) : result (list string) :=
  match l with
  | [] => Ok []
  | v :: l' => s ← compile_value v; ss ← compile_values l'; Ok (s :: ss)
  end.

(** [compile_expr] with [_compile_agg_expr] inlined; the environment is
    threaded through in evaluation order. *)
Fixpoint compile_expr (expr : Expr) (env : _VarEnv)
  : result (string * _VarEnv) :=
  let compile_list :=
    fix go (l : list Expr) (env : _VarEnv)
      : result (list string * _VarEnv) :=
      match l with
      | [] => Ok ([], env)
      | a :: l' =>
          '(s, env) ← compile_expr a env;
          '(ss, env) ← go l' env;
          Ok (s :: ss, env)
      end in
  match expr with
  | EColumn col => get_var col env
  | Literal value => s ← compile_value value; Ok (s, env)
  | Arithmetic op lhs rhs =>
      '(l, env) ← compile_expr lhs env;
      '(r, env) ← compile_expr rhs env;
      Ok (l +:+ " " +:+ op +:+ " " +:+ r, env)
  | FuncCall name args =>
      '(args, env) ← compile_list args env;
      Ok (name +:+ "(" +:+ join ", " args +:+ ")", env)
  | OrderedColumn column descending =>
      '(var, env) ← compile_expr column env;
      Ok (var +:+ (if descending then ":desc" else ":asc"), env)
  | AggExpr func column params passthrough order_column desc =>
      ps ← compile_values params;
      '(pts, env) ← compile_list passthrough env;
      '(last, env) ←
        match order_column with
        | Some oc =>
            '(order_var, env) ← compile_expr oc env;
            Ok ([order_var +:+ (if desc then ":desc" else ":asc")], env)
        | None =>
            match column with
            | Some c => '(v, env) ← compile_expr c env; Ok ([v], env)
            | None => Ok ([], env)
            end
        end;
      Ok (func +:+ "<" +:+ join ", " (ps ++ pts ++ last) +:+ ">", env)
  end.

Fixpoint compile_exprs (l : list Expr) (env : _VarEnv)
  : result (list string * _VarEnv) :=
  match l with
  | [] => Ok ([], env)
  | a :: l' =>
      '(s, env) ← compile_expr a env;
      '(ss, env) ← compile_exprs l' env;
      Ok (s :: ss, env)
  end.

Definition _compile_comparison (op : string) (lhs rhs : Expr)
    (env : _VarEnv) : result (string * _VarEnv) :=
  match lhs, rhs with
  | EColumn a, EColumn b =>
      if bool_decide (op = "=") then
        '(_, env) ← unify a b env; Ok ("", env)
      else
        '(l, env) ← compile_expr lhs env;
        '(r, env) ← compile_expr rhs env;
        Ok (l +:+ " " +:+ op +:+ " " +:+ r, env)
  | _, _ =>
      '(l, env) ← compile_expr lhs env;
      '(r, env) ← compile_expr rhs env;
      Ok (l +:+ " " +:+ op +:+ " " +:+ r, env)
  end.

(** [_compile_in]: the source column is compiled, the target is asserted
    to be a column and named, then both are handed to [unify], which reads
    [ref_alias] off its first argument. *)
Definition _compile_in (column target_column : Expr) (negated : bool)
    (env : _VarEnv) : result (string * _VarEnv) :=
  '(src_var, env) ← compile_expr column env;
  match target_column with
  | EColumn tgt_col =>
      '(tgt_var, env) ← get_var tgt_col env;
      match column with
      | EColumn src_col =>
          '(_, env) ← unify src_col tgt_col env;
          '(tgt_var, env) ← get_var tgt_col env;
          let prefix := if negated then "!" else "" in
          Ok (prefix +:+ relation tgt_col +:+ "(..., " +:+ tgt_var
                +:+ ", ...)", env)
      | _ => Raise (AttributeError "ref_alias")
      end
  | _ => Raise AssertionError
  end.

Definition _compile_match (relation : string)
    (bindings : list (string * Expr)) (negated : bool) (env : _VarEnv)
  : result (string * _VarEnv) :=
  '(parts, env) ← compile_exprs (bindings.*2) env;
  let prefix := if negated then "!" else "" in
  Ok (prefix +:+ relation +:+ "(" +:+ join ", " parts +:+ ")", env).

Definition or_in_single_branch : exn :=
  ValueError
    "OR conditions require query splitting. Use compile_or_branches() instead.".

Fixpoint compile_bool_expr (expr : BoolExpr) (env : _VarEnv)
  : result (list string * _VarEnv) :=
  match expr with
  | Comparison op lhs rhs =>
      '(s, env) ← _compile_comparison op lhs rhs env; Ok ([s], env)
  | And lhs rhs =>
      '(l, env) ← compile_bool_expr lhs env;
      '(r, env) ← compile_bool_expr rhs env;
      Ok (l ++ r, env)
  | Or _ _ => Raise or_in_single_branch
  | Not operand =>
      '(inner_parts, env) ← compile_bool_expr operand env;
      Ok (["!(" +:+ join ", " inner_parts +:+ ")"], env)
  | InExpr column target_column =>
      '(s, env) ← _compile_in column target_column false env; Ok ([s], env)
  | NegatedIn column target_column =>
      '(s, env) ← _compile_in column target_column true env; Ok ([s], env)
  | MatchExpr relation bindings negated =>
      '(s, env) ← _compile_match relation bindings negated env;
      Ok ([s], env)
  end.

Fixpoint compile_or_branches (expr : BoolExpr) (env : _VarEnv)
  : result (list (list string) * _VarEnv) :=
  match expr with
  | Or lhs rhs =>
      '(left_branches, env) ← compile_or_branches lhs env;
      '(right_branches, env) ← compile_or_branches rhs env;
      Ok (left_branches ++ right_branches, env)
  | _ => '(b, env) ← compile_bool_expr expr env; Ok ([b], env)
  end.

Fixpoint _has_or (expr : BoolExpr) : bool :=
  match expr with
  | Or _ _ => true
  | And lhs rhs => _has_or lhs || _has_or rhs
  | Not operand => _has_or operand
  | _ => false
  end.

(** ** Schema and conditional delete *)

Import Relation.

(** The [for col in columns] loop of [compile_schema]. *)
Fixpoint schema_parts (col_types : gmap string Types.PyType)
    (columns : list string) : result (list string) :=
  match columns with
  | [] => Ok []
  | col :: rest =>
      match col_types !! col with
      | Some tp =>
          dl_type ← Types.python_type_to_datalog tp;
          parts ← schema_parts col_types rest;
          Ok ((col +:+ ": " +:+ dl_type) :: parts)
      | None => Raise (TypeError "KeyError")
      end
  end.

Definition compile_schema (relation_cls : RelationCls) : result string :=
  let name := _resolve_name relation_cls in
  let columns := _get_columns relation_cls in
  let col_types := _get_column_types relation_cls in
  parts ← schema_parts col_types columns;
  Ok ("+" +:+ name +:+ "(" +:+ join ", " parts +:+ ")").

(** [[f"X{i}" for i in range(len(columns))]] *)
Definition positional_vars (n : nat) : list string :=
  map (λ i, "X" +:+ pretty i) (seq 0 n).

(** The [for i, col in enumerate(columns)] loop that pre-binds the
    columns: [env._map[f"{name}.{col}"] = vars_[i]]. *)
Fixpoint prebind (name : string) (cols_vars : list (string * string))
    (m : gmap string string) : gmap string string :=
  match cols_vars with
  | [] => m
  | (col, v) :: rest => prebind name rest (<[name +:+ "." +:+ col := v]> m)
  end.

(** [compile_conditional_delete], returning the environment it leaves
    behind next to the text. *)
Definition compile_conditional_delete_env (relation_cls : RelationCls)
    (condition : BoolExpr) : result (string * _VarEnv) :=
  let name := _resolve_name relation_cls in
  let columns := _get_columns relation_cls in
  let vars_ := positional_vars (length columns) in
  let head := "-" +:+ name +:+ "(" +:+ join ", " vars_ +:+ ")" in
  let env := {| _map := prebind name (zip columns vars_) ∅;
                _counter := 0; _parent := ∅ |} in
  let body_rel := name +:+ "(" +:+ join ", " vars_ +:+ ")" in
  '(cond_parts, env) ← compile_bool_expr condition env;
  let cond_parts := filter (λ p, p ≠ "") cond_parts in
  let body_parts := body_rel :: cond_parts in
  Ok (head +:+ " <- " +:+ join ", " body_parts, env).

Definition compile_conditional_delete (relation_cls : RelationCls)
    (condition : BoolExpr) : result string :=
  '(text, _) ← compile_conditional_delete_env relation_cls condition;
  Ok text.

(** ** Queries *)

Inductive SelectItem : Type :=
  | SelRelation (relation_cls : RelationCls)
  | SelExpr (e : Expr).

(** An entry of [relations]: a [RelationRef], a [Relation] subclass, or
    anything else (skipped by the loop). *)
Inductive RelationArg : Type :=
  | ARelationRef (relation_cls : RelationCls) (alias : string)
  | ARelation (relation_cls : RelationCls)
  | AOther.

Record Query : Type := {
  select : list SelectItem;
  relations : list RelationArg;
  on_condition : option BoolExpr;
  where_condition : option BoolExpr;
  order_by : option Expr;
  limit : option Z;
  offset : option Z;
  computed : list (string * Expr)
}.

(** [str | list[str]] *)
Inductive QueryText : Type :=
  | Single (q : string)
  | Many (qs : list string).

Definition texts (out : QueryText) : list string :=
  match out with Single q => [q] | Many qs => qs end.

(** A loop [for x in xs: parts.append(f(x, env))]. *)
Fixpoint for_env {A B} (f : A → _VarEnv → result (B * _VarEnv))
    (xs : list A) (env : _VarEnv) : result (list B * _VarEnv) :=
  match xs with
  | [] => Ok ([], env)
  | x :: rest =>
      '(b, env) ← f x env;
      '(bs, env) ← for_env f rest env;
      Ok (b :: bs, env)
  end.

Fixpoint _process_join_condition (condition : BoolExpr) (env : _VarEnv)
  : result _VarEnv :=
  match condition with
  | Comparison op (EColumn a) (EColumn b) =>
      if bool_decide (op = "=") then '(_, env) ← unify a b env; Ok env
      else Ok env
  | And lhs rhs =>
      env ← _process_join_condition lhs env;
      _process_join_condition rhs env
  | _ => Ok env
  end.

Definition all_relations_of (relations : list RelationArg)
  : list (string * RelationCls * option string) :=
  omap (λ r, match r with
             | ARelationRef cls alias => Some (_resolve_name cls, cls, Some alias)
             | ARelation cls => Some (_resolve_name cls, cls, None)
             | AOther => None
             end) relations.

(** The variables of every column of a relation, through [get_var]. *)
Definition column_vars (rn : string) (alias : option string)
    (cls : RelationCls) (env : _VarEnv) : result (list string * _VarEnv) :=
  for_env (λ col, get_var {| relation := rn; name := col;
                             ref_alias := alias |})
          (_get_columns cls) env.

(** One body atom: [lookup] per column, [_] when unbound. *)
Definition body_atom (r : string * RelationCls * option string)
    (env : _VarEnv) : result (string * _VarEnv) :=
  let '(rn, cls, alias) := r in
  '(atom_parts, env) ←
    for_env (λ col env,
               '(var, env) ← lookup {| relation := rn; name := col;
                                       ref_alias := alias |} env;
               Ok (default "_" var, env))
            (_get_columns cls) env;
  Ok (rn +:+ "(" +:+ join ", " atom_parts +:+ ")", env).

Definition limit_literal (limit offset : option Z) : list string :=
  match limit with
  | None => []
  | Some l =>
      match offset with
      | Some o => ["limit(" +:+ pretty l +:+ ", " +:+ pretty o +:+ ")"]
      | None => ["limit(" +:+ pretty l +:+ ")"]
      end
  end.

Definition nonempty (parts : list string) : list string :=
  filter (λ p, p ≠ "") parts.

(** [for i, hp in enumerate(head_parts): if hp == order_var: ...; break] *)
Fixpoint decorate (order_var suffix : string) (head_parts : list string)
  : list string :=
  match head_parts with
  | [] => []
  | hp :: rest =>
      if bool_decide (hp = order_var) then (order_var +:+ suffix) :: rest
      else hp :: decorate order_var suffix rest
  end.

Definition is_agg (e : Expr) : bool :=
  match e with AggExpr _ _ _ _ _ _ => true | _ => false end.

Definition query_text (head_str : string) (body : list string) : string :=
  match body with
  | [] => "?" +:+ head_str
  | _ => "?" +:+ head_str +:+ " <- " +:+ join ", " body
  end.

(** The [for s in select] loop of [_compile_agg_query]: grouping keys and
    aggregations, each in its own list. *)
Fixpoint agg_select (select : list SelectItem) (env : _VarEnv)
  : result (list string * list string * _VarEnv) :=
  match select with
  | [] => Ok ([], [], env)
  | s :: rest =>
      '(hs, ags, env) ←
        match s with
        | SelExpr (AggExpr _ _ _ _ _ _ as e) =>
            '(a, env) ← compile_expr e env; Ok ([], [a], env)
        | SelExpr (EColumn col) =>
            '(v, env) ← get_var col env; Ok ([v], [], env)
        | SelExpr _ => Ok ([], [], env)
        | SelRelation cls =>
            '(vs, env) ← column_vars (_resolve_name cls) None cls env;
            Ok (vs, [], env)
        end;
      '(hs', ags', env) ← agg_select rest env;
      Ok (hs ++ hs', ags ++ ags', env)
  end.

Fixpoint agg_computed (computed : list (string * Expr)) (env : _VarEnv)
  : result (list string * list string * _VarEnv) :=
  match computed with
  | [] => Ok ([], [], env)
  | (_, e) :: rest =>
      '(c, env) ← compile_expr e env;
      '(hs', ags', env) ← agg_computed rest env;
      if is_agg e then Ok (hs', c :: ags', env) else Ok (c :: hs', ags', env)
  end.

Definition _compile_agg_query (select : list SelectItem) (env : _VarEnv)
    (all_relations : list (string * RelationCls * option string))
    (where_parts : list string) (limit offset : option Z)
    (computed : list (string * Expr)) : result string :=
  '(hs1, ags1, env) ← agg_select select env;
  '(hs2, ags2, env) ← agg_computed computed env;
  '(body_atoms, env) ← for_env body_atom all_relations env;
  let all_body := body_atoms ++ where_parts ++ limit_literal limit offset in
  let all_head := (hs1 ++ hs2) ++ (ags1 ++ ags2) in
  Ok (query_text (join ", " all_head) all_body).

(** The [for rn, cls, alias in full_relations] loop: the columns of each
    fully selected relation go to the head, and the relation joins
    [all_relations] unless it is there already. *)
Fixpoint select_full (full : list RelationCls)
    (all_relations : list (string * RelationCls * option string))
    (env : _VarEnv)
  : result (list string * list (string * RelationCls * option string)
            * _VarEnv) :=
  match full with
  | [] => Ok ([], all_relations, env)
  | cls :: rest =>
      let rn := _resolve_name cls in
      '(vs, env) ← column_vars rn None cls env;
      let all_relations :=
        if existsb (λ r, bool_decide (r.1.1 = rn)
                         && bool_decide (r.2 = None)) all_relations
        then all_relations else all_relations ++ [(rn, cls, None)] in
      '(vs', all_relations, env) ← select_full rest all_relations env;
      Ok (vs ++ vs', all_relations, env)
  end.

Definition selected_columns (select : list SelectItem) : list Column :=
  omap (λ s, match s with SelExpr (EColumn c) => Some c | _ => None end)
       select.

Definition selected_relations (select : list SelectItem) : list RelationCls :=
  omap (λ s, match s with SelRelation cls => Some cls | _ => None end)
       select.

Definition apply_order_by (order_by : option Expr) (head_parts : list string)
    (env : _VarEnv) : result (list string * _VarEnv) :=
  match order_by with
  | Some (OrderedColumn column descending) =>
      '(order_var, env) ← compile_expr column env;
      Ok (decorate order_var (if descending then ":desc" else ":asc")
            head_parts, env)
  | Some (EColumn col) =>
      '(order_var, env) ← get_var col env;
      Ok (decorate order_var ":asc" head_parts, env)
  | _ => Ok (head_parts, env)
  end.

(** The non-aggregating part of [compile_query], from "Simple query" on. *)
Definition simple_query (q : Query) (env : _VarEnv)
    (all_relations : list (string * RelationCls * option string))
    (where_parts : list string) (or_branches : option (list (list string)))
  : result QueryText :=
  '(hp1, all_relations, env) ←
    select_full (selected_relations (select q)) all_relations env;
  '(hp2, env) ← for_env get_var (selected_columns (select q)) env;
  '(hp3, env) ← for_env compile_expr ((computed q).*2) env;
  '(head_parts, env) ← apply_order_by (order_by q) (hp1 ++ hp2 ++ hp3) env;
  '(body_atoms, env) ← for_env body_atom all_relations env;
  let all_body := body_atoms ++ where_parts
                    ++ limit_literal (limit q) (offset q) in
  let head_str := join ", " head_parts in
  match or_branches with
  | Some branches =>
      Ok (Many (map (λ branch_parts,
                       "?" +:+ head_str +:+ " <- "
                         +:+ join ", " (body_atoms ++ nonempty branch_parts
                                          ++ limit_literal (limit q) (offset q)))
                    branches))
  | None => Ok (Single (query_text head_str all_body))
  end.

Definition compile_query (q : Query) : result QueryText :=
  let env := VarEnv.new in
  let all_relations := all_relations_of (relations q) in
  env ← match on_condition q with
        | Some c => _process_join_condition c env
        | None => Ok env
        end;
  '(where_parts, or_branches, env) ←
    match where_condition q with
    | Some w =>
        if _has_or w then
          '(bs, env) ← compile_or_branches w env; Ok ([], Some bs, env)
        else
          '(ps, env) ← compile_bool_expr w env; Ok (nonempty ps, None, env)
    | None => Ok ([], None, env)
    end;
  let has_agg :=
    existsb (λ s, match s with SelExpr e => is_agg e | _ => false end)
            (select q) in
  let has_computed_agg := existsb (λ kv, is_agg kv.2) (computed q) in
  if has_agg || has_computed_agg then
    Single <$> _compile_agg_query (select q) env all_relations where_parts
                 (limit q) (offset q) (computed q)
  else simple_query q env all_relations where_parts or_branches.

End Compiler.

(** ** [migrations/operations.py], [state.py], [autodetector.py],
       [recorder.py] and [executor.py] *)

Module Migrations.

Inductive Operation : Type :=
  | CreateRelation (name : string) (columns : list (string * string))
  | DropRelation (name : string) (columns : list (string * string))
  | CreateRule (name : string) (clauses : list string)
  | DropRule (name : string) (clauses : list string)
  | ReplaceRule (name : string) (old_clauses new_clauses : list string)
  | CreateIndex (name relation column metric : string)
                (m ef_construction ef_search : Z)
  | DropIndex (name relation column metric : string)
              (m ef_construction ef_search : Z)
  | RunDatalog (forward backward : list string).

Definition schema_command (name : string) (columns : list (string * string))
  : string :=
  "+" +:+ name +:+ "("
    +:+ join ", " (map (λ '(col, tp), col +:+ ": " +:+ tp) columns) +:+ ")".

Definition index_create_command (name relation column metric : string)
    (m ef_construction ef_search : Z) : string :=
  ".index create " +:+ name +:+ " on " +:+ relation +:+ "(" +:+ column
    +:+ ") type hnsw metric " +:+ metric +:+ " m " +:+ pretty m
    +:+ " ef_construction " +:+ pretty ef_construction
    +:+ " ef_search " +:+ pretty ef_search.

Definition forward_commands (op : Operation) : list string :=
  match op with
  | CreateRelation name columns => [schema_command name columns]
  | DropRelation name _ => [".rel drop " +:+ name]
  | CreateRule _ clauses => clauses
  | DropRule name _ => [".rule drop " +:+ name]
  | ReplaceRule name _ new_clauses => (".rule drop " +:+ name) :: new_clauses
  | CreateIndex name relation column metric m efc efs =>
      [index_create_command name relation column metric m efc efs]
  | DropIndex name _ _ _ _ _ _ => [".index drop " +:+ name]
  | RunDatalog forward _ => forward
  end.

Definition backward_commands (op : Operation) : list string :=
  match op with
  | CreateRelation name _ => [".rel drop " +:+ name]
  | DropRelation name columns => [schema_command name columns]
  | CreateRule name _ => [".rule drop " +:+ name]
  | DropRule _ clauses => clauses
  | ReplaceRule name old_clauses _ => (".rule drop " +:+ name) :: old_clauses
  | CreateIndex name _ _ _ _ _ _ => [".index drop " +:+ name]
  | DropIndex name relation column metric m efc efs =>
      [index_create_command name relation column metric m efc efs]
  | RunDatalog _ backward => backward
  end.

(** The dict stored per index: the keys [detect_changes] reads, each
    present or absent. *)
Record IndexInfo : Type := {
  idx_relation : option string;
  idx_column : option string;
  idx_metric : option string;
  idx_m : option Z;
  idx_ef_construction : option Z;
  idx_ef_search : option Z
}.

#[global] Instance IndexInfo_eq_dec : EqDecision IndexInfo.
Proof. solve_decision. Defined.

Record ModelState : Type := {
  relations : gmap string (list (string * string));
  rules : gmap string (list string);
  indexes : gmap string IndexInfo
}.

(** [d[key]] *)
Definition getitem {A} (d : gmap string A) (key : string) : result A :=
  match d !! key with
  | Some a => Ok a
  | None => Raise (KeyError key)
  end.

(** [sorted(names)] for a set of names. *)
Definition sorted (names : gset string) : list string :=
  merge_sort String.le (elements names).

(** A [for name in ...] loop whose body appends to [ops]. *)
Fixpoint for_each (names : list string)
    (body : string → result (list Operation)) : result (list Operation) :=
  match names with
  | [] => Ok []
  | name :: rest =>
      ops ← body name; ops' ← for_each rest body; Ok (ops ++ ops')
  end.

(** The seven arguments every index operation is built from. *)
Definition index_op
    (mk : string → string → string → string → Z → Z → Z → Operation)
    (name : string) (info : IndexInfo) : result Operation :=
  match idx_relation info with
  | None => Raise (KeyError "relation")
  | Some relation =>
      match idx_column info with
      | None => Raise (KeyError "column")
      | Some column =>
          Ok (mk name relation column
                (default "cosine" (idx_metric info))
                (default 16%Z (idx_m info))
                (default 100%Z (idx_ef_construction info))
                (default 50%Z (idx_ef_search info)))
      end
  end.

Definition detect_changes (old new : ModelState) : result (list Operation) :=
  let old_rels := dom (relations old) in
  let new_rels := dom (relations new) in
  let old_rules := dom (rules old) in
  let new_rules := dom (rules new) in
  let old_idxs := dom (indexes old) in
  let new_idxs := dom (indexes new) in
  ops1 ← for_each (sorted (new_rels ∖ old_rels)) (λ name,
    cols ← getitem (relations new) name;
    Ok [CreateRelation name cols]);
  ops2 ← for_each (sorted (old_rels ∩ new_rels)) (λ name,
    o ← getitem (relations old) name;
    n ← getitem (relations new) name;
    if bool_decide (o ≠ n)
    then Ok [DropRelation name o; CreateRelation name n] else Ok []);
  ops3 ← for_each (sorted (old_rules ∖ new_rules)) (λ name,
    cl ← getitem (rules old) name;
    Ok [DropRule name cl]);
  ops4 ← for_each (sorted (old_rules ∩ new_rules)) (λ name,
    o ← getitem (rules old) name;
    n ← getitem (rules new) name;
    if bool_decide (o ≠ n) then Ok [ReplaceRule name o n] else Ok []);
  ops5 ← for_each (sorted (new_rules ∖ old_rules)) (λ name,
    cl ← getitem (rules new) name;
    Ok [CreateRule name cl]);
  ops6 ← for_each (sorted (old_rels ∖ new_rels)) (λ name,
    cols ← getitem (relations old) name;
    Ok [DropRelation name cols]);
  ops7 ← for_each (sorted (old_idxs ∖ new_idxs)) (λ name,
    info ← getitem (indexes old) name;
    op ← index_op DropIndex name info;
    Ok [op]);
  ops8 ← for_each (sorted (old_idxs ∩ new_idxs)) (λ name,
    o ← getitem (indexes old) name;
    n ← getitem (indexes new) name;
    if bool_decide (o ≠ n) then
      old_info ← getitem (indexes old) name;
      d ← index_op DropIndex name old_info;
      new_info ← getitem (indexes new) name;
      c ← index_op CreateIndex name new_info;
      Ok [d; c]
    else Ok []);
  ops9 ← for_each (sorted (new_idxs ∖ old_idxs)) (λ name,
    info ← getitem (indexes new) name;
    op ← index_op CreateIndex name info;
    Ok [op]);
  Ok (ops1 ++ ops2 ++ ops3 ++ ops4 ++ ops5 ++ ops6 ++ ops7 ++ ops8 ++ ops9).

Record MigrationInfo : Type := {
  name : string;
  operations : list Operation
}.

(** The store behind [kg.execute]: the commands received so far and the
    tuples of the reserved relation, each a pair (name, applied_at). *)
Record KG : Type := {
  commands : list string;
  rows : list (string * string)
}.

Definition MIGRATION_RELATION : string := "__inputlayer_migrations__".

(** [kg.execute(datalog)] for a command that leaves the reserved relation
    alone. *)
Definition execute (datalog : string) (kg : KG) : KG :=
  {| commands := commands kg ++ [datalog]; rows := rows kg |}.

Section recorder.
(** [datetime.now(timezone.utc).isoformat()] at the moment the store has
    received [n] commands. *)
Variable utcnow : nat → string.

Definition ensure_schema (kg : KG) : KG :=
  execute ("+" +:+ MIGRATION_RELATION
             +:+ "(name: string, applied_at: string)") kg.

(** [sorted(str(row[0]) for row in rows)] *)
Definition get_applied (kg : KG) : list string * KG :=
  let kg' := execute ("?Name, At <- " +:+ MIGRATION_RELATION
                        +:+ "(Name, At)") kg in
  (merge_sort String.le ((rows kg).*1), kg').

Definition record_applied (name : string) (kg : KG) : KG :=
  let now := utcnow (length (commands kg)) in
  {| commands := commands kg ++
       ["+" +:+ MIGRATION_RELATION +:+ "(" +:+ Compiler.dquote +:+ name
          +:+ Compiler.dquote +:+ ", " +:+ Compiler.dquote +:+ now
          +:+ Compiler.dquote +:+ ")"];
     rows := rows kg ++ [(name, now)] |}.

Definition record_reverted (name : string) (kg : KG) : KG :=
  {| commands := commands kg ++
       ["-" +:+ MIGRATION_RELATION +:+ "(Name, At) <- "
          +:+ MIGRATION_RELATION +:+ "(Name, At), Name = "
          +:+ Compiler.dquote +:+ name +:+ Compiler.dquote];
     rows := filter (λ row, row.1 ≠ name) (rows kg) |}.

Definition apply_migration (migration : MigrationInfo) (kg : KG) : KG :=
  foldl (λ kg cmd, execute cmd kg) kg
    (concat (map forward_commands (operations migration))).

Definition revert_migration (migration : MigrationInfo) (kg : KG) : KG :=
  foldl (λ kg cmd, execute cmd kg) kg
    (concat (map backward_commands (reverse (operations migration)))).

Definition is_target (target : option string) (m : MigrationInfo) : bool :=
  match target with
  | Some t => bool_decide (name m = t)
  | None => false
  end.

(** The [for m in migrations] loop of [migrate]. *)
Fixpoint migrate_loop (target : option string) (applied : gset string)
    (migrations : list MigrationInfo) (kg : KG)
    (applied_names : list string) : KG * list string :=
  match migrations with
  | [] => (kg, applied_names)
  | m :: rest =>
      if bool_decide (name m ∈ applied) then
        migrate_loop target applied rest kg applied_names
      else if is_target target m then (kg, applied_names)
      else
        let kg := apply_migration m kg in
        let kg := record_applied (name m) kg in
        let applied_names := applied_names ++ [name m] in
        if is_target target m then (kg, applied_names)
        else migrate_loop target applied rest kg applied_names
  end.

Definition migrate (kg : KG) (migrations : list MigrationInfo)
    (target : option string) : result (KG * list string) :=
  let kg := ensure_schema kg in
  let '(names, kg) := get_applied kg in
  let applied : gset string := list_to_set names in
  Ok (migrate_loop target applied migrations kg []).

(** The [for i, m in enumerate(migrations)] search of [revert_to]. *)
Fixpoint find_target (i : nat) (migrations : list MigrationInfo)
    (target : string) : option nat :=
  match migrations with
  | [] => None
  | m :: rest =>
      if bool_decide (name m = target) then Some i
      else find_target (S i) rest target
  end.

Definition revert_to (kg : KG) (migrations : list MigrationInfo)
    (target : string) : result (KG * list string) :=
  let kg := ensure_schema kg in
  let '(names, kg) := get_applied kg in
  let applied : gset string := list_to_set names in
  match find_target 0 migrations target with
  | None => Raise (MigrationError target)
  | Some target_idx =>
      let to_revert :=
        filter (λ m, name m ∈ applied)
               (reverse (drop (S target_idx) migrations)) in
      Ok (foldl (λ '(kg, reverted_names) m,
                   let kg := revert_migration m kg in
                   let kg := record_reverted (name m) kg in
                   (kg, reverted_names ++ [name m]))
                (kg, []) to_revert)
  end.

End recorder.

(** The names [migrate] and [revert_to] read as already applied. *)
Definition applied_in (kg : KG) : gset string :=
  list_to_set (get_applied (ensure_schema kg)).1.

End Migrations.

(** ** Predicates used to state the properties *)

Module Spec.
Import Ast VarEnv Compiler.

(** Values [compile_value] has an encoding for. *)
Fixpoint supported (v : Value) : bool :=
  match v with
  | VOther _ => false
  | VList items => forallb supported items
  | _ => true
  end.

(** Expressions all of whose compiled literals and parameters are
    supported.  Of an aggregation only the parts [_compile_agg_expr] visits
    count: [column] is skipped when [order_column] is set. *)
Fixpoint expr_ok (e : Expr) : bool :=
  match e with
  | EColumn _ => true
  | Literal v => supported v
  | Arithmetic _ lhs rhs => expr_ok lhs && expr_ok rhs
  | FuncCall _ args => forallb expr_ok args
  | AggExpr _ column params passthrough order_column _ =>
      forallb supported params && forallb expr_ok passthrough
      && match order_column with
         | Some oc => expr_ok oc
         | None => match column with Some c => expr_ok c | None => true end
         end
  | OrderedColumn column _ => expr_ok column
  end.

Definition is_column (e : Expr) : bool :=
  match e with EColumn _ => true | _ => false end.

(** Conditions whose expressions are supported and whose membership tests
    relate two columns. *)
Fixpoint well_formed (b : BoolExpr) : bool :=
  match b with
  | Comparison _ lhs rhs => expr_ok lhs && expr_ok rhs
  | And lhs rhs | Or lhs rhs => well_formed lhs && well_formed rhs
  | Not operand => well_formed operand
  | InExpr column target | NegatedIn column target =>
      is_column column && is_column target
  | MatchExpr _ bindings _ => forallb expr_ok (bindings.*2)
  end.

(** Well-formed conditions without an [Or] node. *)
Definition compilable (b : BoolExpr) : bool :=
  negb (_has_or b) && well_formed b.

(** The leaves of the tree of [Or] nodes at the root of a condition, left
    to right, and the number of [Or] nodes of that tree. *)
Fixpoint or_leaves (b : BoolExpr) : list BoolExpr :=
  match b with
  | Or lhs rhs => or_leaves lhs ++ or_leaves rhs
  | _ => [b]
  end.

Fixpoint root_ors (b : BoolExpr) : nat :=
  match b with
  | Or lhs rhs => S (root_ors lhs + root_ors rhs)
  | _ => 0
  end.

(** [s] contains an underscore. *)
Fixpoint has_us (s : string) : bool :=
  match s with
  | EmptyString => false
  | String c s' => Ascii.eqb c "_" || has_us s'
  end.

(** The names in use are pairwise distinct, and each is either free of
    underscores or a base name followed by [_N] for a counter value [N]
    already handed out. *)
Definition names_inv (env : _VarEnv) : Prop :=
  (∀ k1 k2 v, _map env !! k1 = Some v → _map env !! k2 = Some v → k1 = k2)
  ∧ ∀ k v, _map env !! k = Some v →
      has_us v = false
      ∨ ∃ base n, v = base +:+ "_" +:+ pretty n ∧ has_us base = false
                  ∧ 1 ≤ n ≤ _counter env.

Definition env_inv (env : _VarEnv) : Prop := env_wf env ∧ names_inv env.

(** A call on the environment, and a run of calls in source order. *)
Inductive env_op : Type :=
  | OpGetVar (col : Column)
  | OpUnify (col_a col_b : Column).

Definition run_op (op : env_op) (env : _VarEnv) : result _VarEnv :=
  match op with
  | OpGetVar col => snd <$> get_var col env
  | OpUnify col_a col_b => snd <$> unify col_a col_b env
  end.

Fixpoint run_ops (ops : list env_op) (env : _VarEnv) : result _VarEnv :=
  match ops with
  | [] => Ok env
  | op :: rest => env ← run_op op env; run_ops rest env
  end.

(** The name [assign] gives to a root that has none. *)
Definition fresh_name (col_name : string) (env : _VarEnv) : string :=
  let var := Naming.column_to_variable col_name in
  if bool_decide (var ∈ used_vars env)
  then var +:+ "_" +:+ pretty (S (_counter env)) else var.

(** The literal appended for a configured limit. *)
Definition limit_text (n : Z) (offset : option Z) : string :=
  match offset with
  | Some o => "limit(" +:+ pretty n +:+ ", " +:+ pretty o +:+ ")"
  | None => "limit(" +:+ pretty n +:+ ")"
  end.

(** [s] ends with [suffix]. *)
Definition ends_with (s suffix : string) : Prop :=
  ∃ prefix, s = prefix +:+ suffix.

(** What [order_by] makes [compile_query] compile. *)
Definition order_ok (order_by : option Expr) : bool :=
  match order_by with
  | Some (OrderedColumn column _) => expr_ok column
  | _ => true
  end.

(** The query selects or computes an aggregation. *)
Definition aggregating (q : Query) : bool :=
  existsb (λ s, match s with SelExpr e => is_agg e | _ => false end)
          (select q)
  || existsb (λ kv, is_agg kv.2) (computed q).

(** The text emitted for one branch of a split query. *)
Definition branch_text (head_str : string) (body_atoms lim : list string)
    (branch_parts : list string) : string :=
  "?" +:+ head_str +:+ " <- "
    +:+ join ", " (body_atoms ++ nonempty branch_parts ++ lim).

(** A query text with a limit: head, arrow, and a body ending in the limit
    literal. *)
Definition limited (head_str lim text : string) : Prop :=
  ∃ body, text = "?" +:+ head_str +:+ " <- " +:+ body ∧ ends_with body lim.

End Spec.

(** ** Inputs used in the examples *)

Module Examples.
Import Types Relation Ast Migrations.

(** [class Employee(Relation)] of the test-suite. *)
Definition Employee : RelationCls :=
  {| __name__ := "Employee"; __relation_name__ := None;
     model_fields := [("id", Tint); ("name", Tstr); ("department", Tstr);
                      ("salary", Tfloat); ("active", Tbool)] |}.

(** [class Pair(Relation): a: int; b: int] *)
Definition Pair : RelationCls :=
  {| __name__ := "Pair"; __relation_name__ := None;
     model_fields := [("a", Tint); ("b", Tint)] |}.

Definition pair_a : Column :=
  {| relation := "pair"; Ast.name := "a"; ref_alias := None |}.
Definition pair_b : Column :=
  {| relation := "pair"; Ast.name := "b"; ref_alias := None |}.

Definition emp_department : Column :=
  {| relation := "employee"; Ast.name := "department"; ref_alias := None |}.

Definition dept (d : string) : BoolExpr :=
  Comparison "=" (EColumn emp_department) (Literal (VStr d)).

Definition m0001 : MigrationInfo :=
  {| Migrations.name := "0001_initial";
     operations := [CreateRelation "t" [("a", "int")]] |}.
Definition m0002 : MigrationInfo :=
  {| Migrations.name := "0002_auto";
     operations := [CreateRule "r" ["+r(X) <- t(X)"]] |}.

(** The state of scenario S5. *)
Definition document_state : ModelState :=
  {| relations := {[ "document" := [("id", "int"); ("title", "string");
                                    ("embedding", "vector[128]")] ]};
     rules := ∅;
     indexes := {[ "doc_idx" :=
       {| idx_relation := Some "document"; idx_column := Some "embedding";
          idx_metric := Some "cosine"; idx_m := Some 16%Z;
          idx_ef_construction := Some 100%Z;
          idx_ef_search := Some 50%Z |} ]} |}.

Definition empty_state : ModelState :=
  {| relations := ∅; rules := ∅; indexes := ∅ |}.

(** [query(Employee, where = (department == "eng") | (department ==
    "sales"), limit = 10, offset = 20)] *)
Definition limited_or_query : Compiler.Query :=
  {| Compiler.select := [Compiler.SelRelation Employee];
     Compiler.relations := [Compiler.ARelation Employee];
     Compiler.on_condition := None;
     Compiler.where_condition := Some (Or (dept "eng") (dept "sales"));
     Compiler.order_by := None;
     Compiler.limit := Some 10%Z;
     Compiler.offset := Some 20%Z;
     Compiler.computed := [] |}.

Definition fresh_store : KG := {| commands := []; rows := [] |}.

Definition clock (n : nat) : string := "2024-01-01T00:00:00+00:00".

End Examples.

(** ** What a run of [migrate] leaves in the store *)

Module Log.
Import Migrations.

(** The migrations of the list that [migrate] finds unrecorded. *)
Definition pending (kg : KG) (migrations : list MigrationInfo)
  : list MigrationInfo :=
  filter (λ m, name m ∉ applied_in kg) migrations.

(** What the store receives when a migration is applied and recorded at
    time [now]: the forward commands of its operations, in order, then the
    insert into the reserved relation. *)
Definition applied_block (m : MigrationInfo) (now : string) : list string :=
  concat (map forward_commands (operations m))
  ++ ["+__inputlayer_migrations__(" +:+ Compiler.dquote +:+ name m
        +:+ Compiler.dquote +:+ ", " +:+ Compiler.dquote +:+ now
        +:+ Compiler.dquote +:+ ")"].

End Log.

(** ** Further predicates *)

Module Forest.
Import Ast VarEnv Spec.

(** [r] is the root that [k] reaches in the forest. *)
Definition root_of (parent : gmap string string) (k r : string) : Prop :=
  ∃ n, path parent k r n.

(** Three columns of a relation [node], and a column of another relation
    that shares its name with the first. *)
Definition node_a : Column :=
  {| relation := "node"; name := "a"; ref_alias := None |}.
Definition node_b : Column :=
  {| relation := "node"; name := "b"; ref_alias := None |}.
Definition node_c : Column :=
  {| relation := "node"; name := "c"; ref_alias := None |}.
Definition other_a : Column :=
  {| relation := "other"; name := "a"; ref_alias := None |}.

(** [env.unify(node.b, node.c); env.unify(node.a, node.b)] on a fresh
    environment, and the environment the two calls leave: [node.c] hangs
    under [node.b], which hangs under the root [node.a]; [node.a] and
    [node.b] have names. *)
Definition chain_ops : list env_op :=
  [OpUnify node_b node_c; OpUnify node_a node_b].

Definition chain_env : _VarEnv :=
  {| _map := {[ "node.a" := "A"; "node.b" := "B" ]};
     _counter := 0;
     _parent := {[ "node.c" := "node.b"; "node.b" := "node.a" ]} |}.

End Forest.

(** ** Further predicates on text and types *)

Module Text.
Import Naming Ast Compiler.

(** [s] has no upper-case ASCII letter. *)
Fixpoint no_upper (s : string) : bool :=
  match s with
  | EmptyString => true
  | String c s' => negb (is_upper c) && no_upper s'
  end.

(** [s] is ASCII: every character is below 128.  On such strings
    [str.lower] is the map [lower_str] of the embedding. *)
Fixpoint is_ascii (s : string) : bool :=
  match s with
  | EmptyString => true
  | String (Ascii _ _ _ _ _ _ _ b7) s' => negb b7 && is_ascii s'
  end.

(** The storage-type names without a dimension. *)
Definition plain_type_names : list string :=
  ["bool"; "timestamp"; "int"; "float"; "string"; "vector"; "vector_int8"].

End Text.

Module Diff.
Import Migrations.

(** Every index entry carries the two keys [detect_changes] indexes
    rather than [get]s. *)
Definition indexes_complete (S : ModelState) : Prop :=
  ∀ n info, indexes S !! n = Some info →
            is_Some (idx_relation info) ∧ is_Some (idx_column info).

End Diff.

(** ** [compiler.py]: facts; [index.py]; [ModelState.from_models] *)

Module Facts.
Import Types Relation Ast Compiler Migrations.

(** An instance of a [Relation] subclass: its class and its attributes. *)
Record Fact : Type := {
  type_ : RelationCls;
  __dict__ : gmap string Value
}.

Definition getattr (fact : Fact) (col : string) : result Value :=
  match __dict__ fact !! col with
  | Some v => Ok v
  | None => Raise (AttributeError col)
  end.

(** [[compile_value(getattr(fact, col)) for col in columns]] *)
Fixpoint fact_values (fact : Fact) (columns : list string)
  : result (list string) :=
  match columns with
  | [] => Ok []
  | col :: rest =>
      v ← getattr fact col;
      s ← compile_value v;
      ss ← fact_values fact rest;
      Ok (s :: ss)
  end.

Definition compile_insert (fact : Fact) (persistent : bool) : result string :=
  let name := _resolve_name (type_ fact) in
  let columns := _get_columns (type_ fact) in
  values ← fact_values fact columns;
  let prefix := if persistent then "+" else "" in
  Ok (prefix +:+ name +:+ "(" +:+ join ", " values +:+ ")").

(** The [for fact in facts] loop of [compile_bulk_insert]. *)
Fixpoint bulk_tuples (columns : list string) (facts : list Fact)
  : result (list string) :=
  match facts with
  | [] => Ok []
  | fact :: rest =>
      values ← fact_values fact columns;
      tuples ← bulk_tuples columns rest;
      Ok (("(" +:+ join ", " values +:+ ")") :: tuples)
  end.

Definition compile_bulk_insert (relation_cls : RelationCls)
    (facts : list Fact) (persistent : bool) : result string :=
  let name := _resolve_name relation_cls in
  let columns := _get_columns relation_cls in
  tuples ← bulk_tuples columns facts;
  let prefix := if persistent then "+" else "" in
  Ok (prefix +:+ name +:+ "[" +:+ join ", " tuples +:+ "]").

Definition compile_delete (fact : Fact) : result string :=
  let name := _resolve_name (type_ fact) in
  let columns := _get_columns (type_ fact) in
  values ← fact_values fact columns;
  Ok ("-" +:+ name +:+ "(" +:+ join ", " values +:+ ")").

(** [index.py] *)
Record HnswIndex : Type := {
  name : string;
  relation : RelationCls;
  column : string;
  metric : string;
  m : Z;
  ef_construction : Z;
  ef_search : Z
}.

Definition to_datalog (idx : HnswIndex) : string :=
  let rel_name := _resolve_name (relation idx) in
  ".index create " +:+ name idx +:+ " on " +:+ rel_name +:+ "("
    +:+ column idx +:+ ") type hnsw metric " +:+ metric idx
    +:+ " m " +:+ pretty (m idx)
    +:+ " ef_construction " +:+ pretty (ef_construction idx)
    +:+ " ef_search " +:+ pretty (ef_search idx).

(** [state.py]: [ModelState.from_models(relations, None, indexes)].
    The list comprehension
    [[(col, python_type_to_datalog(col_types[col])) for col in cols]]: *)
Fixpoint state_columns (col_types : gmap string PyType)
    (cols : list string) : result (list (string * string)) :=
  match cols with
  | [] => Ok []
  | col :: rest =>
      match col_types !! col with
      | Some tp =>
          t ← python_type_to_datalog tp;
          cs ← state_columns col_types rest;
          Ok ((col, t) :: cs)
      | None => Raise (TypeError "KeyError")
      end
  end.

(** [for rel_cls in relations or []] *)
Fixpoint add_relations (state : ModelState) (rels : list RelationCls)
  : result ModelState :=
  match rels with
  | [] => Ok state
  | rel_cls :: rest =>
      let name := _resolve_name rel_cls in
      let cols := _get_columns rel_cls in
      let col_types := _get_column_types rel_cls in
      cs ← state_columns col_types cols;
      add_relations
        {| Migrations.relations := <[name := cs]> (Migrations.relations state);
           rules := rules state;
           indexes := indexes state |} rest
  end.

(** The dict stored under [idx.name]. *)
Definition index_entry (idx : HnswIndex) : IndexInfo :=
  {| idx_relation := Some (_resolve_name (relation idx));
     idx_column := Some (column idx);
     idx_metric := Some (metric idx);
     idx_m := Some (m idx);
     idx_ef_construction := Some (ef_construction idx);
     idx_ef_search := Some (ef_search idx) |}.

(** [for idx in indexes or []] *)
Fixpoint add_indexes (state : ModelState) (idxs : list HnswIndex)
  : ModelState :=
  match idxs with
  | [] => state
  | idx :: rest =>
      add_indexes
        {| Migrations.relations := Migrations.relations state;
           rules := rules state;
           indexes := <[name idx := index_entry idx]> (indexes state) |} rest
  end.

Definition from_models (rels : list RelationCls) (idxs : list HnswIndex)
  : result ModelState :=
  let state := {| Migrations.relations := ∅; rules := ∅; indexes := ∅ |} in
  state ← add_relations state rels;
  Ok (add_indexes state idxs).

(** The query [query(R, limit=.., offset=..)] over the one relation [R]. *)
Definition select_all (R : RelationCls) (limit offset : option Z) : Query :=
  {| select := [SelRelation R];
     Compiler.relations := [ARelation R];
     on_condition := None;
     where_condition := None;
     order_by := None;
     limit := limit;
     offset := offset;
     computed := [] |}.

(** The column [R.col], as [Relation.__getattr__] builds it. *)
Definition column_of (R : RelationCls) (col : string) : Column :=
  {| Ast.relation := _resolve_name R; Ast.name := col; ref_alias := None |}.

(** [class Document(Relation)] with an index on its embedding. *)
Definition Document : RelationCls :=
  {| __name__ := "Document"; __relation_name__ := None;
     model_fields := [("id", Tint); ("title", Tstr);
                      ("embedding", TVector (Some 128%positive))] |}.

Definition doc_idx : HnswIndex :=
  {| name := "doc_idx"; relation := Document; column := "embedding";
     metric := "cosine"; m := 16; ef_construction := 100; ef_search := 50 |}.

(** [Pair(a=1, b=2)] *)
Definition pair_fact : Fact :=
  {| type_ := Examples.Pair;
     __dict__ := {[ "a" := VInt 1; "b" := VInt 2 ]} |}.

End Facts.

(** ** [compiler.py]: rules *)

Module Rules.
Import Naming Relation Ast VarEnv Compiler.

(** The [for col in head_columns] loop of [compile_rule]. *)
Definition head_part (select_map : gmap string Expr) (col : string)
    (env : _VarEnv) : result (string * _VarEnv) :=
  match select_map !! col with
  | Some expr => compile_expr expr env
  | None => Ok (column_to_variable col, env)
  end.

Definition compile_rule (head_name : string) (head_columns : list string)
    (select_map : gmap string Expr)
    (body_relations : list (string * RelationCls * option string))
    (condition : option BoolExpr) (persistent : bool) : result string :=
  let env := VarEnv.new in
  env ← match condition with
        | Some c => _process_join_condition c env
        | None => Ok env
        end;
  '(head_parts, env) ← for_env (head_part select_map) head_columns env;
  '(body_atoms, env) ← for_env body_atom body_relations env;
  '(cond_parts, env) ←
    match condition with
    | Some c => '(ps, env) ← compile_bool_expr c env; Ok (nonempty ps, env)
    | None => Ok ([], env)
    end;
  let all_body := body_atoms ++ cond_parts in
  let prefix := if persistent then "+" else "" in
  let head_str :=
    prefix +:+ head_name +:+ "(" +:+ join ", " head_parts +:+ ")" in
  Ok (head_str +:+ " <- " +:+ join ", " all_body).

(** The column [col] of a body relation, as the body loop builds it. *)
Definition body_column (r : string * RelationCls * option string)
    (col : string) : Column :=
  {| relation := r.1.1; name := col; ref_alias := r.2 |}.

(** The text of a body atom with the given arguments. *)
Definition atom_text (a : string * list string) : string :=
  a.1 +:+ "(" +:+ join ", " a.2 +:+ ")".

(** [class Edge(Relation): src: int; dst: int], and the rule
    [reachable(src, dst) <- edge(src, dst)]. *)
Definition Edge : RelationCls :=
  {| __name__ := "Edge"; __relation_name__ := None;
     model_fields := [("src", Types.Tint); ("dst", Types.Tint)] |}.

Definition edge_body : string * RelationCls * option string :=
  ("edge", Edge, None).

Definition reachable_select : gmap string Expr :=
  {[ "src" := EColumn (body_column edge_body "src");
     "dst" := EColumn (body_column edge_body "dst") ]}.

End Rules.

(** * Properties *)

Import Naming Types Relation Ast VarEnv Compiler Migrations Spec.

(** ** Migrations *)

Section executor.
Variable utcnow : nat → string.

Lemma migrate_loop_skips_target t applied L kg acc :
  t ∉ acc → t ∉ (migrate_loop utcnow (Some t) applied L kg acc).2.
Proof.
  revert kg acc. induction L as [|m L IH]; intros kg acc Hacc; simpl; [done|].
  case_bool_decide; [by apply IH|].
  case_bool_decide as Hm; [done|].
  apply IH. rewrite elem_of_app, list_elem_of_singleton.
  intros [?|?]; [done|congruence].
Qed.

Lemma migrate_loop_absent_target t applied L kg acc :
  t ∉ (Migrations.name <$> L) →
  migrate_loop utcnow (Some t) applied L kg acc
  = migrate_loop utcnow None applied L kg acc.
Proof.
  revert kg acc. induction L as [|m L IH]; intros kg acc Hn; simpl; [done|].
  rewrite fmap_cons, not_elem_of_cons in Hn. destruct Hn as [Hm HL].
  case_bool_decide; [by apply IH|].
  rewrite bool_decide_eq_false_2 by done. by apply IH.
Qed.

Lemma migrate_loop_all applied L kg acc :
  (migrate_loop utcnow None applied L kg acc).2
  = acc ++ filter (λ n, n ∉ applied) (Migrations.name <$> L).
Proof.
  revert kg acc. induction L as [|m L IH]; intros kg acc; simpl.
  - by rewrite app_nil_r.
  - case_bool_decide.
    + rewrite filter_cons_False by naive_solver. apply IH.
    + rewrite filter_cons_True by done. rewrite IH.
      by rewrite <- app_assoc.
Qed.

Lemma foldl_execute (cs : list string) (kg : KG) :
  foldl (λ kg cmd, execute cmd kg) kg cs
  = {| commands := commands kg ++ cs; rows := rows kg |}.
Proof.
  revert kg. induction cs as [|c cs IH]; intros kg; simpl.
  - rewrite app_nil_r. by destruct kg.
  - rewrite IH. simpl. by rewrite <- app_assoc.
Qed.

(** Without a target the loop sends, for each unrecorded migration in
    turn, its forward commands and the insert that records it, and adds the
    row the insert stands for. *)
Lemma migrate_loop_trace (applied : gset string) (L : list MigrationInfo) :
  ∀ kg acc,
    ∃ times,
      length times
      = length (filter (λ m, Migrations.name m ∉ applied) L)
      ∧ migrate_loop utcnow None applied L kg acc
        = ({| commands :=
                commands kg
                ++ concat (zip_with Log.applied_block
                             (filter (λ m, Migrations.name m ∉ applied) L)
                             times);
              rows :=
                rows kg
                ++ zip (Migrations.name
                          <$> filter (λ m, Migrations.name m ∉ applied) L)
                       times |},
           acc ++ (Migrations.name
                     <$> filter (λ m, Migrations.name m ∉ applied) L)).
Proof.
  induction L as [|m L IH]; intros kg acc; simpl.
  - exists []. split; [done|]. rewrite !app_nil_r. by destruct kg.
  - case_bool_decide as Hm.
    + rewrite filter_cons_False by naive_solver. apply IH.
    + rewrite filter_cons_True by done.
      destruct (IH (record_applied utcnow (Migrations.name m)
                      (apply_migration m kg))
                   (acc ++ [Migrations.name m])) as (times & Hlen & ->).
      exists (utcnow (length (commands (apply_migration m kg))) :: times).
      split; [simpl; by rewrite Hlen|].
      unfold apply_migration. rewrite foldl_execute. simpl.
      unfold Log.applied_block at 2. rewrite <- !app_assoc. done.
Qed.

Lemma find_target_absent i L t :
  t ∉ (Migrations.name <$> L) → find_target i L t = None.
Proof.
  revert i. induction L as [|m L IH]; intros i Hn; simpl; [done|].
  rewrite fmap_cons, not_elem_of_cons in Hn. destruct Hn as [Hm HL].
  rewrite bool_decide_eq_false_2 by done. by apply IH.
Qed.

End executor.

(** C3.  With a target, [migrate] leaves the loop before it applies the
    target: on the two migrations [0001_initial], [0002_auto] of a fresh
    store and target [0002_auto] only [0001_initial] is applied and
    recorded, and whatever the store, the list and the target, the target is
    never among the names [migrate] reports as applied. *)
Theorem migrate_stops_before_target :
  migrate Examples.clock Examples.fresh_store
    [Examples.m0001; Examples.m0002] (Some "0002_auto")
  = Ok ({| commands :=
             ["+__inputlayer_migrations__(name: string, applied_at: string)";
              "?Name, At <- __inputlayer_migrations__(Name, At)";
              "+t(a: int)";
              "+__inputlayer_migrations__(" +:+ dquote +:+ "0001_initial"
                +:+ dquote +:+ ", " +:+ dquote
                +:+ "2024-01-01T00:00:00+00:00" +:+ dquote +:+ ")"];
           rows := [("0001_initial", "2024-01-01T00:00:00+00:00")] |},
        ["0001_initial"])
  ∧ ∀ utcnow kg L t,
      ∃ kg' names, migrate utcnow kg L (Some t) = Ok (kg', names)
                   ∧ t ∉ names.
Proof.
  split; [by vm_compute|].
  intros utcnow kg L t. unfold migrate.
  destruct (get_applied (ensure_schema kg)) as [names kg1] eqn:Hg.
  destruct (migrate_loop utcnow (Some t) (list_to_set names) L kg1 [])
    as [kg' out] eqn:Hl.
  exists kg', out. split; [done|].
  change out with (kg', out).2. rewrite <- Hl.
  apply migrate_loop_skips_target. apply not_elem_of_nil.
Qed.

(** C4 as stated fails: [migrate] with a target that names no migration
    does not fail, it applies every pending migration. *)
Lemma migrate_unknown_target_proceeds :
  ("0099_nope" ∉ (Migrations.name <$> [Examples.m0001]))
  ∧ (snd <$> migrate Examples.clock Examples.fresh_store [Examples.m0001]
               (Some "0099_nope"))
    = Ok ["0001_initial"]
  ∧ ¬ raises (migrate Examples.clock Examples.fresh_store [Examples.m0001]
                (Some "0099_nope")).
Proof.
  split; [|split].
  - rewrite list_elem_of_In. simpl. intros [H|[]]. discriminate H.
  - by vm_compute.
  - by vm_compute.
Qed.

(** C4, amended.  For a target that names no migration of the list,
    [revert_to] raises [MigrationError]; [migrate] does not fail: it behaves
    as without a target and applies, in order, every migration whose name is
    not recorded as applied.  After the schema statement and the query of
    the recorder the store receives, for each such migration in list order,
    the forward commands of its operations and then the insert recording
    it; the reserved relation gains one row per migration, with the time of
    that insert; the names returned are theirs. *)
Theorem unknown_target (utcnow : nat → string) (kg : KG)
    (L : list MigrationInfo) (t : string) :
  t ∉ (Migrations.name <$> L) →
  revert_to kg L t = Raise (MigrationError t)
  ∧ migrate utcnow kg L (Some t) = migrate utcnow kg L None
  ∧ (snd <$> migrate utcnow kg L (Some t))
    = Ok (filter (λ n, n ∉ applied_in kg) (Migrations.name <$> L))
  ∧ ∃ kg' times,
      migrate utcnow kg L (Some t)
      = Ok (kg', Migrations.name <$> Log.pending kg L)
      ∧ length times = length (Log.pending kg L)
      ∧ commands kg'
        = commands kg
          ++ ["+__inputlayer_migrations__(name: string, applied_at: string)";
              "?Name, At <- __inputlayer_migrations__(Name, At)"]
          ++ concat (zip_with Log.applied_block (Log.pending kg L) times)
      ∧ rows kg'
        = rows kg ++ zip (Migrations.name <$> Log.pending kg L) times.
Proof.
  intros Ht. split; [|split; [|split]].
  - unfold revert_to.
    destruct (get_applied (ensure_schema kg)) as [names kg1].
    by rewrite find_target_absent.
  - unfold migrate.
    destruct (get_applied (ensure_schema kg)) as [names kg1].
    by rewrite migrate_loop_absent_target.
  - unfold migrate, applied_in.
    destruct (get_applied (ensure_schema kg)) as [names kg1]. simpl.
    rewrite migrate_loop_absent_target by done.
    f_equal. by rewrite migrate_loop_all.
  - unfold migrate, Log.pending, applied_in.
    destruct (get_applied (ensure_schema kg)) as [names kg1] eqn:Hg.
    simpl. rewrite migrate_loop_absent_target by done.
    destruct (migrate_loop_trace utcnow (list_to_set names) L kg1 [])
      as (times & Hlen & ->).
    eexists _, times. split; [done|]. split; [done|]. simpl.
    unfold get_applied, ensure_schema, execute in Hg. simpl in Hg.
    injection Hg as _ <-. simpl. split; [|done].
    by rewrite <- !app_assoc.
Qed.

Lemma unknown_target_witness :
  revert_to Examples.fresh_store [Examples.m0001; Examples.m0002] "0099_nope"
  = Raise (MigrationError "0099_nope")
  ∧ migrate Examples.clock Examples.fresh_store
      [Examples.m0001; Examples.m0002] (Some "0099_nope")
    = migrate Examples.clock Examples.fresh_store
        [Examples.m0001; Examples.m0002] None
  ∧ (snd <$> migrate Examples.clock Examples.fresh_store
               [Examples.m0001; Examples.m0002] (Some "0099_nope"))
    = Ok (filter (λ n, n ∉ applied_in Examples.fresh_store)
            (Migrations.name <$> [Examples.m0001; Examples.m0002]))
  ∧ ∃ kg' times,
      migrate Examples.clock Examples.fresh_store
        [Examples.m0001; Examples.m0002] (Some "0099_nope")
      = Ok (kg', Migrations.name
                   <$> Log.pending Examples.fresh_store
                         [Examples.m0001; Examples.m0002])
      ∧ length times
        = length (Log.pending Examples.fresh_store
                    [Examples.m0001; Examples.m0002])
      ∧ commands kg'
        = commands Examples.fresh_store
          ++ ["+__inputlayer_migrations__(name: string, applied_at: string)";
              "?Name, At <- __inputlayer_migrations__(Name, At)"]
          ++ concat (zip_with Log.applied_block
                       (Log.pending Examples.fresh_store
                          [Examples.m0001; Examples.m0002]) times)
      ∧ rows kg'
        = rows Examples.fresh_store
          ++ zip (Migrations.name
                    <$> Log.pending Examples.fresh_store
                          [Examples.m0001; Examples.m0002]) times.
Proof.
  apply (unknown_target Examples.clock Examples.fresh_store
           [Examples.m0001; Examples.m0002] "0099_nope").
  rewrite list_elem_of_In. simpl. intros [H|[H|[]]]; discriminate H.
Defined.

(** The run behind the witness: both migrations are sent and recorded. *)
Lemma unknown_target_run :
  migrate Examples.clock Examples.fresh_store
    [Examples.m0001; Examples.m0002] (Some "0099_nope")
  = Ok ({| commands :=
             ["+__inputlayer_migrations__(name: string, applied_at: string)";
              "?Name, At <- __inputlayer_migrations__(Name, At)";
              "+t(a: int)";
              "+__inputlayer_migrations__(" +:+ dquote +:+ "0001_initial"
                +:+ dquote +:+ ", " +:+ dquote
                +:+ "2024-01-01T00:00:00+00:00" +:+ dquote +:+ ")";
              "+r(X) <- t(X)";
              "+__inputlayer_migrations__(" +:+ dquote +:+ "0002_auto"
                +:+ dquote +:+ ", " +:+ dquote
                +:+ "2024-01-01T00:00:00+00:00" +:+ dquote +:+ ")"];
           rows := [("0001_initial", "2024-01-01T00:00:00+00:00");
                    ("0002_auto", "2024-01-01T00:00:00+00:00")] |},
        ["0001_initial"; "0002_auto"]).
Proof. by vm_compute. Qed.

(** C5 as stated fails: two tuples of the reserved relation that carry the
    same name make [get_applied] list that name twice. *)
Lemma get_applied_keeps_duplicates :
  (get_applied {| commands := [];
                  rows := [("0001_initial", "2024-01-01");
                           ("0001_initial", "2024-01-02")] |}).1
  = ["0001_initial"; "0001_initial"]
  ∧ ¬ NoDup (get_applied {| commands := [];
                            rows := [("0001_initial", "2024-01-01");
                                     ("0001_initial", "2024-01-02")] |}).1.
Proof.
  split; [by vm_compute|].
  intros H. apply NoDup_cons_1_1 in H. apply H. left.
Qed.

(** C5, amended.  [get_applied] returns the recorded names sorted
    ascending, each as often as it is recorded: the result is sorted, it is
    a permutation of the name column, and it is free of duplicates exactly
    when the name column is. *)
Theorem get_applied_sorted (kg : KG) :
  Sorted String.le (get_applied kg).1
  ∧ (get_applied kg).1 ≡ₚ (rows kg).*1
  ∧ (NoDup (get_applied kg).1 ↔ NoDup (rows kg).*1).
Proof.
  unfold get_applied. simpl. split; [|split].
  - apply (Sorted_merge_sort String.le).
  - apply (merge_sort_Permutation String.le).
  - by rewrite (merge_sort_Permutation String.le).
Qed.

(** ** Type registry and schema statement *)

Lemma scan_type_map_outside (tp : PyType) :
  in_registry tp = false → derives_from_registry tp = false →
  vector_meta_dim tp = None ∧ vector_int8_meta_dim tp = None
  ∧ scan_type_map TYPE_MAP tp = None.
Proof.
  intros Hreg Hder.
  destruct tp as [| | | | |d|d|n ns b|n|r]; try discriminate Hreg;
    try (destruct d; discriminate Hreg); try (by vm_compute).
  simpl in Hder. apply orb_false_iff in Hder as [Hder Hv8].
  apply orb_false_iff in Hder as [Hsub Hv].
  apply bool_decide_eq_false in Hv, Hv8.
  rewrite <- eq_None_not_Some in Hv, Hv8.
  simpl. rewrite Hv, Hv8. split; [done|]. split; [done|].
  simpl in Hsub. repeat (apply orb_false_iff in Hsub as [? Hsub]).
  unfold scan_type_map, TYPE_MAP.
  repeat (rewrite bool_decide_eq_false_2 by discriminate; simpl).
  by repeat match goal with H : issubclass b _ = false |- _ =>
                              rewrite H; clear H end.
Qed.

Lemma issubclass_refl (tp : PyType) : issubclass tp tp = true.
Proof.
  destruct tp; simpl; try done;
    by rewrite (bool_decide_eq_true_2 _ eq_refl).
Qed.

(** A class derived from a class [b] meets the same entry of the map as
    [b] does. *)
Lemma scan_type_map_subclass n ns b :
  is_class b = true →
  scan_type_map TYPE_MAP (TSubclass n ns b) = scan_type_map TYPE_MAP b.
Proof.
  intros Hb.
  assert (∀ items,
            Forall (λ e, e.1 ≠ TSubclass n ns b) items →
            scan_type_map items (TSubclass n ns b) = scan_type_map items b)
    as Hscan.
  { induction 1 as [|[base_type name] items Hne _ IH]; simpl; [done|].
    simpl in Hne. rewrite Hb.
    rewrite (bool_decide_eq_false_2 (TSubclass n ns b = base_type))
      by congruence.
    simpl. rewrite andb_true_r.
    destruct (decide (b = base_type)) as [<-|Hb'].
    - by rewrite issubclass_refl, (bool_decide_eq_true_2 (b = b)).
    - rewrite (bool_decide_eq_false_2 (b = base_type)) by done. simpl.
      rewrite andb_true_r. by rewrite IH. }
  apply Hscan. unfold TYPE_MAP. repeat constructor; done.
Qed.

(** A class whose metaclass is [_VectorMeta] derives from [Vector] and from
    no other entry of the map. *)
Lemma vector_meta_issubclass (tp : PyType) (d : option Z) :
  vector_meta_dim tp = Some d →
  is_class tp = true ∧ vector_int8_meta_dim tp = None
  ∧ issubclass tp (TVector None) = true
  ∧ Forall (λ base_type, issubclass tp base_type = false)
           [Tbool; TTimestamp; Tint; Tfloat; Tstr].
Proof.
  revert d. induction tp as [| | | | |d'|d'|n ns b IH|n|r]; intros d Hd;
    try discriminate Hd.
  - split; [done|]. split; [done|]. split; [by destruct d'|].
    repeat constructor; by destruct d'.
  - simpl in Hd. destruct (vector_meta_dim b) as [inh|] eqn:Hb; [|done].
    destruct (IH inh eq_refl) as (Hc & H8 & Hsub & Hplain).
    split; [done|]. simpl. rewrite H8. split; [reflexivity|].
    split; [done|].
    repeat (apply Forall_cons in Hplain as [? Hplain]).
    repeat constructor; simpl; assumption.
Qed.

Lemma vector_int8_meta_issubclass (tp : PyType) (d : option Z) :
  vector_int8_meta_dim tp = Some d →
  is_class tp = true ∧ vector_meta_dim tp = None
  ∧ issubclass tp (TVectorInt8 None) = true
  ∧ Forall (λ base_type, issubclass tp base_type = false)
           [Tbool; TTimestamp; Tint; Tfloat; Tstr; TVector None].
Proof.
  revert d. induction tp as [| | | | |d'|d'|n ns b IH|n|r]; intros d Hd;
    try discriminate Hd.
  - split; [done|]. split; [done|]. split; [by destruct d'|].
    repeat constructor; by destruct d'.
  - simpl in Hd. destruct (vector_int8_meta_dim b) as [inh|] eqn:Hb; [|done].
    destruct (IH inh eq_refl) as (Hc & H8 & Hsub & Hplain).
    split; [done|]. simpl. rewrite H8. split; [reflexivity|].
    split; [done|].
    repeat (apply Forall_cons in Hplain as [? Hplain]).
    repeat constructor; simpl; assumption.
Qed.

(** A class with metaclass [_VectorMeta] resolves by its [_dim]. *)
Lemma python_type_to_datalog_vector (tp : PyType) (d : option Z) :
  vector_meta_dim tp = Some d →
  python_type_to_datalog tp
  = Ok (match d with
        | Some d => "vector[" +:+ pretty d +:+ "]"
        | None => "vector"
        end).
Proof.
  intros Hd. unfold python_type_to_datalog. rewrite Hd.
  destruct d as [d|]; [done|].
  destruct (vector_meta_issubclass tp None Hd) as (Hc & -> & Hsub & Hplain).
  unfold scan_type_map, TYPE_MAP. rewrite Hc, Hsub.
  repeat (apply Forall_cons in Hplain as [-> Hplain]).
  assert (∀ x, vector_meta_dim x = None → tp ≠ x) as Hne by congruence.
  rewrite !(bool_decide_eq_false_2 (tp = _)) by by apply Hne.
  simpl. by case_bool_decide.
Qed.

Lemma python_type_to_datalog_vector_int8 (tp : PyType) (d : option Z) :
  vector_int8_meta_dim tp = Some d →
  python_type_to_datalog tp
  = Ok (match d with
        | Some d => "vector_int8[" +:+ pretty d +:+ "]"
        | None => "vector_int8"
        end).
Proof.
  intros Hd. unfold python_type_to_datalog.
  destruct (vector_int8_meta_issubclass tp d Hd) as (Hc & -> & Hsub & Hplain).
  rewrite Hd. destruct d as [d|]; [done|].
  unfold scan_type_map, TYPE_MAP. rewrite Hc, Hsub.
  repeat (apply Forall_cons in Hplain as [-> Hplain]).
  assert (∀ x, vector_int8_meta_dim x = None → tp ≠ x) as Hne by congruence.
  rewrite !(bool_decide_eq_false_2 (tp = _)) by by apply Hne.
  simpl. by case_bool_decide.
Qed.

(** C8 as stated fails: a class outside the registry that derives from a
    registered type resolves to that type's name instead of failing. *)
Lemma subclass_resolves_to_base :
  in_registry (TSubclass "Money" None Tfloat) = false
  ∧ python_type_to_datalog (TSubclass "Money" None Tfloat) = Ok "float".
Proof. by vm_compute. Qed.

(** A dimensioned class made from a dimensioned class, [Vector[3][4]],
    resolves by its own dimension, not by that of its base. *)
Lemma own_dimension_decides :
  python_type_to_datalog
    (TSubclass "Vector[4]" (Some (Some 4%Z)) (TVector (Some 3%positive)))
  = Ok "vector[4]".
Proof. by vm_compute. Qed.

(** C8, amended.  [bool] resolves to [bool] and [Timestamp] to [timestamp]
    (neither to [int]); [Vector[N]] resolves to [vector[N]] and
    [VectorInt8[N]] to [vector_int8[N]]; a type that is neither in the
    registry nor derived from a registered type fails with the
    unsupported-type [TypeError].  A class derived from a registered type
    does not fail: when its base is no vector class it resolves to the name
    its base resolves to; when its base is a vector class it resolves by
    its [_dim], the one of its own body if it has one and the inherited one
    otherwise, to [vector[d]] ([vector_int8[d]]), or to [vector]
    ([vector_int8]) when that [_dim] is [None]. *)
Theorem python_type_to_datalog_registry :
  python_type_to_datalog Tbool = Ok "bool"
  ∧ python_type_to_datalog TTimestamp = Ok "timestamp"
  ∧ (∀ N, python_type_to_datalog (TVector (Some N))
           = Ok ("vector[" +:+ pretty N +:+ "]"))
  ∧ (∀ N, python_type_to_datalog (TVectorInt8 (Some N))
           = Ok ("vector_int8[" +:+ pretty N +:+ "]"))
  ∧ (∀ tp, in_registry tp = false → derives_from_registry tp = false →
           python_type_to_datalog tp = Raise unsupported_type)
  ∧ (∀ n ns b name,
       vector_meta_dim b = None → vector_int8_meta_dim b = None →
       python_type_to_datalog b = Ok name →
       python_type_to_datalog (TSubclass n ns b) = Ok name)
  ∧ (∀ n ns b inherited,
       vector_meta_dim b = Some inherited →
       python_type_to_datalog (TSubclass n ns b)
       = Ok (match default inherited ns with
             | Some d => "vector[" +:+ pretty d +:+ "]"
             | None => "vector"
             end))
  ∧ (∀ n ns b inherited,
       vector_int8_meta_dim b = Some inherited →
       python_type_to_datalog (TSubclass n ns b)
       = Ok (match default inherited ns with
             | Some d => "vector_int8[" +:+ pretty d +:+ "]"
             | None => "vector_int8"
             end)).
Proof.
  do 4 (split; [done|]). split; [|split; [|split]].
  - intros tp Hreg Hder.
    destruct (scan_type_map_outside tp Hreg Hder) as (Hv & Hv8 & Hscan).
    unfold python_type_to_datalog. by rewrite Hv, Hv8, Hscan.
  - intros n ns b name Hv Hv8. unfold python_type_to_datalog.
    cbn [vector_meta_dim vector_int8_meta_dim]. rewrite Hv, Hv8.
    destruct (scan_type_map TYPE_MAP b) as [name'|] eqn:Hs; [|done].
    intros [= <-]. rewrite scan_type_map_subclass, Hs; [done|].
    by destruct b.
  - intros n ns b inherited Hb. apply python_type_to_datalog_vector.
    simpl. by rewrite Hb.
  - intros n ns b inherited Hb. apply python_type_to_datalog_vector_int8.
    simpl. by rewrite Hb.
Qed.

Lemma python_type_to_datalog_registry_witness :
  python_type_to_datalog (TClass "dict") = Raise unsupported_type
  ∧ python_type_to_datalog (TSubclass "Money" None Tfloat) = Ok "float"
  ∧ python_type_to_datalog
      (TSubclass "Vector[4]" (Some (Some 4%Z)) (TVector (Some 3%positive)))
    = Ok "vector[4]"
  ∧ python_type_to_datalog
      (TSubclass "Codes" None (TVectorInt8 (Some 8%positive)))
    = Ok "vector_int8[8]".
Proof.
  destruct python_type_to_datalog_registry
    as (_ & _ & _ & _ & Hout & Hplain & Hvec & Hvec8).
  split; [by apply Hout|]. split; [by apply Hplain|].
  split;
    [exact (Hvec "Vector[4]" (Some (Some 4%Z)) (TVector (Some 3%positive))
              (Some 3%Z) eq_refl)
    |exact (Hvec8 "Codes" None (TVectorInt8 (Some 8%positive))
              (Some 8%Z) eq_refl)].
Defined.

(** Swapping the first and third entries of the map would send [bool] to
    [int]: the order of the registry is what keeps them apart. *)
Lemma int_before_bool_captures_bool :
  scan_type_map [(Tint, "int"); (Tbool, "bool")] Tbool = Some "int".
Proof. reflexivity. Qed.

Lemma schema_parts_ok (all fields : list (string * PyType)) (ts : list string) :
  NoDup all.*1 → fields ⊆ all →
  Forall2 (λ f t, python_type_to_datalog f.2 = Ok t) fields ts →
  schema_parts (list_to_map all) fields.*1
  = Ok (zip_with (λ f t, f.1 +:+ ": " +:+ t) fields ts).
Proof.
  intros Hnd Hsub H. induction H as [|[c tp] t fields ts Ht H IH]; [done|].
  simpl in *.
  rewrite (elem_of_list_to_map_1 all c tp Hnd) by (apply Hsub; left).
  rewrite Ht. simpl. unfold fmap in IH. rewrite IH; [done|].
  intros x Hx. apply Hsub. by right.
Qed.

(** C7.  For a relation class with distinct column names whose column types
    resolve to [t1 .. tn], [compile_schema] returns
    ["+name(c1: t1, .., cn: tn)"] with the columns in declaration order; for
    [Employee] that is the string of scenario S1. *)
Theorem compile_schema_shape :
  (∀ (R : RelationCls) (ts : list string),
     NoDup (_get_columns R) →
     Forall2 (λ f t, python_type_to_datalog f.2 = Ok t) (model_fields R) ts →
     compile_schema R
     = Ok ("+" +:+ _resolve_name R +:+ "("
             +:+ join ", " (zip_with (λ f t, f.1 +:+ ": " +:+ t)
                                     (model_fields R) ts)
             +:+ ")"))
  ∧ compile_schema Examples.Employee
    = Ok "+employee(id: int, name: string, department: string, salary: float, active: bool)".
Proof.
  split; [|by vm_compute].
  intros R ts Hnd Hts. unfold compile_schema, _get_column_types, _get_columns.
  by rewrite (schema_parts_ok (model_fields R) (model_fields R) ts).
Qed.

Lemma compile_schema_shape_witness :
  compile_schema Examples.Employee
  = Ok ("+" +:+ _resolve_name Examples.Employee +:+ "("
          +:+ join ", " (zip_with (λ f t, f.1 +:+ ": " +:+ t)
                           (model_fields Examples.Employee)
                           ["int"; "string"; "string"; "float"; "bool"])
          +:+ ")").
Proof.
  apply (proj1 compile_schema_shape Examples.Employee).
  - vm_compute. repeat constructor; rewrite list_elem_of_In; simpl;
      intuition discriminate.
  - repeat constructor.
Defined.

(** ** Unification and the emitted text *)

(** C1.  [compile_conditional_delete] on [Pair(a, b)] with the condition
    [a = b]: the two columns are unified (afterwards both resolve to [X0])
    but the head and the body atom were written before and keep [X0] and
    [X1]; the join leaves no trace in the text. *)
Theorem conditional_delete_drops_join :
  ∃ env,
    compile_conditional_delete_env Examples.Pair
      (Comparison "=" (EColumn Examples.pair_a) (EColumn Examples.pair_b))
    = Ok ("-pair(X0, X1) <- pair(X0, X1)", env)
    ∧ (fst <$> lookup Examples.pair_a env) = Ok (Some "X0")
    ∧ (fst <$> lookup Examples.pair_b env) = Ok (Some "X0").
Proof. eexists. split; [by vm_compute|]. by vm_compute. Qed.

(** ** Autodetector *)

Lemma sorted_elem (names : gset string) (n : string) :
  n ∈ sorted names ↔ n ∈ names.
Proof.
  unfold sorted. rewrite (merge_sort_Permutation String.le).
  apply elem_of_elements.
Qed.

Lemma sorted_diag (names : gset string) : sorted (names ∖ names) = [].
Proof.
  unfold sorted. by rewrite difference_diag_L, elements_empty.
Qed.

Lemma for_each_no_ops (names : list string)
    (body : string → result (list Operation)) :
  (∀ n, n ∈ names → body n = Ok []) → for_each names body = Ok [].
Proof.
  induction names as [|n names IH]; intros Hbody; simpl; [done|].
  rewrite Hbody by left. simpl. rewrite IH; [done|].
  intros n' Hn'. apply Hbody. by right.
Qed.

Lemma getitem_dom {A} (d : gmap string A) (key : string) :
  key ∈ dom d → ∃ a, getitem d key = Ok a.
Proof.
  intros [a Ha]%elem_of_dom. exists a. unfold getitem. by rewrite Ha.
Qed.

(** C9.  Diffing a state against itself yields the empty operation list. *)
Theorem detect_changes_same (S : ModelState) : detect_changes S S = Ok [].
Proof.
  unfold detect_changes. rewrite !sorted_diag. simpl.
  rewrite (for_each_no_ops (sorted (dom (relations S) ∩ dom (relations S)))).
  2:{ intros n [Hn _]%sorted_elem%elem_of_intersection.
      destruct (getitem_dom (relations S) n) as [a ->]; [done|].
      simpl. by rewrite bool_decide_eq_false_2 by (by intros []). }
  simpl.
  rewrite (for_each_no_ops (sorted (dom (rules S) ∩ dom (rules S)))).
  2:{ intros n [Hn _]%sorted_elem%elem_of_intersection.
      destruct (getitem_dom (rules S) n) as [a ->]; [done|].
      simpl. by rewrite bool_decide_eq_false_2 by (by intros []). }
  simpl.
  rewrite (for_each_no_ops (sorted (dom (indexes S) ∩ dom (indexes S)))).
  2:{ intros n [Hn _]%sorted_elem%elem_of_intersection.
      destruct (getitem_dom (indexes S) n) as [a ->]; [done|].
      simpl. by rewrite bool_decide_eq_false_2 by (by intros []). }
  done.
Qed.

(** ** The union-find forest *)

Section forest.
Implicit Types parent : gmap string string.

Lemma path_det parent k r n r' n' :
  path parent k r n → path parent k r' n' → r = r' ∧ n = n'.
Proof.
  intros H. revert r' n'.
  induction H as [k Hk|k p r n Hk H IH]; intros r' n' H'.
  - inversion H'; subst; [done|congruence].
  - inversion H' as [|k' p' r'' n'' Hk' H'']; subst; [congruence|].
    rewrite Hk in Hk'. injection Hk' as <-.
    destruct (IH _ _ H'') as [-> ->]. done.
Qed.

Lemma path_end parent k r n : path parent k r n → parent !! r = None.
Proof. induction 1; done. Qed.

(** Path halving keeps every root and shortens no path. *)
Lemma path_halve parent key p k r n :
  parent !! key = Some p →
  path parent k r n →
  ∃ n', n' ≤ n ∧ path (<[key := default p (parent !! p)]> parent) k r n'.
Proof.
  intros Hkey. revert k r.
  induction n as [n IH] using lt_wf_ind. intros k r H.
  inversion H as [k' Hk|k' q r' m Hk Hq]; subst.
  - exists 0. split; [done|]. apply path_root.
    rewrite lookup_insert_ne; [done|]. intros ->. congruence.
  - destruct (decide (k = key)) as [->|Hne].
    + rewrite Hkey in Hk. injection Hk as <-.
      destruct (parent !! p) as [g|] eqn:Hp; simpl.
      * inversion Hq as [|p' g' r' m' Hp' Hg]; subst; [congruence|].
        rewrite Hp in Hp'. injection Hp' as <-.
        destruct (IH m' ltac:(lia) _ _ Hg) as (n' & Hle & Hn').
        exists (S n'). split; [lia|].
        eapply path_step; [apply lookup_insert_eq|done].
      * destruct (IH m ltac:(lia) _ _ Hq) as (n' & Hle & Hn').
        exists (S n'). split; [lia|].
        eapply path_step; [apply lookup_insert_eq|done].
    + destruct (IH m ltac:(lia) _ _ Hq) as (n' & Hle & Hn').
      exists (S n'). split; [lia|].
      eapply path_step; [|done]. by rewrite lookup_insert_ne.
Qed.

(** With more fuel than the length of the path, the loop of [_find] ends
    at the root; it only rewrites entries, and keeps every root. *)
Lemma find_loop_spec parent key r n fuel :
  path parent key r n → n < fuel →
  ∃ parent',
    find_loop fuel parent key = Some (r, parent')
    ∧ dom parent' = dom parent
    ∧ ∀ k r' m, path parent k r' m → ∃ m', m' ≤ m ∧ path parent' k r' m'.
Proof.
  revert parent key r fuel.
  induction n as [n IH] using lt_wf_ind. intros parent key r fuel H Hfuel.
  destruct fuel as [|fuel]; [lia|]. simpl.
  inversion H as [k' Hk|k' p r' m Hk Hp]; subst.
  - rewrite Hk. simpl. rewrite bool_decide_eq_true_2 by done.
    exists parent. split; [done|]. split; [done|]. eauto.
  - rewrite Hk. simpl.
    rewrite bool_decide_eq_false_2.
    2:{ intros ->. destruct (path_det _ _ _ _ _ _ H Hp); lia. }
    assert (∃ m0, m0 ≤ m ∧ path parent (default p (parent !! p)) r m0)
      as (m0 & Hm0 & Hgp).
    { destruct (parent !! p) as [g|] eqn:Hpp; simpl.
      - inversion Hp as [|p' g' r' m' Hp' Hg]; subst; [congruence|].
        rewrite Hpp in Hp'. injection Hp' as <-. exists m'. split; [lia|done].
      - exists m. done. }
    destruct (path_halve parent key p _ _ _ Hk Hgp) as (m1 & Hm1 & Hgp').
    destruct (IH m1 ltac:(lia) _ _ _ fuel Hgp' ltac:(lia))
      as (parent' & Hfind & Hdom & Hpaths).
    exists parent'. split; [done|]. split.
    + rewrite Hdom. apply dom_insert_lookup_L. eauto.
    + intros k r' m' Hkp.
      destruct (path_halve parent key p _ _ _ Hk Hkp) as (m2 & Hm2 & Hk2).
      destruct (Hpaths _ _ _ Hk2) as (m3 & Hm3 & Hk3).
      exists m3. split; [lia|done].
Qed.

Lemma size_of_dom parent parent' :
  dom parent' = dom parent → size parent' = size parent.
Proof. intros H. by rewrite <- !size_dom, H. Qed.

Lemma find_loop_wf parent key :
  parent_wf parent →
  ∃ root parent',
    find_loop (S (size parent)) parent key = Some (root, parent')
    ∧ parent_wf parent' ∧ dom parent' = dom parent
    ∧ parent' !! root = None.
Proof.
  intros Hwf. destruct (Hwf key) as (r & n & Hpath & Hn).
  destruct (find_loop_spec parent key r n (S (size parent)) Hpath ltac:(lia))
    as (parent' & Hfind & Hdom & Hpaths).
  exists r, parent'. split; [done|]. split; [|split; [done|]].
  - intros k. destruct (Hwf k) as (rk & nk & Hk & Hnk).
    destruct (Hpaths _ _ _ Hk) as (m' & Hm' & Hk').
    exists rk, m'. split; [done|]. rewrite (size_of_dom _ _ Hdom). lia.
  - apply not_elem_of_dom. rewrite Hdom. apply not_elem_of_dom.
    by eapply path_end.
Qed.

(** Hanging one root under another keeps the forest well formed. *)
Lemma union_wf parent ra rb :
  parent_wf parent → parent !! ra = None → parent !! rb = None → ra ≠ rb →
  parent_wf (<[rb := ra]> parent).
Proof.
  intros Hwf Hra Hrb Hne k.
  destruct (Hwf k) as (r & n & Hpath & Hn).
  rewrite map_size_insert_None by done.
  assert (∃ r' n', path (<[rb := ra]> parent) k r' n' ∧ n' ≤ S n)
    as (r' & n' & Hp' & Hn'); [|exists r', n'; split; [done|lia]].
  clear Hn. induction Hpath as [k Hk|k p r n Hk Hp IH].
  - destruct (decide (k = rb)) as [->|Hkb].
    + exists ra, 1. split; [|lia].
      eapply path_step; [apply lookup_insert_eq|].
      apply path_root. by rewrite lookup_insert_ne.
    + exists k, 0. split; [|lia]. apply path_root.
      by rewrite lookup_insert_ne.
  - destruct IH as (r' & n' & Hp' & Hn').
    exists r', (S n'). split; [|lia].
    eapply path_step; [|done].
    rewrite lookup_insert_ne; [done|]. intros <-. congruence.
Qed.

Lemma parent_wf_empty : parent_wf ∅.
Proof.
  intros k. exists k, 0. split; [|lia]. apply path_root, lookup_empty.
Qed.

End forest.

(** ** Outcomes *)

Lemma res_spec_bind {A B} (M : Prop) (P : A → Prop) (Q : B → Prop)
    (r : result A) (k : A → result B) :
  res_spec M P r → (∀ a, P a → res_spec M Q (k a)) → res_spec M Q (r ≫= k).
Proof. destruct r; simpl; auto. Qed.

Lemma res_spec_mono {A} (M M' : Prop) (P Q : A → Prop) (r : result A) :
  res_spec M P r → (M → M') → (∀ a, P a → Q a) → res_spec M' Q r.
Proof. destruct r; simpl; auto. Qed.

Lemma res_spec_ok {A} (P : A → Prop) (r : result A) :
  res_spec False P r → ∃ a, r = Ok a ∧ P a.
Proof. destruct r; simpl; [eauto|done..]. Qed.

(** ** Calls on the environment *)

Lemma _find_spec key env :
  env_wf env →
  ∃ root env',
    _find key env = Ok (root, env')
    ∧ env_wf env' ∧ _map env' = _map env ∧ _counter env' = _counter env
    ∧ dom (_parent env') = dom (_parent env)
    ∧ _parent env' !! root = None.
Proof.
  intros Hwf. unfold _find.
  destruct (find_loop_wf (_parent env) key Hwf)
    as (root & parent' & -> & Hwf' & Hdom & Hroot).
  by eexists _, _.
Qed.

Lemma _union_spec a b env :
  env_wf env →
  ∃ env', _union a b env = Ok env'
          ∧ env_wf env' ∧ _map env' = _map env
          ∧ _counter env' = _counter env.
Proof.
  intros Hwf. unfold _union.
  destruct (_find_spec a env Hwf)
    as (ra & env1 & -> & Hwf1 & Hm1 & Hc1 & Hd1 & Hra).
  destruct (_find_spec b env1 Hwf1)
    as (rb & env2 & Hf2 & Hwf2 & Hm2 & Hc2 & Hd2 & Hrb).
  simpl. rewrite Hf2. simpl. case_bool_decide as Hne.
  - eexists. split; [done|]. simpl. split; [|split; congruence].
    apply union_wf; try done.
    apply not_elem_of_dom. rewrite Hd2. by apply not_elem_of_dom.
  - eexists. split; [done|]. split; [done|]. split; congruence.
Qed.

Lemma assign_parent root col_name env :
  _parent (assign root col_name env).2 = _parent env.
Proof.
  unfold assign. destruct (_map env !! root); [done|].
  by case_bool_decide.
Qed.

Lemma assign_wf root col_name env :
  env_wf env → env_wf (assign root col_name env).2.
Proof. unfold env_wf. by rewrite assign_parent. Qed.

Lemma get_var_spec col env :
  env_wf env →
  ∃ root env1,
    get_var col env = Ok (assign root (Ast.name col) env1)
    ∧ _find (qualified col) env = Ok (root, env1)
    ∧ env_wf env1 ∧ _map env1 = _map env ∧ _counter env1 = _counter env.
Proof.
  intros Hwf. unfold get_var.
  destruct (_find_spec (qualified col) env Hwf)
    as (root & env1 & -> & Hwf1 & Hm1 & Hc1 & _ & _).
  by exists root, env1.
Qed.

Lemma unify_spec col_a col_b env :
  env_wf env →
  ∃ root env1,
    unify col_a col_b env = Ok (assign root (Ast.name col_a) env1)
    ∧ env_wf env1 ∧ _map env1 = _map env ∧ _counter env1 = _counter env.
Proof.
  intros Hwf. unfold unify.
  destruct (_union_spec (qualified col_a) (qualified col_b) env Hwf)
    as (env0 & -> & Hwf0 & Hm0 & Hc0).
  destruct (_find_spec (qualified col_a) env0 Hwf0)
    as (root & env1 & Hf & Hwf1 & Hm1 & Hc1 & _ & _).
  simpl. rewrite Hf. simpl.
  exists root, env1. split; [done|]. split; [done|]. split; congruence.
Qed.

Lemma get_var_ok col env :
  env_wf env → res_spec False (λ x, env_wf x.2) (get_var col env).
Proof.
  intros Hwf. destruct (get_var_spec col env Hwf)
    as (root & env1 & -> & _ & Hwf1 & _). simpl. by apply assign_wf.
Qed.

Lemma unify_ok col_a col_b env :
  env_wf env → res_spec False (λ x, env_wf x.2) (unify col_a col_b env).
Proof.
  intros Hwf. destruct (unify_spec col_a col_b env Hwf)
    as (root & env1 & -> & Hwf1 & _). simpl. by apply assign_wf.
Qed.

Lemma lookup_ok col env :
  env_wf env → res_spec False (λ x, env_wf x.2) (lookup col env).
Proof.
  intros Hwf. unfold lookup.
  destruct (_find_spec (qualified col) env Hwf)
    as (root & env1 & -> & Hwf1 & _). done.
Qed.

(** ** Values and expressions *)

Lemma Value_nested_ind (P : Value → Prop) :
  P VNone → (∀ b, P (VBool b)) → (∀ n, P (VInt n)) →
  (∀ r, P (VFloat r)) → (∀ s, P (VStr s)) →
  (∀ items, Forall P items → P (VList items)) →
  (∀ ms, P (VTimestamp ms)) → (∀ t, P (VOther t)) →
  ∀ v, P v.
Proof.
  intros HN HB HI HF HS HL HT HO. fix IH 1.
  intros [|b|n|r|s|items|ms|t];
    [apply HN|apply HB|apply HI|apply HF|apply HS| |apply HT|apply HO].
  apply HL. induction items as [|v items IHitems]; constructor;
    [apply IH|apply IHitems].
Qed.

Lemma Expr_nested_ind (P : Expr → Prop) :
  (∀ c, P (EColumn c)) → (∀ v, P (Literal v)) →
  (∀ op l r, P l → P r → P (Arithmetic op l r)) →
  (∀ n args, Forall P args → P (FuncCall n args)) →
  (∀ f c ps pt oc d,
     (∀ x, c = Some x → P x) → Forall P pt → (∀ x, oc = Some x → P x) →
     P (AggExpr f c ps pt oc d)) →
  (∀ c d, P c → P (OrderedColumn c d)) →
  ∀ e, P e.
Proof.
  intros HC HL HA HF HG HO. fix IH 1.
  intros [c|v|op l r|n args|f c ps pt oc d|c d].
  - apply HC.
  - apply HL.
  - apply HA; apply IH.
  - apply HF. induction args as [|a args IHargs]; constructor;
      [apply IH|apply IHargs].
  - apply HG.
    + destruct c as [c'|]; intros x Hx; [|discriminate Hx].
      injection Hx as <-. apply IH.
    + induction pt as [|a pt IHpt]; constructor; [apply IH|apply IHpt].
    + destruct oc as [oc'|]; intros x Hx; [|discriminate Hx].
      injection Hx as <-. apply IH.
  - apply HO. apply IH.
Qed.

Lemma compile_value_spec (v : Value) :
  res_spec (supported v = false) (λ _, True) (compile_value v).
Proof.
  induction v as [|b|n|r|s|items IH|ms|t] using Value_nested_ind;
    try done.
  simpl. apply res_spec_bind with (P := λ _, True); [|done].
  induction IH as [|v items Hv _ IHitems]; simpl; [done|].
  apply res_spec_bind with (P := λ _, True).
  - eapply res_spec_mono; [apply Hv| |done].
    intros Hs. by rewrite Hs.
  - intros s0 _. apply res_spec_bind with (P := λ _, True); [|done].
    eapply res_spec_mono; [apply IHitems| |done].
    intros Hs. rewrite Hs. apply andb_false_r.
Qed.

Lemma compile_values_spec (l : list Value) :
  res_spec (forallb supported l = false) (λ _, True) (compile_values l).
Proof.
  induction l as [|v l IH]; simpl; [done|].
  apply res_spec_bind with (P := λ _, True).
  - eapply res_spec_mono; [apply compile_value_spec| |done].
    intros Hs. by rewrite Hs.
  - intros s0 _. apply res_spec_bind with (P := λ _, True); [|done].
    eapply res_spec_mono; [apply IH| |done].
    intros Hs. rewrite Hs. apply andb_false_r.
Qed.

(** A loop over the environment inherits the specification of its body. *)
Lemma for_env_spec {A B} (f : A → _VarEnv → result (B * _VarEnv))
    (ok : A → bool) (xs : list A) (env : _VarEnv) :
  Forall (λ x, ∀ env, env_wf env →
                 res_spec (ok x = false) (λ r, env_wf r.2) (f x env)) xs →
  env_wf env →
  res_spec (forallb ok xs = false) (λ r, env_wf r.2) (for_env f xs env).
Proof.
  intros H. revert env.
  induction H as [|x xs Hx _ IH]; intros env Hwf; simpl; [done|].
  eapply res_spec_bind.
  - eapply res_spec_mono; [by apply Hx| |done]. intros Hs. by rewrite Hs.
  - intros [b env1] Hwf1. eapply res_spec_bind.
    + eapply res_spec_mono; [by apply IH| |done].
      intros Hs. rewrite Hs. apply andb_false_r.
    + by intros [bs env2] Hwf2.
Qed.

Lemma compile_exprs_for_env (l : list Expr) (env : _VarEnv) :
  compile_exprs l env = for_env compile_expr l env.
Proof.
  revert env. induction l as [|e l IH]; intros env; simpl; [done|].
  destruct (compile_expr e env) as [[s env1]| |]; simpl; [|done..].
  by rewrite IH.
Qed.

Lemma compile_expr_FuncCall name args env :
  compile_expr (FuncCall name args) env
  = '(args, env) ← compile_exprs args env;
    Ok (name +:+ "(" +:+ join ", " args +:+ ")", env).
Proof. reflexivity. Qed.

Lemma compile_expr_AggExpr func column params passthrough order_column desc
    env :
  compile_expr (AggExpr func column params passthrough order_column desc) env
  = ps ← compile_values params;
    '(pts, env) ← compile_exprs passthrough env;
    '(last, env) ←
      match order_column with
      | Some oc =>
          '(order_var, env) ← compile_expr oc env;
          Ok ([order_var +:+ (if desc then ":desc" else ":asc")], env)
      | None =>
          match column with
          | Some c => '(v, env) ← compile_expr c env; Ok ([v], env)
          | None => Ok ([], env)
          end
      end;
    Ok (func +:+ "<" +:+ join ", " (ps ++ pts ++ last) +:+ ">", env).
Proof. reflexivity. Qed.

Lemma compile_expr_spec (e : Expr) (env : _VarEnv) :
  env_wf env →
  res_spec (expr_ok e = false) (λ r, env_wf r.2) (compile_expr e env).
Proof.
  revert env.
  induction e as [c|v|op l r IHl IHr|n args IH|f c ps pt oc d IHc IHpt IHoc
                 |c d IHc] using Expr_nested_ind; intros env Hwf.
  - eapply res_spec_mono; [by apply get_var_ok|done|done].
  - simpl. eapply res_spec_bind; [apply compile_value_spec|]. by intros s _.
  - simpl. eapply res_spec_bind.
    { eapply res_spec_mono; [by apply IHl| |done]. intros Hs. by rewrite Hs. }
    intros [l' env1] Hwf1. eapply res_spec_bind.
    { eapply res_spec_mono; [by apply IHr| |done].
      intros Hs. rewrite Hs. apply andb_false_r. }
    by intros [r' env2] Hwf2.
  - rewrite compile_expr_FuncCall, compile_exprs_for_env.
    eapply res_spec_bind; [by apply (for_env_spec compile_expr expr_ok)|].
    by intros [ss env1] Hwf1.
  - rewrite compile_expr_AggExpr, compile_exprs_for_env. simpl expr_ok.
    eapply res_spec_bind with (P := λ _, True).
    { eapply res_spec_mono; [apply compile_values_spec| |done].
      intros Hs. by rewrite Hs. }
    intros ps' _. eapply res_spec_bind.
    { eapply res_spec_mono;
        [by apply (for_env_spec compile_expr expr_ok)| |done].
      intros Hs. rewrite Hs. by rewrite andb_false_r. }
    intros [pts env1] Hwf1. eapply res_spec_bind with (P := λ r, env_wf r.2).
    2:{ by intros [last env2] Hwf2. }
    destruct oc as [oc'|].
    + eapply res_spec_bind.
      { eapply res_spec_mono; [by apply (IHoc oc')| |done].
        intros Hs. rewrite Hs. apply andb_false_r. }
      by intros [ov env2] Hwf2.
    + destruct c as [c'|]; [|done].
      eapply res_spec_bind.
      { eapply res_spec_mono; [by apply (IHc c')| |done].
        intros Hs. rewrite Hs. apply andb_false_r. }
      by intros [cv env2] Hwf2.
  - simpl. eapply res_spec_bind; [by apply IHc|].
    by intros [v env1] Hwf1.
Qed.

(** ** Conditions *)

Lemma compilable_And l r : compilable (And l r) = compilable l && compilable r.
Proof.
  unfold compilable. simpl.
  by destruct (_has_or l), (_has_or r), (well_formed l), (well_formed r).
Qed.

Lemma compilable_iff b :
  compilable b = true ↔ _has_or b = false ∧ well_formed b = true.
Proof.
  unfold compilable. rewrite andb_true_iff, negb_true_iff. done.
Qed.

Lemma compile_operands_spec op l r env :
  env_wf env →
  res_spec (expr_ok l && expr_ok r = false) (λ x, env_wf x.2)
    ('(l', env) ← compile_expr l env;
     '(r', env) ← compile_expr r env;
     Ok (l' +:+ " " +:+ op +:+ " " +:+ r', env)).
Proof.
  intros Hwf. eapply res_spec_bind.
  { eapply res_spec_mono; [by apply compile_expr_spec| |done].
    intros Hs. by rewrite Hs. }
  intros [l' env1] Hwf1. eapply res_spec_bind.
  { eapply res_spec_mono; [by apply compile_expr_spec| |done].
    intros Hs. rewrite Hs. apply andb_false_r. }
  by intros [r' env2] Hwf2.
Qed.

Lemma _compile_comparison_spec op l r env :
  env_wf env →
  res_spec (expr_ok l && expr_ok r = false) (λ x, env_wf x.2)
    (_compile_comparison op l r env).
Proof.
  intros Hwf. unfold _compile_comparison.
  destruct l as [a| | | | |]; try by apply compile_operands_spec.
  destruct r as [b| | | | |]; try by apply compile_operands_spec.
  case_bool_decide; [|by apply compile_operands_spec].
  eapply res_spec_bind.
  { eapply res_spec_mono; [by apply unify_ok|done|done]. }
  by intros [v env1] Hwf1.
Qed.

Lemma _compile_in_spec c t negated env :
  env_wf env →
  res_spec (is_column c && is_column t = false) (λ x, env_wf x.2)
    (_compile_in c t negated env).
Proof.
  intros Hwf. unfold _compile_in.
  eapply res_spec_bind with (P := λ x, env_wf x.2).
  { eapply res_spec_mono; [by apply compile_expr_spec| |done].
    intros Hs. by destruct c. }
  intros [src env1] Hwf1.
  destruct t as [tc| | | | |]; simpl; try apply andb_false_r.
  eapply res_spec_bind.
  { eapply res_spec_mono; [by apply get_var_ok|done|done]. }
  intros [tv env2] Hwf2.
  destruct c as [sc| | | | |]; simpl; try done.
  eapply res_spec_bind.
  { eapply res_spec_mono; [by apply unify_ok|done|done]. }
  intros [uv env3] Hwf3. eapply res_spec_bind.
  { eapply res_spec_mono; [by apply get_var_ok|done|done]. }
  by intros [tv' env4] Hwf4.
Qed.

Lemma _compile_match_spec relation bindings negated env :
  env_wf env →
  res_spec (forallb expr_ok (bindings.*2) = false) (λ x, env_wf x.2)
    (_compile_match relation bindings negated env).
Proof.
  intros Hwf. unfold _compile_match. rewrite compile_exprs_for_env.
  eapply res_spec_bind.
  { apply (for_env_spec compile_expr expr_ok); [|done].
    apply Forall_forall. intros e _ env0. apply compile_expr_spec. }
  by intros [parts env1] Hwf1.
Qed.

Lemma compile_bool_expr_spec (b : BoolExpr) (env : _VarEnv) :
  env_wf env →
  res_spec (compilable b = false) (λ x, env_wf x.2) (compile_bool_expr b env).
Proof.
  revert env.
  induction b as [op l r|l IHl r IHr|l IHl r IHr|o IHo|c t|c t|rel bs neg];
    intros env Hwf; simpl.
  - eapply res_spec_bind; [by apply _compile_comparison_spec|].
    by intros [s env1] Hwf1.
  - rewrite compilable_And. eapply res_spec_bind.
    { eapply res_spec_mono; [by apply IHl| |done]. intros Hs. by rewrite Hs. }
    intros [l' env1] Hwf1. eapply res_spec_bind.
    { eapply res_spec_mono; [by apply IHr| |done].
      intros Hs. rewrite Hs. apply andb_false_r. }
    by intros [r' env2] Hwf2.
  - done.
  - eapply res_spec_bind; [by apply IHo|]. by intros [s env1] Hwf1.
  - eapply res_spec_bind; [by apply _compile_in_spec|].
    by intros [s env1] Hwf1.
  - eapply res_spec_bind; [by apply _compile_in_spec|].
    by intros [s env1] Hwf1.
  - eapply res_spec_bind; [by apply _compile_match_spec|].
    by intros [s env1] Hwf1.
Qed.

Lemma compile_bool_expr_or_raises (b : BoolExpr) (env : _VarEnv) :
  env_wf env → _has_or b = true → raises (compile_bool_expr b env).
Proof.
  revert env.
  induction b as [op l r|l IHl r IHr|l IHl r IHr|o IHo|c t|c t|rel bs neg];
    intros env Hwf Hor; simpl in *; try discriminate Hor; [| done |].
  - pose proof (compile_bool_expr_spec l env Hwf) as Hl.
    destruct (compile_bool_expr l env) as [[l' env1]| |] eqn:El; simpl in *;
      [|done..].
    apply orb_true_iff in Hor as [Hor|Hor].
    + specialize (IHl env Hwf Hor). by rewrite El in IHl.
    + specialize (IHr env1 Hl Hor).
      by destruct (compile_bool_expr r env1) as [[r' env2]| |].
  - specialize (IHo env Hwf Hor).
    by destruct (compile_bool_expr o env) as [[o' env1]| |].
Qed.

Lemma or_leaves_length b : length (or_leaves b) = S (root_ors b).
Proof.
  induction b; simpl; try done. rewrite length_app. lia.
Qed.

Lemma compile_or_branches_leaf b env :
  (∀ l r, b ≠ Or l r) →
  compile_or_branches b env
  = '(p, env) ← compile_bool_expr b env; Ok ([p], env).
Proof. destruct b; intros H; try done. by destruct (H b1 b2). Qed.

Lemma compile_or_branches_spec (b : BoolExpr) (env : _VarEnv) :
  env_wf env →
  res_spec (forallb compilable (or_leaves b) = false)
    (λ x, length x.1 = S (root_ors b) ∧ env_wf x.2)
    (compile_or_branches b env).
Proof.
  revert env.
  assert (∀ b env, (∀ l r, b ≠ Or l r) → env_wf env →
            res_spec (compilable b && true = false)
              (λ x, length x.1 = 1 ∧ env_wf x.2)
              (compile_or_branches b env)) as Hleaf.
  { intros b0 env Hb Hwf. rewrite compile_or_branches_leaf by done.
    eapply res_spec_bind.
    { eapply res_spec_mono; [by apply compile_bool_expr_spec| |done].
      intros Hs. by rewrite Hs. }
    by intros [p env1] Hwf1. }
  induction b as [op l r|l IHl r IHr|l IHl r IHr|o IHo|c t|c t|rel bs neg];
    intros env Hwf; try (by apply Hleaf).
  simpl. rewrite forallb_app. eapply res_spec_bind.
  { eapply res_spec_mono; [by apply IHl| |done]. intros Hs. by rewrite Hs. }
  intros [lb env1] [Hlen1 Hwf1]. eapply res_spec_bind.
  { eapply res_spec_mono; [by apply IHr| |done].
    intros Hs. rewrite Hs. apply andb_false_r. }
  intros [rb env2] [Hlen2 Hwf2]. simpl in *.
  split; [|done]. rewrite length_app. lia.
Qed.

Lemma compile_or_branches_nested_or_raises (b : BoolExpr) (env : _VarEnv) :
  env_wf env → Exists (λ leaf, _has_or leaf = true) (or_leaves b) →
  raises (compile_or_branches b env).
Proof.
  revert env.
  assert (∀ b env, (∀ l r, b ≠ Or l r) → env_wf env →
            Exists (λ leaf, _has_or leaf = true) [b] →
            raises (compile_or_branches b env)) as Hleaf.
  { intros b0 env Hb Hwf Hex. rewrite compile_or_branches_leaf by done.
    apply Exists_cons in Hex as [Hor|Hex]; [|by apply Exists_nil in Hex].
    pose proof (compile_bool_expr_or_raises b0 env Hwf Hor) as Hr.
    by destruct (compile_bool_expr b0 env) as [[p env1]| |]. }
  induction b as [op l r|l IHl r IHr|l IHl r IHr|o IHo|c t|c t|rel bs neg];
    intros env Hwf Hex; try (by apply Hleaf).
  simpl in *. apply Exists_app in Hex.
  pose proof (compile_or_branches_spec l env Hwf) as Hl.
  destruct (compile_or_branches l env) as [[lb env1]| |] eqn:El; simpl in *;
    [|done..].
  destruct Hl as [_ Hwf1]. destruct Hex as [Hex|Hex].
  - specialize (IHl env Hwf Hex). by rewrite El in IHl.
  - specialize (IHr env1 Hwf1 Hex).
    by destruct (compile_or_branches r env1) as [[rb env2]| |].
Qed.

(** C2 as stated fails: a condition with two [Or] nodes at its root splits
    into three branches, which is not a power of two. *)
Lemma three_branches_not_power_of_two :
  ∃ branches env,
    compile_or_branches
      (Or (Or (Examples.dept "eng") (Examples.dept "sales"))
          (Examples.dept "ops")) VarEnv.new
    = Ok (branches, env)
    ∧ length branches = 3
    ∧ root_ors (Or (Or (Examples.dept "eng") (Examples.dept "sales"))
                   (Examples.dept "ops")) = 2
    ∧ ∀ k : nat, 2 ^ k ≠ length branches.
Proof.
  eexists _, _. split; [by vm_compute|]. split; [done|]. split; [done|].
  simpl. intros [|[|k]]; simpl; lia.
Qed.

(** C2, amended.  In a well-formed environment: a well-formed condition
    without an [Or] node compiles to a list of body literals; a condition
    with an [Or] node anywhere makes [compile_bool_expr] raise;
    [compile_or_branches] returns one branch per leaf of the tree of [Or]
    nodes at the root, that is [k + 1] branches for [k] such nodes, when
    every leaf is well formed and free of [Or], and raises when an [Or] is
    left below a leaf. *)
Theorem or_splitting (B : BoolExpr) (env : _VarEnv) :
  env_wf env →
  (_has_or B = false → well_formed B = true →
     ∃ literals env',
       compile_bool_expr B env = Ok (literals, env') ∧ env_wf env')
  ∧ (_has_or B = true → raises (compile_bool_expr B env))
  ∧ (Forall (λ leaf, _has_or leaf = false ∧ well_formed leaf = true)
            (or_leaves B) →
     ∃ branches env',
       compile_or_branches B env = Ok (branches, env')
       ∧ length branches = S (root_ors B) ∧ env_wf env')
  ∧ (Exists (λ leaf, _has_or leaf = true) (or_leaves B) →
     raises (compile_or_branches B env)).
Proof.
  intros Hwf. repeat split.
  - intros Hor Hwell.
    assert (res_spec False (λ x, env_wf x.2) (compile_bool_expr B env)) as H.
    { eapply res_spec_mono; [by apply compile_bool_expr_spec| |done].
      intros Hc. assert (compilable B = true) by by apply compilable_iff.
      congruence. }
    destruct (res_spec_ok _ _ H) as ([lits env'] & -> & Hwf'). eauto.
  - by apply compile_bool_expr_or_raises.
  - intros Hleaves.
    assert (res_spec False (λ x, length x.1 = S (root_ors B) ∧ env_wf x.2)
              (compile_or_branches B env)) as H.
    { eapply res_spec_mono; [by apply compile_or_branches_spec| |done].
      intros Hc.
      assert (forallb compilable (or_leaves B) = true); [|congruence].
      apply forallb_forall. intros leaf Hin.
      apply compilable_iff.
      rewrite Forall_forall in Hleaves. apply Hleaves.
      by apply list_elem_of_In. }
    destruct (res_spec_ok _ _ H) as ([bs env'] & -> & Hlen & Hwf'). eauto.
  - by apply compile_or_branches_nested_or_raises.
Qed.

Lemma or_splitting_witness :
  ∃ branches env',
    compile_or_branches (Or (Examples.dept "eng") (Examples.dept "sales"))
      VarEnv.new
    = Ok (branches, env')
    ∧ length branches = 2 ∧ env_wf env'.
Proof.
  apply (or_splitting (Or (Examples.dept "eng") (Examples.dept "sales"))
           VarEnv.new parent_wf_empty).
  repeat constructor.
Defined.

(** ** Variable names *)

Lemma app_cons a s t : String a s +:+ t = String a (s +:+ t).
Proof. reflexivity. Qed.

Lemma has_us_app s t : has_us (s +:+ t) = has_us s || has_us t.
Proof.
  induction s as [|a s IH]; [done|].
  rewrite app_cons. simpl. rewrite IH. by rewrite orb_assoc.
Qed.

Lemma has_us_rev_app s t : has_us (String.rev_app s t) = has_us s || has_us t.
Proof.
  revert t. induction s as [|a s IH]; intros t; simpl; [done|].
  rewrite IH. simpl. by destruct (Ascii.eqb a "_"), (has_us s), (has_us t).
Qed.

Lemma has_us_rev s : has_us (String.rev s) = has_us s.
Proof. unfold String.rev. rewrite has_us_rev_app. apply orb_false_r. Qed.

Lemma upper_not_us c : Ascii.eqb c "_" = false → Ascii.eqb (upper c) "_" = false.
Proof. by destruct c as [[] [] [] [] [] [] [] []]. Qed.

Lemma lower_not_us c : Ascii.eqb c "_" = false → Ascii.eqb (lower c) "_" = false.
Proof. by destruct c as [[] [] [] [] [] [] [] []]. Qed.

Lemma has_us_lower_str s : has_us s = false → has_us (lower_str s) = false.
Proof.
  induction s as [|a s IH]; simpl; [done|].
  intros [Ha Hs]%orb_false_iff. by rewrite lower_not_us, IH.
Qed.

Lemma has_us_capitalize s : has_us s = false → has_us (capitalize s) = false.
Proof.
  destruct s as [|a s]; simpl; [done|].
  intros [Ha Hs]%orb_false_iff. by rewrite upper_not_us, has_us_lower_str.
Qed.

Lemma split_us_no_us cur s :
  has_us cur = false → Forall (λ part, has_us part = false) (split_us cur s).
Proof.
  revert cur. induction s as [|a s IH]; intros cur Hcur; simpl.
  - constructor; [|done]. by rewrite has_us_rev.
  - destruct (Ascii.eqb a "_") eqn:Ha.
    + constructor; [by rewrite has_us_rev|]. by apply IH.
    + apply IH. simpl. by rewrite Ha.
Qed.

(** A variable name derived from a column name has no underscore. *)
Lemma column_to_variable_no_us column_name :
  has_us (column_to_variable column_name) = false.
Proof.
  unfold column_to_variable, snake_to_camel.
  pose proof (split_us_no_us "" column_name eq_refl) as H.
  induction H as [|part parts Hp _ IH]; simpl; [done|].
  by rewrite has_us_app, has_us_capitalize, IH.
Qed.

Lemma has_us_suffixed base s : has_us (base +:+ "_" +:+ s) = true.
Proof. rewrite has_us_app. simpl. apply orb_true_r. Qed.

(** A suffixed name splits at its first underscore in one way only. *)
Lemma suffixed_inj b1 b2 s1 s2 :
  has_us b1 = false → has_us b2 = false →
  b1 +:+ "_" +:+ s1 = b2 +:+ "_" +:+ s2 → b1 = b2 ∧ s1 = s2.
Proof.
  revert b2. induction b1 as [|a b1 IH]; intros [|a' b2] H1 H2 Heq.
  - by injection Heq.
  - rewrite app_cons in Heq. injection Heq as <- _.
    simpl in H2. discriminate H2.
  - rewrite app_cons in Heq. injection Heq as -> _.
    simpl in H1. discriminate H1.
  - rewrite !app_cons in Heq. injection Heq as -> Heq.
    simpl in H1, H2.
    apply orb_false_iff in H1 as [_ H1]. apply orb_false_iff in H2 as [_ H2].
    destruct (IH b2 H1 H2 Heq) as [-> ->]. done.
Qed.

Lemma elem_of_used_vars v env :
  v ∈ used_vars env ↔ ∃ k, _map env !! k = Some v.
Proof.
  unfold used_vars. rewrite list_elem_of_fmap. split.
  - intros ([k v'] & -> & Hin). exists k. by apply elem_of_map_to_list.
  - intros [k Hk]. exists (k, v). split; [done|]. by apply elem_of_map_to_list.
Qed.

Lemma names_inv_ext env env' :
  _map env' = _map env → _counter env' = _counter env →
  names_inv env → names_inv env'.
Proof. unfold names_inv. intros -> ->. done. Qed.

Lemma fresh_name_ext env env' col_name :
  _map env' = _map env → _counter env' = _counter env →
  fresh_name col_name env' = fresh_name col_name env.
Proof. unfold fresh_name, used_vars. intros -> ->. done. Qed.

(** The name given to an unnamed root is not in use. *)
Lemma fresh_name_not_used col_name env :
  names_inv env → fresh_name col_name env ∉ used_vars env.
Proof.
  intros [_ Hshape]. unfold fresh_name. case_bool_decide as Hused; [|done].
  rewrite elem_of_used_vars. intros [k Hk].
  destruct (Hshape _ _ Hk) as [Hno|(base & n & Heq & Hbase & Hn)].
  - by rewrite has_us_suffixed in Hno.
  - apply suffixed_inj in Heq as [_ Heq];
      [|apply column_to_variable_no_us|done].
    apply (inj pretty) in Heq. lia.
Qed.

Lemma assign_unnamed root col_name env :
  _map env !! root = None →
  assign root col_name env
  = (fresh_name col_name env,
     {| _map := <[root := fresh_name col_name env]> (_map env);
        _counter := if bool_decide (column_to_variable col_name
                                      ∈ used_vars env)
                    then S (_counter env) else _counter env;
        _parent := _parent env |}).
Proof.
  intros Hr. unfold assign, fresh_name. rewrite Hr. by case_bool_decide.
Qed.

Lemma assign_named root col_name env v :
  _map env !! root = Some v → assign root col_name env = (v, env).
Proof. intros Hr. unfold assign. by rewrite Hr. Qed.

Lemma assign_names root col_name env :
  names_inv env → names_inv (assign root col_name env).2.
Proof.
  intros Hinv. destruct (_map env !! root) as [v|] eqn:Hr.
  { by rewrite (assign_named _ _ _ v). }
  rewrite assign_unnamed by done. simpl.
  pose proof (fresh_name_not_used col_name env Hinv) as Hfresh.
  rewrite elem_of_used_vars in Hfresh.
  destruct Hinv as [Hinj Hshape]. split; simpl.
  - intros k1 k2 v [[-> <-]|[Hk1 H1]]%lookup_insert_Some
                   [[-> Hv]|[Hk2 H2]]%lookup_insert_Some; try done.
    + destruct Hfresh. eauto.
    + subst v. destruct Hfresh. eauto.
    + by eapply Hinj.
  - intros k v [[-> <-]|[Hk H1]]%lookup_insert_Some.
    + unfold fresh_name. case_bool_decide.
      * right. eexists _, _. split; [done|].
        split; [apply column_to_variable_no_us|lia].
      * left. apply column_to_variable_no_us.
    + destruct (Hshape _ _ H1) as [Hno|(base & n & Heq & Hbase & Hn)];
        [by left|].
      right. exists base, n. split; [done|]. split; [done|].
      case_bool_decide; lia.
Qed.

Lemma env_inv_new : env_inv VarEnv.new.
Proof.
  split; [apply parent_wf_empty|]. split; simpl.
  - intros k1 k2 v H. by rewrite lookup_empty in H.
  - intros k v H. by rewrite lookup_empty in H.
Qed.

Lemma run_op_inv op env :
  env_inv env → ∃ env', run_op op env = Ok env' ∧ env_inv env'.
Proof.
  intros [Hwf Hnames]. destruct op as [col|col_a col_b]; simpl.
  - destruct (get_var_spec col env Hwf)
      as (root & env1 & -> & _ & Hwf1 & Hm & Hc).
    eexists. split; [done|]. split; [by apply assign_wf|].
    apply assign_names. by eapply names_inv_ext.
  - destruct (unify_spec col_a col_b env Hwf)
      as (root & env1 & -> & Hwf1 & Hm & Hc).
    eexists. split; [done|]. split; [by apply assign_wf|].
    apply assign_names. by eapply names_inv_ext.
Qed.

Lemma run_ops_inv ops env :
  env_inv env → ∃ env', run_ops ops env = Ok env' ∧ env_inv env'.
Proof.
  revert env. induction ops as [|op ops IH]; intros env Hinv; simpl; [eauto|].
  destruct (run_op_inv op env Hinv) as (env1 & -> & Hinv1). simpl.
  by apply IH.
Qed.

(** C6.  After any run of [get_var] and [unify] calls on a fresh
    environment (the run always completes), two distinct keys never carry
    the same variable name; and for every column, [get_var] either returns
    the name its root already has, or names the root with
    [fresh_name]: the capitalized column name, followed by [_N] for the next
    counter value [N] when that name is already in use, a name that
    differs from every name in use.  The outcome is a function of the
    sequence of calls. *)
Theorem distinct_roots_distinct_names (ops : list env_op) :
  ∃ env,
    run_ops ops VarEnv.new = Ok env
    ∧ (∀ r1 r2 v1 v2,
         r1 ≠ r2 → _map env !! r1 = Some v1 → _map env !! r2 = Some v2 →
         v1 ≠ v2)
    ∧ ∀ col, ∃ root env1,
        _find (qualified col) env = Ok (root, env1)
        ∧ match _map env !! root with
          | Some v => get_var col env = Ok (v, env1)
          | None =>
              ∃ env',
                get_var col env = Ok (fresh_name (Ast.name col) env, env')
                ∧ _map env' = <[root := fresh_name (Ast.name col) env]>
                                (_map env)
                ∧ _counter env'
                  = (if bool_decide (column_to_variable (Ast.name col)
                                       ∈ used_vars env)
                     then S (_counter env) else _counter env)
                ∧ fresh_name (Ast.name col) env ∉ used_vars env
          end.
Proof.
  destruct (run_ops_inv ops VarEnv.new env_inv_new) as (env & Hrun & Hwf & Hn).
  exists env. split; [done|]. split.
  - intros r1 r2 v1 v2 Hne H1 H2 <-. apply Hne. by eapply (proj1 Hn).
  - intros col.
    destruct (get_var_spec col env Hwf)
      as (root & env1 & Hget & Hfind & Hwf1 & Hm & Hc).
    exists root, env1. split; [done|].
    destruct (_map env !! root) as [v|] eqn:Hr.
    + rewrite Hget. f_equal. apply assign_named. by rewrite Hm.
    + rewrite Hget, assign_unnamed by (by rewrite Hm).
      rewrite (fresh_name_ext env env1) by done.
      eexists. split; [done|]. simpl. rewrite Hm, Hc.
      unfold used_vars. rewrite Hm.
      split; [done|]. split; [done|]. by apply fresh_name_not_used.
Qed.

(** ** Queries *)

Lemma for_env_res {A B} (M : Prop) (f : A → _VarEnv → result (B * _VarEnv))
    (xs : list A) (env : _VarEnv) :
  (∀ x env, env_wf env → res_spec M (λ r, env_wf r.2) (f x env)) →
  env_wf env → res_spec M (λ r, env_wf r.2) (for_env f xs env).
Proof.
  intros Hf. revert env.
  induction xs as [|x xs IH]; intros env Hwf; simpl; [done|].
  eapply res_spec_bind; [by apply Hf|].
  intros [b env1] Hwf1. eapply res_spec_bind; [by apply IH|].
  by intros [bs env2] Hwf2.
Qed.

Lemma weaken {A} (M : Prop) (P : A → Prop) (r : result A) :
  res_spec False P r → res_spec M P r.
Proof. intros H. by eapply res_spec_mono. Qed.

Lemma safe_of {A} (M : Prop) (P : A → Prop) (r : result A) :
  res_spec M P r → res_spec True P r.
Proof. intros H. by eapply res_spec_mono. Qed.

Lemma _process_join_condition_ok c env :
  env_wf env → res_spec False env_wf (_process_join_condition c env).
Proof.
  revert env.
  induction c as [op l r|l IHl r IHr|l IHl r IHr|o IHo|c t|c t|rel bs neg];
    intros env Hwf; simpl; try done.
  - destruct l as [a| | | | |]; try done.
    destruct r as [b| | | | |]; try done.
    case_bool_decide; [|done].
    eapply res_spec_bind; [by apply unify_ok|].
    by intros [v env1] Hwf1.
  - eapply res_spec_bind; [by apply IHl|]. intros env1 Hwf1. by apply IHr.
Qed.

Lemma column_vars_ok rn alias cls env :
  env_wf env →
  res_spec False (λ r, env_wf r.2) (column_vars rn alias cls env).
Proof.
  intros Hwf. apply for_env_res; [|done].
  intros col env0 Hwf0. by apply get_var_ok.
Qed.

Lemma body_atom_ok r env :
  env_wf env → res_spec False (λ x, env_wf x.2) (body_atom r env).
Proof.
  intros Hwf. destruct r as [[rn cls] alias]. simpl.
  eapply res_spec_bind with (P := λ x, env_wf x.2).
  - apply for_env_res; [|done]. intros col env0 Hwf0.
    eapply res_spec_bind; [by apply lookup_ok|].
    by intros [v env1] Hwf1.
  - by intros [parts env1] Hwf1.
Qed.

Lemma body_atoms_ok (M : Prop) rels env :
  env_wf env → res_spec M (λ x, env_wf x.2) (for_env body_atom rels env).
Proof.
  intros Hwf. apply for_env_res; [|done].
  intros r env0 Hwf0. apply weaken. by apply body_atom_ok.
Qed.

Lemma compile_expr_safe e env :
  env_wf env → res_spec True (λ r, env_wf r.2) (compile_expr e env).
Proof. intros Hwf. eapply safe_of. by apply compile_expr_spec. Qed.

Lemma agg_select_safe select env :
  env_wf env → res_spec True (λ r, env_wf r.2) (agg_select select env).
Proof.
  revert env. induction select as [|s select IH]; intros env Hwf; simpl;
    [done|].
  eapply res_spec_bind with (P := λ r, env_wf r.2).
  - destruct s as [cls|e].
    + eapply res_spec_bind; [apply weaken; by apply column_vars_ok|].
      by intros [vs env1] Hwf1.
    + destruct e as [c| | | | |]; try done.
      * eapply res_spec_bind; [apply weaken; by apply get_var_ok|].
        by intros [v env1] Hwf1.
      * eapply res_spec_bind; [by apply compile_expr_safe|].
        by intros [v env1] Hwf1.
  - intros [[hs ags] env1] Hwf1.
    eapply res_spec_bind; [by apply IH|].
    by intros [[hs' ags'] env2] Hwf2.
Qed.

Lemma agg_computed_safe computed env :
  env_wf env → res_spec True (λ r, env_wf r.2) (agg_computed computed env).
Proof.
  revert env. induction computed as [|[k e] computed IH]; intros env Hwf;
    simpl; [done|].
  eapply res_spec_bind; [by apply compile_expr_safe|].
  intros [c env1] Hwf1. eapply res_spec_bind; [by apply IH|].
  intros [[hs' ags'] env2] Hwf2. by destruct (is_agg e).
Qed.

Lemma select_full_ok full all_relations env :
  env_wf env →
  res_spec False (λ r, env_wf r.2) (select_full full all_relations env).
Proof.
  revert all_relations env.
  induction full as [|cls full IH]; intros all_relations env Hwf; simpl;
    [done|].
  eapply res_spec_bind; [by apply column_vars_ok|].
  intros [vs env1] Hwf1. eapply res_spec_bind; [by apply IH|].
  by intros [[vs' rels] env2] Hwf2.
Qed.

Lemma apply_order_by_spec order_by head_parts env :
  env_wf env →
  res_spec (order_ok order_by = false) (λ r, env_wf r.2)
    (apply_order_by order_by head_parts env).
Proof.
  intros Hwf. unfold apply_order_by.
  destruct order_by as [[c| | | | |c d]|]; try done.
  - eapply res_spec_bind; [apply weaken; by apply get_var_ok|].
    by intros [v env1] Hwf1.
  - eapply res_spec_bind; [by apply compile_expr_spec|].
    by intros [v env1] Hwf1.
Qed.

Lemma append_assoc (s t u : string) : (s +:+ t) +:+ u = s +:+ t +:+ u.
Proof.
  induction s as [|a s IH]; [done|]. rewrite !app_cons. by rewrite IH.
Qed.

Lemma join_snoc (sep : string) (parts : list string) (x : string) :
  ends_with (join sep (parts ++ [x])) x.
Proof.
  induction parts as [|p parts IH]; simpl.
  - by exists "".
  - destruct IH as [prefix Hp].
    destruct (parts ++ [x]) as [|y rest] eqn:E.
    { by destruct parts. }
    exists (p +:+ sep +:+ prefix). rewrite Hp. by rewrite !append_assoc.
Qed.

Lemma limit_literal_some n offset :
  limit_literal (Some n) offset = [limit_text n offset].
Proof. by destruct offset. Qed.

Lemma query_text_limited head_str body lim :
  limited head_str lim (query_text head_str (body ++ [lim])).
Proof.
  exists (join ", " (body ++ [lim])). split; [|apply join_snoc].
  unfold query_text. by destruct body.
Qed.

Lemma branch_text_limited head_str body_atoms lim branch_parts :
  limited head_str lim (branch_text head_str body_atoms [lim] branch_parts).
Proof.
  exists (join ", " (body_atoms ++ nonempty branch_parts ++ [lim])).
  split; [done|]. rewrite (app_assoc body_atoms). apply join_snoc.
Qed.

Lemma _compile_agg_query_limit select env all_relations where_parts n offset
    computed :
  env_wf env →
  res_spec True (λ text, ∃ head_str, limited head_str (limit_text n offset) text)
    (_compile_agg_query select env all_relations where_parts (Some n) offset
       computed).
Proof.
  intros Hwf. unfold _compile_agg_query.
  eapply res_spec_bind; [by apply agg_select_safe|].
  intros [[hs1 ags1] env1] Hwf1.
  eapply res_spec_bind; [by apply agg_computed_safe|].
  intros [[hs2 ags2] env2] Hwf2.
  eapply res_spec_bind; [by apply body_atoms_ok|].
  intros [body_atoms env3] Hwf3. cbv zeta.
  rewrite limit_literal_some, (app_assoc body_atoms). cbn [res_spec].
  eexists. apply query_text_limited.
Qed.

(** The non-aggregating path on a split condition: one text per branch,
    all from one head string and one list of body atoms; it can only raise
    on a computed column or an ordering expression it cannot compile. *)
Lemma simple_query_or_spec q env all_relations where_parts branches :
  env_wf env →
  res_spec (forallb expr_ok ((computed q).*2) && order_ok (order_by q) = false)
    (λ out, ∃ head_str body_atoms,
       out = Many (map (branch_text head_str body_atoms
                          (limit_literal (limit q) (offset q))) branches))
    (simple_query q env all_relations where_parts (Some branches)).
Proof.
  intros Hwf. unfold simple_query.
  eapply res_spec_bind; [apply weaken; by apply select_full_ok|].
  intros [[hp1 rels] env1] Hwf1.
  eapply res_spec_bind with (P := λ r, env_wf r.2).
  { apply for_env_res; [|done]. intros c env0 Hwf0.
    apply weaken. by apply get_var_ok. }
  intros [hp2 env2] Hwf2.
  eapply res_spec_bind with (P := λ r, env_wf r.2).
  { eapply res_spec_mono;
      [apply (for_env_spec compile_expr expr_ok); [|done]| |done].
    - apply Forall_forall. intros e _ env0. apply compile_expr_spec.
    - intros Hs. by rewrite Hs. }
  intros [hp3 env3] Hwf3.
  eapply res_spec_bind.
  { eapply res_spec_mono; [by apply apply_order_by_spec| |done].
    intros Hs. rewrite Hs. apply andb_false_r. }
  intros [head_parts env4] Hwf4.
  eapply res_spec_bind; [by apply body_atoms_ok|].
  intros [body_atoms env5] Hwf5. cbv zeta. cbn [res_spec].
  by exists (join ", " head_parts), body_atoms.
Qed.

(** C10.  For a query whose where-condition contains an [Or] node and
    whose limit is configured: [compile_query] never fails to terminate,
    and whenever it returns, every emitted text is [?head <- body] for one
    and the same head string, with a body that ends in the same limit
    literal, [limit(N)] or [limit(N, M)].  When moreover the query does not
    aggregate, the leaves of the tree of [Or] nodes at the root of the
    condition are well formed and free of [Or], and the computed columns
    and the ordering expression are supported, it does return: a list with
    one text per leaf. *)
Theorem or_query_replicates_limit (q : Query) (w : BoolExpr) (n : Z) :
  where_condition q = Some w → _has_or w = true → limit q = Some n →
  res_spec True
    (λ out, ∃ head_str,
       Forall (λ text, ∃ body,
                 text = "?" +:+ head_str +:+ " <- " +:+ body
                 ∧ ends_with body (limit_text n (offset q)))
              (texts out))
    (compile_query q)
  ∧ (aggregating q = false →
     Forall (λ leaf, _has_or leaf = false ∧ well_formed leaf = true)
            (or_leaves w) →
     forallb expr_ok ((computed q).*2) = true →
     order_ok (order_by q) = true →
     ∃ texts, compile_query q = Ok (Many texts)
              ∧ length texts = S (root_ors w)).
Proof.
  intros Hw Hor Hlim. split.
  - unfold compile_query. rewrite Hw, Hor.
    eapply res_spec_bind with (P := env_wf).
    { apply weaken.
      destruct (on_condition q) as [c|]; [|apply parent_wf_empty].
      apply _process_join_condition_ok, parent_wf_empty. }
    intros env Hwf.
    eapply res_spec_bind
      with (P := λ r, r.1.1 = [] ∧ is_Some r.1.2 ∧ env_wf r.2).
    { eapply res_spec_bind.
      { eapply safe_of. by apply compile_or_branches_spec. }
      intros [bs env1] [_ Hwf1]. simpl. eauto. }
    intros [[where_parts or_branches] env1]. simpl.
    intros (-> & [bs ->] & Hwf1).
    destruct (_ || _).
    + rewrite Hlim.
      pose proof (_compile_agg_query_limit (select q) env1
                    (all_relations_of (Compiler.relations q)) [] n (offset q)
                    (computed q) Hwf1) as H.
      destruct (_compile_agg_query _ _ _ _ _ _ _) as [text| |]; simpl in *;
        [|done..].
      destruct H as [head_str H]. exists head_str. by constructor.
    + eapply res_spec_mono;
        [by apply simple_query_or_spec|done|].
      intros out (head_str & body_atoms & ->). exists head_str.
      rewrite Hlim, limit_literal_some. simpl.
      apply Forall_forall. intros text [b [-> _]]%list_elem_of_fmap.
      apply branch_text_limited.
  - intros Hagg Hleaves Hcomp Hord. unfold aggregating in Hagg.
    assert (res_spec False
              (λ out, ∃ texts, out = Many texts
                               ∧ length texts = S (root_ors w))
              (compile_query q)) as H.
    2:{ destruct (res_spec_ok _ _ H) as (out & -> & texts & -> & Hlen).
        eauto. }
    unfold compile_query. rewrite Hw, Hor, Hagg.
    eapply res_spec_bind with (P := env_wf).
    { destruct (on_condition q) as [c|]; [|apply parent_wf_empty].
      apply _process_join_condition_ok, parent_wf_empty. }
    intros env Hwf.
    eapply res_spec_bind
      with (P := λ r, (∃ bs, r.1.2 = Some bs ∧ length bs = S (root_ors w))
                      ∧ env_wf r.2).
    { eapply res_spec_bind.
      { eapply res_spec_mono; [by apply compile_or_branches_spec| |done].
        intros Hc.
        assert (forallb compilable (or_leaves w) = true); [|congruence].
        apply forallb_forall. intros leaf Hin. apply compilable_iff.
        rewrite Forall_forall in Hleaves. apply Hleaves.
        by apply list_elem_of_In. }
      intros [bs env1] [Hlen Hwf1]. simpl. eauto. }
    intros [[where_parts or_branches] env1]. simpl.
    intros [(bs & -> & Hlen) Hwf1].
    eapply res_spec_mono; [by apply simple_query_or_spec| |].
    + rewrite Hcomp, Hord. done.
    + intros out (head_str & body_atoms & ->). eexists. split; [done|].
      by rewrite length_map.
Qed.

Lemma or_query_replicates_limit_witness :
  ∃ texts, compile_query Examples.limited_or_query = Ok (Many texts)
           ∧ length texts = 2.
Proof.
  apply (or_query_replicates_limit Examples.limited_or_query
           (Or (Examples.dept "eng") (Examples.dept "sales")) 10);
    try reflexivity.
  repeat constructor.
Defined.

(** The run behind the witness: two branches, one head, the limit in each. *)
Lemma limited_or_query_text :
  compile_query Examples.limited_or_query
  = Ok (Many
      ["?Id, Name, Department, Salary, Active <- employee(Id, Name, Department, Salary, Active), Department = "
         +:+ dquote +:+ "eng" +:+ dquote +:+ ", limit(10, 20)";
       "?Id, Name, Department, Salary, Active <- employee(Id, Name, Department, Salary, Active), Department = "
         +:+ dquote +:+ "sales" +:+ dquote +:+ ", limit(10, 20)"]).
Proof. by vm_compute. Qed.

(** * Further properties *)

Import Forest.

(** ** The variable environment *)

Lemma root_of_det parent k r r' :
  root_of parent k r → root_of parent k r' → r = r'.
Proof. intros [n H] [n' H']. by destruct (path_det _ _ _ _ _ _ H H'). Qed.

Lemma _find_root key env :
  env_wf env →
  ∃ r env',
    _find key env = Ok (r, env')
    ∧ root_of (_parent env) key r
    ∧ env_wf env' ∧ _map env' = _map env ∧ _counter env' = _counter env
    ∧ _parent env' !! r = None
    ∧ ∀ k r', root_of (_parent env) k r' → root_of (_parent env') k r'.
Proof.
  intros Hwf. destruct (Hwf key) as (r & n & Hpath & Hn).
  destruct (find_loop_spec (_parent env) key r n (S (size (_parent env)))
              Hpath ltac:(lia)) as (parent' & Hfind & Hdom & Hpaths).
  destruct (_find_spec key env Hwf)
    as (r0 & env' & Hf & Hwf' & Hm & Hc & _ & Hroot).
  unfold _find in Hf. rewrite Hfind in Hf. injection Hf as <- <-.
  eexists _, _. split; [unfold _find; by rewrite Hfind|].
  split; [by exists n|]. split; [done|]. split; [done|]. split; [done|].
  split; [done|]. simpl.
  intros k r' [m Hk]. destruct (Hpaths _ _ _ Hk) as (m' & _ & Hk').
  by exists m'.
Qed.

(** X1.  [_find] returns the root of its key, the root is a root of the
    rewritten forest too, and path halving moves no key to another root. *)
Theorem find_keeps_roots (key : string) (env : _VarEnv) :
  env_wf env →
  ∃ r env',
    _find key env = Ok (r, env')
    ∧ root_of (_parent env) key r
    ∧ _parent env' !! r = None
    ∧ ∀ k r', root_of (_parent env) k r' ↔ root_of (_parent env') k r'.
Proof.
  intros Hwf.
  destruct (_find_root key env Hwf)
    as (r & env' & Hf & Hr & Hwf' & _ & _ & Hroot & Hkeep).
  exists r, env'. split; [done|]. split; [done|]. split; [done|].
  intros k r'. split; [apply Hkeep|].
  intros Hk'. destruct (Hwf k) as (r0 & n0 & H0 & _).
  assert (root_of (_parent env) k r0) as Hk0 by by exists n0.
  by rewrite (root_of_det _ _ _ _ Hk' (Hkeep _ _ Hk0)).
Qed.

Lemma chain_env_run : run_ops chain_ops VarEnv.new = Ok chain_env.
Proof. by vm_compute. Qed.

Lemma chain_env_wf : env_wf chain_env.
Proof.
  destruct (run_ops_inv chain_ops VarEnv.new env_inv_new)
    as (env & Hrun & Hwf & _).
  rewrite chain_env_run in Hrun. by injection Hrun as <-.
Qed.

Lemma find_keeps_roots_witness :
  ∃ r env',
    _find "node.c" chain_env = Ok (r, env')
    ∧ root_of (_parent chain_env) "node.c" r
    ∧ _parent env' !! r = None
    ∧ ∀ k r', root_of (_parent chain_env) k r' ↔ root_of (_parent env') k r'.
Proof. apply (find_keeps_roots "node.c" chain_env chain_env_wf). Defined.

(** The run behind the witness: [node.c] is two steps from its root, and
    the call hangs it directly under the root. *)
Lemma find_halves_the_path :
  _find "node.c" chain_env
  = Ok ("node.a",
        {| _map := _map chain_env;
           _counter := 0;
           _parent := {[ "node.c" := "node.a"; "node.b" := "node.a" ]} |}).
Proof. by vm_compute. Qed.

Lemma path_union parent ra rb k r n :
  parent !! ra = None → parent !! rb = None → ra ≠ rb →
  path parent k r n →
  root_of (<[rb := ra]> parent) k (if decide (r = rb) then ra else r).
Proof.
  intros Hra Hrb Hne H. induction H as [k Hk|k p r n Hk Hp IH].
  - destruct (decide (k = rb)) as [->|Hkb].
    + exists 1. eapply path_step; [apply lookup_insert_eq|].
      apply path_root. by rewrite lookup_insert_ne.
    + exists 0. apply path_root. by rewrite lookup_insert_ne.
  - destruct IH as [m IH]. exists (S m). eapply path_step; [|done].
    rewrite lookup_insert_ne; [done|]. intros <-. congruence.
Qed.

Lemma _union_root a b env :
  env_wf env →
  ∃ r env',
    _union a b env = Ok env'
    ∧ env_wf env' ∧ _map env' = _map env ∧ _counter env' = _counter env
    ∧ root_of (_parent env') a r ∧ root_of (_parent env') b r.
Proof.
  intros Hwf. unfold _union.
  destruct (_find_root a env Hwf)
    as (ra & env1 & -> & Ha & Hwf1 & Hm1 & Hc1 & Hra & Hkeep1).
  destruct (_find_root b env1 Hwf1)
    as (rb & env2 & Hf2 & Hb & Hwf2 & Hm2 & Hc2 & Hrb & Hkeep2).
  simpl. rewrite Hf2. simpl.
  assert (root_of (_parent env2) ra ra) as Hra2.
  { apply Hkeep2. exists 0. by apply path_root. }
  assert (_parent env2 !! ra = None) as Hra2'.
  { destruct Hra2 as [n Hn]. by apply path_end in Hn. }
  assert (root_of (_parent env2) b rb) as Hb2 by (by apply Hkeep2).
  assert (root_of (_parent env2) a ra) as Ha2'.
  { apply Hkeep2, Hkeep1. done. }
  case_bool_decide as Hne.
  - exists ra. eexists. split; [done|]. simpl.
    split; [by apply union_wf|]. split; [congruence|]. split; [congruence|].
    destruct Ha2' as [n Hn]. destruct Hb2 as [m Hm].
    pose proof (path_union _ ra rb _ _ _ Hra2' Hrb Hne Hn) as H1.
    pose proof (path_union _ ra rb _ _ _ Hra2' Hrb Hne Hm) as H2.
    rewrite decide_False in H1 by done. rewrite decide_True in H2 by done.
    done.
  - exists ra, env2. split; [done|]. split; [done|]. split; [congruence|].
    split; [congruence|]. split; [done|].
    by subst.
Qed.

Lemma assign_lookup root col_name env :
  _map (assign root col_name env).2 !! root = Some (assign root col_name env).1.
Proof.
  destruct (_map env !! root) as [v|] eqn:Hr.
  - by rewrite (assign_named _ _ _ v).
  - rewrite assign_unnamed by done. simpl. apply lookup_insert_eq.
Qed.

(** A column whose root carries a name resolves to that name, and the
    call changes neither the names nor any key's root. *)
Lemma get_var_named col env r v :
  env_wf env → root_of (_parent env) (qualified col) r →
  _map env !! r = Some v →
  ∃ env', get_var col env = Ok (v, env')
          ∧ env_wf env' ∧ _map env' = _map env
          ∧ _counter env' = _counter env
          ∧ ∀ k r', root_of (_parent env) k r' → root_of (_parent env') k r'.
Proof.
  intros Hwf Hroot Hv. unfold get_var.
  destruct (_find_root (qualified col) env Hwf)
    as (r0 & env1 & -> & Hr0 & Hwf1 & Hm1 & Hc1 & _ & Hkeep).
  simpl. rewrite <- (root_of_det _ _ _ _ Hroot Hr0).
  rewrite (assign_named _ _ _ v) by by rewrite Hm1.
  by exists env1.
Qed.

(** X2.  After [unify(a, b)] both columns resolve to the variable [unify]
    returned: [get_var] gives it for [a] and then for [b]. *)
Theorem unify_then_same_var (col_a col_b : Column) (env : _VarEnv) :
  env_wf env →
  ∃ v env1 env2 env3,
    unify col_a col_b env = Ok (v, env1)
    ∧ get_var col_a env1 = Ok (v, env2)
    ∧ get_var col_b env2 = Ok (v, env3).
Proof.
  intros Hwf. unfold unify.
  destruct (_union_root (qualified col_a) (qualified col_b) env Hwf)
    as (r & env0 & -> & Hwf0 & Hm0 & Hc0 & Ha & Hb).
  destruct (_find_root (qualified col_a) env0 Hwf0)
    as (r0 & envf & Hf & Hr0 & Hwff & Hmf & Hcf & _ & Hkeep).
  simpl. rewrite Hf. simpl.
  rewrite <- (root_of_det _ _ _ _ Ha Hr0) in *.
  destruct (assign r (Ast.name col_a) envf) as [v env1] eqn:Hassign.
  assert (_map env1 !! r = Some v) as Hv.
  { pose proof (assign_lookup r (Ast.name col_a) envf) as H.
    by rewrite Hassign in H. }
  assert (_parent env1 = _parent envf) as Hp.
  { pose proof (assign_parent r (Ast.name col_a) envf) as H.
    by rewrite Hassign in H. }
  assert (env_wf env1) as Hwf1 by (unfold env_wf; by rewrite Hp).
  assert (root_of (_parent env1) (qualified col_a) r) as Ha1.
  { rewrite Hp. by apply Hkeep. }
  assert (root_of (_parent env1) (qualified col_b) r) as Hb1.
  { rewrite Hp. by apply Hkeep. }
  destruct (get_var_named col_a env1 r v Hwf1 Ha1 Hv)
    as (env2 & Hg2 & Hwf2 & Hm2 & _ & Hkeep2).
  destruct (get_var_named col_b env2 r v Hwf2 (Hkeep2 _ _ Hb1))
    as (env3 & Hg3 & _); [by rewrite Hm2|].
  by exists v, env1, env2, env3.
Qed.

Lemma unify_then_same_var_witness :
  ∃ v env1 env2 env3,
    unify Examples.pair_a Examples.pair_b VarEnv.new = Ok (v, env1)
    ∧ get_var Examples.pair_a env1 = Ok (v, env2)
    ∧ get_var Examples.pair_b env2 = Ok (v, env3).
Proof.
  apply (unify_then_same_var Examples.pair_a Examples.pair_b VarEnv.new
           parent_wf_empty).
Defined.

Import Text.

Lemma assign_map_subseteq root col_name env :
  _map env ⊆ _map (assign root col_name env).2
  ∧ _counter env ≤ _counter (assign root col_name env).2.
Proof.
  destruct (_map env !! root) as [v|] eqn:Hr.
  - by rewrite (assign_named _ _ _ v).
  - rewrite assign_unnamed by done. simpl. split.
    + by apply insert_subseteq.
    + case_bool_decide; lia.
Qed.

(** X3.  A call of [get_var] or [unify] completes and never renames or
    forgets: every binding of [_map] is still there afterwards, and the
    counter does not decrease. *)
Theorem names_are_stable (op : env_op) (env : _VarEnv) :
  env_wf env →
  ∃ env', run_op op env = Ok env'
          ∧ env_wf env'
          ∧ _map env ⊆ _map env'
          ∧ _counter env ≤ _counter env'.
Proof.
  intros Hwf. destruct op as [col|col_a col_b]; simpl.
  - destruct (get_var_spec col env Hwf)
      as (root & env1 & -> & _ & Hwf1 & Hm & Hc).
    eexists. split; [done|]. simpl. split; [by apply assign_wf|].
    rewrite <- Hm, <- Hc. apply assign_map_subseteq.
  - destruct (unify_spec col_a col_b env Hwf)
      as (root & env1 & -> & Hwf1 & Hm & Hc).
    eexists. split; [done|]. simpl. split; [by apply assign_wf|].
    rewrite <- Hm, <- Hc. apply assign_map_subseteq.
Qed.

Lemma names_are_stable_witness :
  ∃ env', run_op (OpGetVar other_a) chain_env = Ok env'
          ∧ env_wf env'
          ∧ _map chain_env ⊆ _map env'
          ∧ _counter chain_env ≤ _counter env'.
Proof. apply (names_are_stable (OpGetVar other_a) chain_env chain_env_wf). Defined.

(** The run behind the witness: the name [A] is taken, so the new column
    is called [A_1] and the counter moves; the two names that were there
    stay. *)
Lemma get_var_keeps_names :
  run_op (OpGetVar other_a) chain_env
  = Ok {| _map := {[ "node.a" := "A"; "node.b" := "B"; "other.a" := "A_1" ]};
          _counter := 1;
          _parent := _parent chain_env |}.
Proof. by vm_compute. Qed.

(** X4.  [lookup] completes, creates no variable (names and counter are
    untouched), and what it finds is what [get_var] returns: a name when the
    root of the column has one, and [None] only when that root has none. *)
Theorem lookup_is_read_only (col : Column) (env : _VarEnv) :
  env_wf env →
  ∃ found root env',
    lookup col env = Ok (found, env')
    ∧ _map env' = _map env ∧ _counter env' = _counter env
    ∧ root_of (_parent env) (qualified col) root
    ∧ found = _map env !! root
    ∧ ∀ v, found = Some v → get_var col env = Ok (v, env').
Proof.
  intros Hwf. unfold lookup, get_var.
  destruct (_find_root (qualified col) env Hwf)
    as (r & env1 & -> & Hr & Hwf1 & Hm1 & Hc1 & _ & _).
  simpl. exists (_map env1 !! r), r, env1.
  split; [done|]. split; [done|]. split; [done|]. split; [done|].
  split; [by rewrite Hm1|].
  intros v Hv. by rewrite (assign_named _ _ _ v).
Qed.

Lemma lookup_is_read_only_witness :
  ∃ found root env',
    lookup node_c chain_env = Ok (found, env')
    ∧ _map env' = _map chain_env ∧ _counter env' = _counter chain_env
    ∧ root_of (_parent chain_env) (qualified node_c) root
    ∧ found = _map chain_env !! root
    ∧ ∀ v, found = Some v → get_var node_c chain_env = Ok (v, env').
Proof. apply (lookup_is_read_only node_c chain_env chain_env_wf). Defined.

(** The run behind the witness: [node.c] has no name of its own and is
    found under the name of its root [node.a]. *)
Lemma lookup_finds_root_name :
  fst <$> lookup node_c chain_env = Ok (Some "A")
  ∧ fst <$> get_var node_c chain_env = Ok "A".
Proof. by vm_compute. Qed.

(** ** Values *)

(** The two replacements of [compile_value], character by character. *)
Lemma escape_cons c s :
  replace "034" (backslash +:+ dquote) (replace "092" (backslash +:+ backslash)
                                          (String c s))
  = (if Ascii.eqb c "092" then String "092" (String "092" EmptyString)
     else if Ascii.eqb c "034" then String "092" (String "034" EmptyString)
     else String c EmptyString)
    +:+ replace "034" (backslash +:+ dquote)
          (replace "092" (backslash +:+ backslash) s).
Proof.
  simpl. destruct (Ascii.eqb c "092") eqn:Hb.
  - apply Ascii.eqb_eq in Hb as ->. reflexivity.
  - simpl. destruct (Ascii.eqb c "034") eqn:Hq; reflexivity.
Qed.

Lemma escape_inj s1 s2 :
  replace "034" (backslash +:+ dquote)
    (replace "092" (backslash +:+ backslash) s1) +:+ dquote
  = replace "034" (backslash +:+ dquote)
      (replace "092" (backslash +:+ backslash) s2) +:+ dquote →
  s1 = s2.
Proof.
  revert s2. induction s1 as [|c1 s1 IH]; intros [|c2 s2].
  - done.
  - rewrite escape_cons. intros H.
    destruct (Ascii.eqb c2 "092") eqn:Hb; [discriminate H|].
    destruct (Ascii.eqb c2 "034") eqn:Hq; [discriminate H|].
    injection H as H _. rewrite <- H in Hq. discriminate Hq.
  - rewrite escape_cons. intros H.
    destruct (Ascii.eqb c1 "092") eqn:Hb; [discriminate H|].
    destruct (Ascii.eqb c1 "034") eqn:Hq; [discriminate H|].
    injection H as H _. rewrite H in Hq. discriminate Hq.
  - rewrite !escape_cons. intros H.
    destruct (Ascii.eqb c1 "092") eqn:Hb1;
      [apply Ascii.eqb_eq in Hb1 as ->|];
      (destruct (Ascii.eqb c2 "092") eqn:Hb2;
        [apply Ascii.eqb_eq in Hb2 as ->|]).
    + injection H as H. f_equal. by apply IH.
    + destruct (Ascii.eqb c2 "034") eqn:Hq2; [discriminate H|].
      injection H as H _. rewrite <- H in Hb2. discriminate Hb2.
    + destruct (Ascii.eqb c1 "034") eqn:Hq1; [discriminate H|].
      injection H as H _. rewrite H in Hb1. discriminate Hb1.
    + destruct (Ascii.eqb c1 "034") eqn:Hq1;
        [apply Ascii.eqb_eq in Hq1 as ->|];
        (destruct (Ascii.eqb c2 "034") eqn:Hq2;
          [apply Ascii.eqb_eq in Hq2 as ->|]).
      * injection H as H. f_equal. by apply IH.
      * injection H as H _. rewrite <- H in Hb2. discriminate Hb2.
      * injection H as H _. rewrite H in Hb1. discriminate Hb1.
      * injection H as -> H. f_equal. by apply IH.
Qed.

(** X5.  Two different strings never compile to the same literal. *)
Theorem compile_value_str_inj (s1 s2 : string) :
  compile_value (VStr s1) = compile_value (VStr s2) → s1 = s2.
Proof.
  simpl. intros H. injection H as H.
  apply escape_inj. by apply (inj (String.app _)) in H.
Qed.

Lemma compile_value_str_inj_witness :
  String "092" "n" = String "092" "n".
Proof.
  apply (compile_value_str_inj (String "092" "n") (String "092" "n")).
  reflexivity.
Defined.

(** X6.  [compile_value] returns a literal exactly for the supported
    values; on any other it raises the [TypeError] of its last line. *)
Theorem compile_value_total (v : Value) :
  if supported v then ∃ s, compile_value v = Ok s
  else compile_value v = Raise cannot_compile_value.
Proof.
  induction v as [|b|n|r|s|items IH|ms|t] using Value_nested_ind;
    simpl; try by eexists.
  assert (if forallb supported items
          then ∃ ss, compile_values items = Ok ss
          else compile_values items = Raise cannot_compile_value) as H.
  { induction IH as [|v items Hv _ IHitems]; simpl; [by eexists|].
    destruct (supported v); simpl.
    - destruct Hv as [s ->]. simpl.
      destruct (forallb supported items).
      + destruct IHitems as [ss ->]. by eexists.
      + by rewrite IHitems.
    - by rewrite Hv. }
  change (if forallb supported items
          then ∃ s, (compile_values items ≫= λ inner,
                       Ok ("[" +:+ join ", " inner +:+ "]")) = Ok s
          else (compile_values items ≫= λ inner,
                  Ok ("[" +:+ join ", " inner +:+ "]"))
               = Raise cannot_compile_value).
  destruct (forallb supported items).
  - destruct H as [ss ->]. by eexists.
  - by rewrite H.
Qed.

(** ** Names *)

Lemma lower_not_upper c : is_upper (lower c) = false.
Proof. by destruct c as [[] [] [] [] [] [] [] []]. Qed.

Lemma lower_id c : is_upper c = false → lower c = c.
Proof. unfold lower. by intros ->. Qed.

Lemma no_upper_lower_str s : no_upper (lower_str s) = true.
Proof.
  induction s as [|c s IH]; simpl; [done|]. by rewrite lower_not_upper, IH.
Qed.

Lemma lower_str_id s : no_upper s = true → lower_str s = s.
Proof.
  induction s as [|c s IH]; simpl; [done|].
  intros [Hc Hs]%andb_true_iff. apply negb_true_iff in Hc.
  by rewrite lower_id, IH.
Qed.

Lemma sub_acronym_id fuel s : no_upper s = true → sub_acronym fuel s = s.
Proof.
  revert s. induction fuel as [|fuel IH]; intros s Hs; simpl; [done|].
  destruct s as [|a s]; [done|].
  simpl in Hs. apply andb_true_iff in Hs as [Ha Hs].
  apply negb_true_iff in Ha.
  assert (acronym_run (String a s) = None) as ->.
  { destruct s as [|b s]; simpl; [done|]. by rewrite Ha. }
  by rewrite IH.
Qed.

Lemma sub_boundary_id s : no_upper s = true → sub_boundary s = s.
Proof.
  induction s as [|a s IH]; [done|].
  intros Hs. simpl in Hs. apply andb_true_iff in Hs as [Ha Hs].
  destruct s as [|b s]; [done|].
  pose proof Hs as Hs'. simpl in Hs'. apply andb_true_iff in Hs' as [Hb _].
  apply negb_true_iff in Hb.
  change (sub_boundary (String a (String b s)))
    with (if (is_lower a || is_digit a) && is_upper b
          then String a (String "_" (String b (sub_boundary s)))
          else String a (sub_boundary (String b s))).
  rewrite Hb, andb_false_r. by rewrite IH.
Qed.

(** X7.  A relation name derived by [camel_to_snake] has no upper-case
    ASCII letter, and an ASCII class name without upper-case letters is its
    own relation name. *)
Theorem camel_to_snake_lower_case (name : string) :
  no_upper (camel_to_snake name) = true
  ∧ (is_ascii name = true → no_upper name = true →
     camel_to_snake name = name).
Proof.
  split; [apply no_upper_lower_str|].
  intros _ H. unfold camel_to_snake.
  by rewrite sub_acronym_id, sub_boundary_id, lower_str_id.
Qed.

Lemma camel_to_snake_lower_case_witness :
  no_upper (camel_to_snake "edge_list") = true
  ∧ camel_to_snake "edge_list" = "edge_list".
Proof.
  destruct (camel_to_snake_lower_case "edge_list") as [Hlow Hid].
  split; [exact Hlow|]. apply Hid; reflexivity.
Defined.

(** ** Types *)

Lemma scan_type_map_name items tp name :
  scan_type_map items tp = Some name → name ∈ items.*2.
Proof.
  induction items as [|[b n] items IH]; simpl; [done|].
  case_bool_decide; [intros [= <-]; left|].
  destruct (is_class tp && issubclass tp b && _);
    [intros [= <-]; left|intros Hrest; right; by apply IH].
Qed.

(** X8.  Whatever [python_type_to_datalog] returns is a dimensioned
    vector name that carries the [_dim] of the type itself, or one of the
    seven storage-type names, and then the type has no dimension. *)
Theorem python_type_to_datalog_codomain (tp : PyType) (t : string) :
  python_type_to_datalog tp = Ok t →
  (∃ d, vector_meta_dim tp = Some (Some d)
        ∧ t = "vector[" +:+ pretty d +:+ "]")
  ∨ (∃ d, vector_int8_meta_dim tp = Some (Some d)
          ∧ t = "vector_int8[" +:+ pretty d +:+ "]")
  ∨ (t ∈ plain_type_names
     ∧ (∀ d, vector_meta_dim tp ≠ Some (Some d))
     ∧ (∀ d, vector_int8_meta_dim tp ≠ Some (Some d))).
Proof.
  unfold python_type_to_datalog.
  destruct (vector_meta_dim tp) as [[d|]|] eqn:Hv.
  { intros [= <-]. left. by exists d. }
  all: destruct (vector_int8_meta_dim tp) as [[d|]|] eqn:Hv8;
    try (intros [= <-]; right; left; by exists d).
  all: destruct (scan_type_map TYPE_MAP tp) as [name|] eqn:Hs;
    [|discriminate].
  all: intros [= <-]; right; right;
    split; [by apply (scan_type_map_name TYPE_MAP tp)|by split].
Qed.

Lemma python_type_to_datalog_codomain_witness :
  (∃ d, vector_meta_dim
          (TSubclass "Vector[4]" (Some (Some 4%Z))
             (TVector (Some 3%positive)))
        = Some (Some d)
        ∧ "vector[4]" = "vector[" +:+ pretty d +:+ "]")
  ∨ (∃ d, vector_int8_meta_dim
            (TSubclass "Vector[4]" (Some (Some 4%Z))
               (TVector (Some 3%positive)))
          = Some (Some d)
          ∧ "vector[4]" = "vector_int8[" +:+ pretty d +:+ "]")
  ∨ ("vector[4]" ∈ plain_type_names
     ∧ (∀ d, vector_meta_dim
               (TSubclass "Vector[4]" (Some (Some 4%Z))
                  (TVector (Some 3%positive)))
             ≠ Some (Some d))
     ∧ (∀ d, vector_int8_meta_dim
               (TSubclass "Vector[4]" (Some (Some 4%Z))
                  (TVector (Some 3%positive)))
             ≠ Some (Some d))).
Proof.
  apply (python_type_to_datalog_codomain
           (TSubclass "Vector[4]" (Some (Some 4%Z))
              (TVector (Some 3%positive)))
           "vector[4]").
  reflexivity.
Defined.

(** ** Autodetector: what an empty diff means *)

Lemma for_each_nil_inv names body :
  for_each names body = Ok [] → Forall (λ n, body n = Ok []) names.
Proof.
  induction names as [|n names IH]; simpl; [done|].
  destruct (body n) as [ops| |] eqn:Eb; simpl; [|done..].
  destruct (for_each names body) as [ops'| |]; simpl; [|done..].
  intros [= H]. apply app_eq_nil in H as [-> ->].
  constructor; [done|by apply IH].
Qed.

Lemma sorted_nil (names : gset string) : sorted names = [] → names = ∅.
Proof.
  intros H. apply set_eq. intros n. rewrite <- sorted_elem, H.
  rewrite elem_of_nil. by rewrite elem_of_empty.
Qed.

(** A loop whose body never returns the empty list ran over no name. *)
Lemma for_each_nil_names (names : gset string) body :
  (∀ n, body n ≠ Ok []) → for_each (sorted names) body = Ok [] → names = ∅.
Proof.
  intros Hbody H. apply sorted_nil.
  apply for_each_nil_inv in H. destruct (sorted names) as [|n l]; [done|].
  apply Forall_cons in H as [H _]. by destruct (Hbody n).
Qed.

Lemma maps_equal {A} (old new : gmap string A) :
  dom new ∖ dom old = ∅ → dom old ∖ dom new = ∅ →
  (∀ n, n ∈ dom old ∩ dom new → old !! n = new !! n) → old = new.
Proof.
  intros H1 H2 H. apply map_eq. intros n.
  destruct (decide (n ∈ dom old)) as [Ho|Ho];
  destruct (decide (n ∈ dom new)) as [Hn|Hn].
  - apply H. by apply elem_of_intersection.
  - assert (n ∈ dom old ∖ dom new) as Hd by by apply elem_of_difference.
    rewrite H2 in Hd. by apply elem_of_empty in Hd.
  - assert (n ∈ dom new ∖ dom old) as Hd by by apply elem_of_difference.
    rewrite H1 in Hd. by apply elem_of_empty in Hd.
  - apply not_elem_of_dom in Ho, Hn. by rewrite Ho, Hn.
Qed.

Lemma replaced_nil {A} `{EqDecision A} (old new : gmap string A)
    (n : string) (ops : A → A → result (list Operation)) :
  (o ← getitem old n; n' ← getitem new n;
   if bool_decide (o ≠ n') then ops o n' else Ok []) = Ok [] →
  (∀ o n', ops o n' ≠ Ok []) →
  n ∈ dom old ∩ dom new → old !! n = new !! n.
Proof.
  intros H Hops [[o Ho]%elem_of_dom [n' Hn]%elem_of_dom]%elem_of_intersection.
  unfold getitem in H. rewrite Ho, Hn in H. simpl in H.
  case_bool_decide as Hne; [by destruct (Hops o n')|].
  rewrite Ho, Hn. f_equal. by destruct (decide (o = n')).
Qed.

Lemma index_op_singleton_ne mk name info :
  (op ← index_op mk name info; Ok [op]) ≠ Ok [].
Proof.
  unfold index_op. destruct (idx_relation info); [|done].
  by destruct (idx_column info).
Qed.

(** X9.  The diff is empty only for equal states. *)
Theorem detect_changes_nil_only_if_same (old new : ModelState) :
  detect_changes old new = Ok [] → old = new.
Proof.
  unfold detect_changes. intros H.
  repeat match type of H with
         | context [for_each ?ns ?b ≫= _] =>
             let E := fresh "E" in
             destruct (for_each ns b) as [?ops| |] eqn:E; simpl in H;
             [|discriminate H..]
         end.
  injection H as H.
  repeat (apply app_eq_nil in H as [? H]). subst.
  assert (Migrations.relations old = Migrations.relations new) as Hrel.
  { apply maps_equal.
    - eapply for_each_nil_names; [|exact E]. intros n. cbv beta.
      destruct (getitem (Migrations.relations new) n); simpl; by intros [=].
    - eapply for_each_nil_names; [|exact E4]. intros n. cbv beta.
      destruct (getitem (Migrations.relations old) n); simpl; by intros [=].
    - intros n Hn. apply for_each_nil_inv in E0.
      rewrite Forall_forall in E0.
      eapply (replaced_nil _ _ n
                (λ o n', Ok [DropRelation n o; CreateRelation n n']));
        [|done|done].
      apply E0. by apply sorted_elem. }
  assert (rules old = rules new) as Hrules.
  { apply maps_equal.
    - eapply for_each_nil_names; [|exact E3]. intros n. cbv beta.
      destruct (getitem (rules new) n); simpl; by intros [=].
    - eapply for_each_nil_names; [|exact E1]. intros n. cbv beta.
      destruct (getitem (rules old) n); simpl; by intros [=].
    - intros n Hn. apply for_each_nil_inv in E2.
      rewrite Forall_forall in E2.
      eapply (replaced_nil _ _ n (λ o n', Ok [ReplaceRule n o n']));
        [|done|done].
      apply E2. by apply sorted_elem. }
  assert (indexes old = indexes new) as Hidx.
  { apply maps_equal.
    - eapply for_each_nil_names; [|exact E7]. intros n. cbv beta.
      destruct (getitem (indexes new) n) as [info| |]; simpl; [|done..].
      apply index_op_singleton_ne.
    - eapply for_each_nil_names; [|exact E5]. intros n. cbv beta.
      destruct (getitem (indexes old) n) as [info| |]; simpl; [|done..].
      apply index_op_singleton_ne.
    - intros n Hn. apply for_each_nil_inv in E6.
      rewrite Forall_forall in E6.
      eapply (replaced_nil _ _ n
                (λ o n', old_info ← getitem (indexes old) n;
                         d ← index_op DropIndex n old_info;
                         new_info ← getitem (indexes new) n;
                         c ← index_op CreateIndex n new_info;
                         Ok [d; c])); [|  |done].
      + apply E6. by apply sorted_elem.
      + intros o n'.
        destruct (getitem (indexes old) n) as [oi| |]; simpl; [|done..].
        destruct (index_op DropIndex n oi) as [d| |]; simpl; [|done..].
        destruct (getitem (indexes new) n) as [ni| |]; simpl; [|done..].
        by destruct (index_op CreateIndex n ni) as [c| |]. }
  destruct old, new. simpl in *. by subst.
Qed.

Lemma detect_changes_nil_only_if_same_witness :
  Examples.document_state = Examples.document_state.
Proof.
  apply (detect_changes_nil_only_if_same Examples.document_state
           Examples.document_state).
  by vm_compute.
Defined.

(** ** Autodetector: building and tearing down a whole state *)

Import Diff.

Lemma for_each_singletons names body (P : string → Operation → Prop) :
  (∀ n, n ∈ names → ∃ op, body n = Ok [op] ∧ P n op) →
  ∃ ops, for_each names body = Ok ops ∧ Forall2 P names ops.
Proof.
  induction names as [|n names IH]; intros H; simpl.
  - exists []. by split.
  - destruct (H n) as (op & -> & Hop); [left|].
    destruct IH as (ops & -> & Hops); [intros n' Hn'; apply H; by right|].
    exists (op :: ops). split; [done|]. by constructor.
Qed.

Lemma empty_inter_l (X : gset string) : ∅ ∩ X = ∅.
Proof. apply (left_absorb_L _ _). Qed.

Lemma empty_inter_r (X : gset string) : X ∩ ∅ = ∅.
Proof. apply (right_absorb_L _ _). Qed.

Lemma diff_empty_r (X : gset string) : X ∖ ∅ = X.
Proof. apply difference_empty_L. Qed.

Lemma diff_empty_l (X : gset string) : ∅ ∖ X = ∅.
Proof. apply empty_difference_L. Qed.

Lemma sorted_empty : sorted ∅ = [].
Proof. unfold sorted. by rewrite elements_empty. Qed.

Lemma getitem_sorted {A} (d : gmap string A) n :
  n ∈ sorted (dom d) → ∃ a, d !! n = Some a ∧ getitem d n = Ok a.
Proof.
  intros [a Ha]%sorted_elem%elem_of_dom. exists a. split; [done|].
  unfold getitem. by rewrite Ha.
Qed.

Lemma index_op_complete mk S n info :
  indexes_complete S → indexes S !! n = Some info →
  ∃ op, index_op mk n info = Ok op.
Proof.
  intros HS Hi. destruct (HS n info Hi) as [[r Hr] [c Hc]].
  unfold index_op. rewrite Hr, Hc. by eexists.
Qed.

(** X10.  Against the empty state the diff creates everything, in this
    order: the relations, then the rules, then the indexes, each group in
    ascending name order, one operation per name. *)
Theorem detect_changes_from_empty (S : ModelState) :
  indexes_complete S →
  ∃ rel_ops rule_ops idx_ops,
    detect_changes Examples.empty_state S
    = Ok (rel_ops ++ rule_ops ++ idx_ops)
    ∧ Forall2 (λ n op, ∃ cols, Migrations.relations S !! n = Some cols
                               ∧ op = CreateRelation n cols)
              (sorted (dom (Migrations.relations S))) rel_ops
    ∧ Forall2 (λ n op, ∃ cl, rules S !! n = Some cl ∧ op = CreateRule n cl)
              (sorted (dom (rules S))) rule_ops
    ∧ Forall2 (λ n op, ∃ info, indexes S !! n = Some info
                               ∧ index_op CreateIndex n info = Ok op)
              (sorted (dom (indexes S))) idx_ops.
Proof.
  intros HS. unfold detect_changes, Examples.empty_state. simpl.
  rewrite !dom_empty_L, !diff_empty_r, !empty_inter_l, !diff_empty_l.
  rewrite !sorted_empty. simpl.
  destruct (for_each_singletons (sorted (dom (Migrations.relations S)))
              (λ name, cols ← getitem (Migrations.relations S) name;
                       Ok [CreateRelation name cols])
              (λ n op, ∃ cols, Migrations.relations S !! n = Some cols
                               ∧ op = CreateRelation n cols))
    as (rel_ops & -> & Hrel).
  { intros n Hn. destruct (getitem_sorted _ n Hn) as (cols & Hc & ->).
    simpl. eauto. }
  destruct (for_each_singletons (sorted (dom (rules S)))
              (λ name, cl ← getitem (rules S) name; Ok [CreateRule name cl])
              (λ n op, ∃ cl, rules S !! n = Some cl ∧ op = CreateRule n cl))
    as (rule_ops & -> & Hrule).
  { intros n Hn. destruct (getitem_sorted _ n Hn) as (cl & Hc & ->).
    simpl. eauto. }
  destruct (for_each_singletons (sorted (dom (indexes S)))
              (λ name, info ← getitem (indexes S) name;
                       op ← index_op CreateIndex name info; Ok [op])
              (λ n op, ∃ info, indexes S !! n = Some info
                               ∧ index_op CreateIndex n info = Ok op))
    as (idx_ops & -> & Hidx).
  { intros n Hn. destruct (getitem_sorted _ n Hn) as (info & Hi & ->).
    simpl. destruct (index_op_complete CreateIndex S n info HS Hi) as [op Hop].
    rewrite Hop. simpl. eauto. }
  simpl. exists rel_ops, rule_ops, idx_ops.
  split; [by rewrite ?app_nil_r|]. done.
Qed.

Lemma detect_changes_from_empty_witness :
  ∃ rel_ops rule_ops idx_ops,
    detect_changes Examples.empty_state Examples.document_state
    = Ok (rel_ops ++ rule_ops ++ idx_ops)
    ∧ Forall2 (λ n op, ∃ cols,
                 Migrations.relations Examples.document_state !! n = Some cols
                 ∧ op = CreateRelation n cols)
              (sorted (dom (Migrations.relations Examples.document_state)))
              rel_ops
    ∧ Forall2 (λ n op, ∃ cl, rules Examples.document_state !! n = Some cl
                             ∧ op = CreateRule n cl)
              (sorted (dom (rules Examples.document_state))) rule_ops
    ∧ Forall2 (λ n op, ∃ info,
                 indexes Examples.document_state !! n = Some info
                 ∧ index_op CreateIndex n info = Ok op)
              (sorted (dom (indexes Examples.document_state))) idx_ops.
Proof.
  apply (detect_changes_from_empty Examples.document_state).
  intros n info H. simpl in H.
  apply lookup_singleton_Some in H as [<- <-]. split; by eexists.
Defined.

(** X11.  Towards the empty state the diff drops everything, the rules
    first, then the relations, then the indexes, each group in ascending
    name order. *)
Theorem detect_changes_to_empty (S : ModelState) :
  indexes_complete S →
  ∃ rule_ops rel_ops idx_ops,
    detect_changes S Examples.empty_state
    = Ok (rule_ops ++ rel_ops ++ idx_ops)
    ∧ Forall2 (λ n op, ∃ cl, rules S !! n = Some cl ∧ op = DropRule n cl)
              (sorted (dom (rules S))) rule_ops
    ∧ Forall2 (λ n op, ∃ cols, Migrations.relations S !! n = Some cols
                               ∧ op = DropRelation n cols)
              (sorted (dom (Migrations.relations S))) rel_ops
    ∧ Forall2 (λ n op, ∃ info, indexes S !! n = Some info
                               ∧ index_op DropIndex n info = Ok op)
              (sorted (dom (indexes S))) idx_ops.
Proof.
  intros HS. unfold detect_changes, Examples.empty_state. simpl.
  rewrite !dom_empty_L, !diff_empty_r, !empty_inter_r, !diff_empty_l.
  rewrite !sorted_empty. simpl.
  simpl.
  destruct (for_each_singletons (sorted (dom (rules S)))
              (λ name, cl ← getitem (rules S) name; Ok [DropRule name cl])
              (λ n op, ∃ cl, rules S !! n = Some cl ∧ op = DropRule n cl))
    as (rule_ops & -> & Hrule).
  { intros n Hn. destruct (getitem_sorted _ n Hn) as (cl & Hc & ->).
    simpl. eauto. }
  destruct (for_each_singletons (sorted (dom (Migrations.relations S)))
              (λ name, cols ← getitem (Migrations.relations S) name;
                       Ok [DropRelation name cols])
              (λ n op, ∃ cols, Migrations.relations S !! n = Some cols
                               ∧ op = DropRelation n cols))
    as (rel_ops & -> & Hrel).
  { intros n Hn. destruct (getitem_sorted _ n Hn) as (cols & Hc & ->).
    simpl. eauto. }
  destruct (for_each_singletons (sorted (dom (indexes S)))
              (λ name, info ← getitem (indexes S) name;
                       op ← index_op DropIndex name info; Ok [op])
              (λ n op, ∃ info, indexes S !! n = Some info
                               ∧ index_op DropIndex n info = Ok op))
    as (idx_ops & -> & Hidx).
  { intros n Hn. destruct (getitem_sorted _ n Hn) as (info & Hi & ->).
    simpl. destruct (index_op_complete DropIndex S n info HS Hi) as [op Hop].
    rewrite Hop. simpl. eauto. }
  simpl. exists rule_ops, rel_ops, idx_ops.
  split; [by rewrite ?app_nil_r|]. done.
Qed.

Lemma detect_changes_to_empty_witness :
  ∃ rule_ops rel_ops idx_ops,
    detect_changes Examples.document_state Examples.empty_state
    = Ok (rule_ops ++ rel_ops ++ idx_ops)
    ∧ Forall2 (λ n op, ∃ cl, rules Examples.document_state !! n = Some cl
                             ∧ op = DropRule n cl)
              (sorted (dom (rules Examples.document_state))) rule_ops
    ∧ Forall2 (λ n op, ∃ cols,
                 Migrations.relations Examples.document_state !! n = Some cols
                 ∧ op = DropRelation n cols)
              (sorted (dom (Migrations.relations Examples.document_state)))
              rel_ops
    ∧ Forall2 (λ n op, ∃ info,
                 indexes Examples.document_state !! n = Some info
                 ∧ index_op DropIndex n info = Ok op)
              (sorted (dom (indexes Examples.document_state))) idx_ops.
Proof.
  apply (detect_changes_to_empty Examples.document_state).
  intros n info H. simpl in H.
  apply lookup_singleton_Some in H as [<- <-]. split; by eexists.
Defined.

(** ** Executor: what is applied and what is reverted *)

Lemma migrate_loop_all_applied utcnow target applied L kg acc :
  Forall (λ m, Migrations.name m ∈ applied) L →
  migrate_loop utcnow target applied L kg acc = (kg, acc).
Proof.
  induction 1 as [|m L Hm _ IH]; simpl; [done|].
  by rewrite bool_decide_eq_true_2.
Qed.

(** X12.  Without a target [migrate] applies exactly the migrations whose
    name is not recorded, in list order; when every name is recorded it
    applies nothing and sends the store only the schema declaration and the
    query of the recorder. *)
Theorem migrate_applies_pending (utcnow : nat → string) (kg : KG)
    (L : list MigrationInfo) :
  (snd <$> migrate utcnow kg L None)
  = Ok (filter (λ n, n ∉ applied_in kg) (Migrations.name <$> L))
  ∧ (Forall (λ m, Migrations.name m ∈ applied_in kg) L →
       ∀ target,
         migrate utcnow kg L target
         = Ok ({| commands := commands kg ++
                    ["+" +:+ MIGRATION_RELATION
                       +:+ "(name: string, applied_at: string)";
                     "?Name, At <- " +:+ MIGRATION_RELATION +:+ "(Name, At)"];
                  rows := rows kg |}, [])).
Proof.
  split.
  - unfold migrate, applied_in.
    destruct (get_applied (ensure_schema kg)) as [names kg1]. simpl.
    f_equal. by rewrite migrate_loop_all.
  - intros Hall target. unfold migrate, applied_in in *.
    destruct (get_applied (ensure_schema kg)) as [names kg1] eqn:Hg.
    simpl in Hall. rewrite migrate_loop_all_applied by done.
    unfold get_applied, ensure_schema, execute in Hg. simpl in Hg.
    injection Hg as _ <-. by rewrite <- app_assoc.
Qed.

Lemma migrate_applies_pending_witness :
  migrate Examples.clock
    {| commands := []; rows := [("0001_initial", "2024-01-01")] |}
    [Examples.m0001] None
  = Ok ({| commands :=
             ["+" +:+ MIGRATION_RELATION
                +:+ "(name: string, applied_at: string)";
              "?Name, At <- " +:+ MIGRATION_RELATION +:+ "(Name, At)"];
           rows := [("0001_initial", "2024-01-01")] |}, []).
Proof.
  apply (proj2 (migrate_applies_pending Examples.clock
                  {| commands := [];
                     rows := [("0001_initial", "2024-01-01")] |}
                  [Examples.m0001])).
  repeat constructor.
Defined.

Lemma find_target_first i L t :
  t ∈ Migrations.name <$> L →
  ∃ k, find_target i L t = Some (i + k)
       ∧ (Migrations.name <$> L) !! k = Some t
       ∧ ∀ j, j < k → (Migrations.name <$> L) !! j ≠ Some t.
Proof.
  revert i. induction L as [|m L IH]; intros i Hin; simpl.
  { by apply elem_of_nil in Hin. }
  case_bool_decide as Hm.
  - exists 0. rewrite Nat.add_0_r. split; [done|]. split; [by rewrite <- Hm|].
    intros j Hj. lia.
  - rewrite fmap_cons in Hin. apply elem_of_cons in Hin as [->|Hin]; [done|].
    destruct (IH (S i) Hin) as (k & Hf & Hk & Hfirst).
    exists (S k). split; [rewrite Hf; f_equal; lia|]. split; [done|].
    intros [|j] Hj; simpl; [congruence|]. apply Hfirst. lia.
Qed.

Lemma revert_fold_names (to_revert : list MigrationInfo) kg acc :
  (foldl (λ '(kg, reverted_names) m,
            let kg := revert_migration m kg in
            let kg := record_reverted (Migrations.name m) kg in
            (kg, reverted_names ++ [Migrations.name m]))
         (kg, acc) to_revert).2
  = acc ++ (Migrations.name <$> to_revert).
Proof.
  revert kg acc. induction to_revert as [|m l IH]; intros kg acc; simpl.
  - by rewrite app_nil_r.
  - rewrite IH. by rewrite <- app_assoc.
Qed.

Lemma filter_names (applied : gset string) (l : list MigrationInfo) :
  Migrations.name <$> filter (λ m, Migrations.name m ∈ applied) l
  = filter (λ n, n ∈ applied) (Migrations.name <$> l).
Proof.
  induction l as [|m l IH]; [done|].
  rewrite fmap_cons. destruct (decide (Migrations.name m ∈ applied)).
  - rewrite !filter_cons_True by done. by rewrite fmap_cons, IH.
  - by rewrite !filter_cons_False.
Qed.

(** X13.  For a target that names a migration, [revert_to] takes the
    first migration of that name, and reverts the recorded migrations
    after it, last first; nothing at or before the target is reverted. *)
Theorem revert_to_reverts_suffix (kg : KG) (L : list MigrationInfo)
    (t : string) :
  t ∈ Migrations.name <$> L →
  ∃ k kg',
    (Migrations.name <$> L) !! k = Some t
    ∧ (∀ j, j < k → (Migrations.name <$> L) !! j ≠ Some t)
    ∧ revert_to kg L t
      = Ok (kg', filter (λ n, n ∈ applied_in kg)
                   (reverse (drop (S k) (Migrations.name <$> L)))).
Proof.
  intros Hin. destruct (find_target_first 0 L t Hin) as (k & Hf & Hk & Hfirst).
  unfold revert_to, applied_in.
  destruct (get_applied (ensure_schema kg)) as [names kg1]. simpl.
  rewrite Hf. simpl.
  destruct (foldl _ _ _) as [kg' out] eqn:Hfold.
  exists k, kg'. split; [done|]. split; [done|]. f_equal. f_equal.
  change out with (kg', out).2. rewrite <- Hfold.
  rewrite revert_fold_names. simpl.
  by rewrite filter_names, fmap_reverse, fmap_drop.
Qed.

Lemma revert_to_reverts_suffix_witness :
  ∃ k kg',
    (Migrations.name <$> [Examples.m0001; Examples.m0002]) !! k
    = Some "0001_initial"
    ∧ (∀ j, j < k → (Migrations.name <$> [Examples.m0001; Examples.m0002]) !! j
                    ≠ Some "0001_initial")
    ∧ revert_to
        {| commands := []; rows := [("0001_initial", "t1"); ("0002_auto", "t2")] |}
        [Examples.m0001; Examples.m0002] "0001_initial"
      = Ok (kg', filter (λ n, n ∈ applied_in
                                    {| commands := [];
                                       rows := [("0001_initial", "t1");
                                                ("0002_auto", "t2")] |})
                   (reverse (drop (S k) (Migrations.name <$>
                                           [Examples.m0001; Examples.m0002])))).
Proof.
  apply (revert_to_reverts_suffix
           {| commands := [];
              rows := [("0001_initial", "t1"); ("0002_auto", "t2")] |}
           [Examples.m0001; Examples.m0002] "0001_initial").
  left.
Defined.

(** ** Facts: insert and delete *)

Import Facts.

(** X14.  The persistent insert is the session insert with a leading [+],
    and the delete is the session insert with a leading [-]; the three fail
    on the same facts, with the same exception. *)
Theorem insert_delete_mirror (fact : Fact) :
  compile_insert fact true = (String.app "+") <$> compile_insert fact false
  ∧ compile_delete fact = (String.app "-") <$> compile_insert fact false.
Proof.
  unfold compile_insert, compile_delete.
  by destruct (fact_values fact (_get_columns (type_ fact))).
Qed.

Lemma fact_values_ok (fact : Fact) (columns : list string) :
  Forall (λ col, ∃ v, __dict__ fact !! col = Some v ∧ supported v = true)
         columns →
  ∃ values,
    fact_values fact columns = Ok values
    ∧ Forall2 (λ col s, ∃ v, __dict__ fact !! col = Some v
                             ∧ compile_value v = Ok s) columns values.
Proof.
  induction 1 as [|col columns (v & Hv & Hs) _ (values & IH & Hvalues)]; simpl.
  - exists []. by split.
  - unfold getattr. rewrite Hv. simpl.
    pose proof (compile_value_total v) as Hc. rewrite Hs in Hc.
    destruct Hc as [s Hc]. rewrite Hc, IH. simpl.
    exists (s :: values). split; [done|]. constructor; [|done]. eauto.
Qed.

(** X15.  A fact whose columns all hold supported values compiles: the
    insert is [+name(v1, .., vn)] with the literal of each column in
    declaration order, and a bulk insert of that one fact keeps the bulk
    form [+name[(v1, .., vn)]]. *)
Theorem insert_of_supported_fact (fact : Fact) :
  Forall (λ col, ∃ v, __dict__ fact !! col = Some v ∧ supported v = true)
         (_get_columns (type_ fact)) →
  ∃ values,
    Forall2 (λ col s, ∃ v, __dict__ fact !! col = Some v
                           ∧ compile_value v = Ok s)
            (_get_columns (type_ fact)) values
    ∧ compile_insert fact true
      = Ok ("+" +:+ _resolve_name (type_ fact) +:+ "("
              +:+ join ", " values +:+ ")")
    ∧ compile_bulk_insert (type_ fact) [fact] true
      = Ok ("+" +:+ _resolve_name (type_ fact) +:+ "[("
              +:+ join ", " values +:+ ")]").
Proof.
  intros H. destruct (fact_values_ok fact _ H) as (values & Hv & Hvalues).
  exists values. split; [done|].
  unfold compile_insert, compile_bulk_insert. simpl. rewrite Hv. simpl.
  split; [done|]. by rewrite !append_assoc.
Qed.

Lemma insert_of_supported_fact_witness :
  ∃ values,
    Forall2 (λ col s, ∃ v, __dict__ pair_fact !! col = Some v
                           ∧ compile_value v = Ok s)
            (_get_columns (type_ pair_fact)) values
    ∧ compile_insert pair_fact true
      = Ok ("+" +:+ _resolve_name (type_ pair_fact) +:+ "("
              +:+ join ", " values +:+ ")")
    ∧ compile_bulk_insert (type_ pair_fact) [pair_fact] true
      = Ok ("+" +:+ _resolve_name (type_ pair_fact) +:+ "[("
              +:+ join ", " values +:+ ")]").
Proof.
  apply (insert_of_supported_fact pair_fact).
  constructor; [by exists (VInt 1)|].
  constructor; [by exists (VInt 2)|].
  constructor.
Defined.

(** ** Model state and the statements it stands for *)

Lemma state_columns_schema_parts col_types cols :
  schema_parts col_types cols
  = (map (λ '(col, tp), col +:+ ": " +:+ tp)) <$> state_columns col_types cols.
Proof.
  induction cols as [|col cols IH]; simpl; [done|].
  destruct (col_types !! col) as [tp|]; [|done].
  destruct (python_type_to_datalog tp) as [t| |]; simpl; [|done..].
  rewrite IH. by destruct (state_columns col_types cols).
Qed.

Lemma add_relations_spec (rels : list RelationCls) :
  ∀ state S,
    add_relations state rels = Ok S →
    rules S = rules state ∧ indexes S = indexes state
    ∧ ∀ name cols,
        Migrations.relations S !! name = Some cols →
        Migrations.relations state !! name = Some cols
        ∨ ∃ rel_cls, rel_cls ∈ rels ∧ _resolve_name rel_cls = name
                     ∧ compile_schema rel_cls = Ok (schema_command name cols).
Proof.
  induction rels as [|rel_cls rels IH]; intros state S; simpl.
  - intros [= <-]. eauto.
  - destruct (state_columns _ _) as [cs| |] eqn:Hcs; simpl; [|done..].
    intros H. apply IH in H as (Hr & Hi & H). simpl in *.
    do 2 (split; [done|]). intros name cols Hl.
    destruct (H _ _ Hl) as [Hs|(r & Hin & Hn & Hc)].
    + destruct (decide (_resolve_name rel_cls = name)) as [<-|Hne].
      * rewrite lookup_insert_eq in Hs. injection Hs as <-.
        right. exists rel_cls. split; [left|]. split; [done|].
        unfold compile_schema. rewrite state_columns_schema_parts, Hcs. done.
      * rewrite lookup_insert_ne in Hs by done. by left.
    + right. exists r. split; [by right|done].
Qed.

Lemma add_indexes_spec (idxs : list HnswIndex) :
  ∀ state,
    Migrations.relations (add_indexes state idxs) = Migrations.relations state
    ∧ rules (add_indexes state idxs) = rules state
    ∧ ∀ n info,
        indexes (add_indexes state idxs) !! n = Some info →
        indexes state !! n = Some info
        ∨ ∃ idx, idx ∈ idxs ∧ Facts.name idx = n ∧ info = index_entry idx.
Proof.
  induction idxs as [|idx idxs IH]; intros state; simpl; [eauto|].
  destruct (IH {| Migrations.relations := Migrations.relations state;
                  rules := rules state;
                  indexes := <[Facts.name idx := index_entry idx]>
                               (indexes state) |}) as (Hr & Hu & H).
  simpl in *. do 2 (split; [done|]). intros n info Hl.
  destruct (H _ _ Hl) as [Hs|(i & Hin & Hn & Hi)].
  - destruct (decide (Facts.name idx = n)) as [<-|Hne].
    + rewrite lookup_insert_eq in Hs. injection Hs as <-.
      right. exists idx. split; [left|done].
    + rewrite lookup_insert_ne in Hs by done. by left.
  - right. exists i. split; [by right|done].
Qed.

(** X16.  In a state built by [ModelState.from_models] from relation
    classes and indexes, every relation entry belongs to one of the classes
    and its [CreateRelation] sends the text [compile_schema] gives for that
    class; every index entry belongs to one of the indexes and its
    [CreateIndex], as the autodetector builds it, sends the text of
    [HnswIndex.to_datalog]; and there are no rules. *)
Theorem from_models_commands (rels : list RelationCls)
    (idxs : list HnswIndex) (S : ModelState) :
  from_models rels idxs = Ok S →
  rules S = ∅
  ∧ (∀ name cols,
       Migrations.relations S !! name = Some cols →
       ∃ rel_cls, rel_cls ∈ rels ∧ _resolve_name rel_cls = name
                  ∧ compile_schema rel_cls
                    = Ok (schema_command name cols)
                  ∧ forward_commands (CreateRelation name cols)
                    = [schema_command name cols])
  ∧ (∀ n info,
       indexes S !! n = Some info →
       ∃ idx op, idx ∈ idxs ∧ Facts.name idx = n
                 ∧ index_op CreateIndex n info = Ok op
                 ∧ forward_commands op = [to_datalog idx]).
Proof.
  unfold from_models.
  destruct (add_relations _ rels) as [state| |] eqn:Hrel; simpl; [|done..].
  intros [= <-].
  apply add_relations_spec in Hrel as (Hu & Hi & Hrel). simpl in *.
  destruct (add_indexes_spec idxs state) as (Hr' & Hu' & Hidx).
  split; [congruence|]. split.
  - intros name cols Hl. rewrite Hr' in Hl.
    destruct (Hrel _ _ Hl) as [Hs|(r & Hin & Hn & Hc)].
    + by rewrite lookup_empty in Hs.
    + exists r. done.
  - intros n info Hl.
    destruct (Hidx _ _ Hl) as [Hs|(i & Hin & <- & ->)].
    + rewrite Hi in Hs. by rewrite lookup_empty in Hs.
    + eexists i, _. split; [done|]. split; [done|]. split; done.
Qed.

Lemma from_models_commands_witness :
  rules Examples.document_state = ∅
  ∧ (∀ name cols,
       Migrations.relations Examples.document_state !! name = Some cols →
       ∃ rel_cls, rel_cls ∈ [Document] ∧ _resolve_name rel_cls = name
                  ∧ compile_schema rel_cls
                    = Ok (schema_command name cols)
                  ∧ forward_commands (CreateRelation name cols)
                    = [schema_command name cols])
  ∧ (∀ n info,
       indexes Examples.document_state !! n = Some info →
       ∃ idx op, idx ∈ [doc_idx] ∧ Facts.name idx = n
                 ∧ index_op CreateIndex n info = Ok op
                 ∧ forward_commands op = [to_datalog idx]).
Proof.
  apply (from_models_commands [Document] [doc_idx]). by vm_compute.
Defined.


(** ** Selecting a whole relation *)

Lemma find_flat key env : _parent env = ∅ → _find key env = Ok (key, env).
Proof.
  destruct env as [names c p]. simpl. intros ->. unfold _find. simpl.
  rewrite lookup_empty. simpl. by rewrite bool_decide_eq_true_2.
Qed.

Lemma get_var_flat col env :
  _parent env = ∅ →
  get_var col env = Ok (assign (qualified col) (Ast.name col) env).
Proof. intros H. unfold get_var. by rewrite (find_flat _ _ H). Qed.

Lemma lookup_flat col env :
  _parent env = ∅ → lookup col env = Ok (_map env !! qualified col, env).
Proof. intros H. unfold lookup. by rewrite (find_flat _ _ H). Qed.

(** Naming a list of columns in an environment without unions: every
    column ends up bound to the name returned for it. *)
Lemma get_vars_flat (cols : list Column) :
  ∀ env, _parent env = ∅ →
    ∃ vs env', for_env get_var cols env = Ok (vs, env')
               ∧ _parent env' = ∅ ∧ _map env ⊆ _map env'
               ∧ Forall2 (λ col v, _map env' !! qualified col = Some v)
                         cols vs.
Proof.
  induction cols as [|col cols IH]; intros env Hp; simpl.
  - exists [], env. by repeat split.
  - rewrite (get_var_flat _ _ Hp).
    pose proof (assign_lookup (qualified col) (Ast.name col) env) as Hl.
    pose proof (assign_map_subseteq (qualified col) (Ast.name col) env)
      as [Hsub _].
    pose proof (assign_parent (qualified col) (Ast.name col) env) as Hp1.
    destruct (assign (qualified col) (Ast.name col) env) as [v env1].
    simpl in *. rewrite Hp in Hp1.
    destruct (IH env1 Hp1) as (vs & env' & -> & Hp' & Hsub' & Hvs). simpl.
    exists (v :: vs), env'. split; [done|]. split; [done|].
    split; [by etrans|]. constructor; [|done].
    by eapply lookup_weaken.
Qed.

Lemma lookups_flat (cols : list Column) (vs : list string) env :
  _parent env = ∅ →
  Forall2 (λ col v, _map env !! qualified col = Some v) cols vs →
  for_env (λ col env, '(var, env) ← lookup col env;
                     Ok (default "_" var, env)) cols env
  = Ok (vs, env).
Proof.
  intros Hp. induction 1 as [|col v cols vs Hv _ IH]; simpl; [done|].
  rewrite (lookup_flat _ _ Hp), Hv. simpl. by rewrite IH.
Qed.

Lemma for_env_fmap {A B C} (g : A → B)
    (f : B → _VarEnv → result (C * _VarEnv)) (xs : list A) env :
  for_env (λ x, f (g x)) xs env = for_env f (g <$> xs) env.
Proof.
  revert env. induction xs as [|x xs IH]; intros env; simpl; [done|].
  destruct (f (g x) env) as [[b env1]| |]; simpl; [|done..].
  by rewrite IH.
Qed.

(** What [compile_query] makes of [select_all R] once the columns of [R]
    are named [vs]. *)
Lemma select_all_of_names (R : RelationCls) (limit offset : option Z)
    (vs : list string) env' :
  for_env get_var (column_of R <$> _get_columns R) VarEnv.new = Ok (vs, env') →
  _parent env' = ∅ →
  Forall2 (λ col v, _map env' !! qualified col = Some v)
          (column_of R <$> _get_columns R) vs →
  compile_query (select_all R limit offset)
  = Ok (Single ("?" +:+ join ", " vs +:+ " <- "
                  +:+ join ", " ((_resolve_name R +:+ "("
                                    +:+ join ", " vs +:+ ")")
                                   :: limit_literal limit offset))).
Proof.
  intros Hvars Hp Hvs.
  unfold compile_query, select_all, simple_query. simpl.
  unfold column_vars.
  rewrite (for_env_fmap (column_of R) get_var). rewrite Hvars. simpl.
  rewrite !bool_decide_eq_true_2 by done. simpl.
  unfold column_vars.
  rewrite (for_env_fmap (column_of R)
             (λ col env, '(var, env) ← lookup col env;
                         Ok (default "_" var, env))).
  rewrite (lookups_flat _ vs _ Hp Hvs). simpl.
  by rewrite !app_nil_r.
Qed.


Lemma qualified_column_of_inj R c1 c2 :
  qualified (column_of R c1) = qualified (column_of R c2) → c1 = c2.
Proof.
  unfold qualified, column_of. simpl. intros H.
  apply (inj (String.app _)) in H. by apply (inj (String.app _)) in H.
Qed.

(** Columns whose variable names do not clash are named, in an
    environment without unions that so far holds the names of [done], by
    [column_to_variable]. *)
Lemma get_vars_plain (R : RelationCls) (cols : list string) :
  ∀ (done : list string) env,
    _parent env = ∅ →
    (∀ k v, _map env !! k = Some v ↔
            ∃ c, c ∈ done ∧ k = qualified (column_of R c)
                 ∧ v = column_to_variable c) →
    NoDup (column_to_variable <$> (done ++ cols)) →
    ∃ env', for_env get_var (column_of R <$> cols) env
            = Ok (column_to_variable <$> cols, env')
            ∧ _parent env' = ∅
            ∧ ∀ k v, _map env' !! k = Some v ↔
                     ∃ c, c ∈ done ++ cols ∧ k = qualified (column_of R c)
                          ∧ v = column_to_variable c.
Proof.
  induction cols as [|col cols IH]; intros done env Hp Hmap Hnd; simpl.
  - exists env. rewrite app_nil_r. split; [done|]. by split.
  - rewrite fmap_app, NoDup_app in Hnd. destruct Hnd as (Hd & Hdis & Hc).
    assert (column_to_variable col ∉ column_to_variable <$> done) as Hnew.
    { intros Hin. apply (Hdis _ Hin). left. }
    rewrite (get_var_flat _ _ Hp).
    assert (_map env !! qualified (column_of R col) = None) as Hnone.
    { destruct (_map env !! _) as [v|] eqn:Hv; [|done].
      apply Hmap in Hv as (c & Hin & Hk & ->).
      apply qualified_column_of_inj in Hk as ->.
      destruct Hnew. by apply list_elem_of_fmap_2. }
    rewrite assign_unnamed by done. unfold fresh_name.
    rewrite bool_decide_eq_false_2; cycle 1.
    { rewrite elem_of_used_vars. intros [k Hk].
      apply Hmap in Hk as (c & Hin & _ & Heq). simpl in Heq.
      destruct Hnew. rewrite Heq. by apply list_elem_of_fmap_2. }
    simpl.
    edestruct (IH (done ++ [col])) as (env' & -> & Hp' & Hmap');
      [| |rewrite <- app_assoc; simpl; rewrite fmap_app; apply NoDup_app;
          by eauto|].
    + done.
    + simpl. intros k v. rewrite lookup_insert_Some, Hmap. split.
      * intros [[<- <-]|[Hne (c & Hin & -> & ->)]].
        -- exists col. split; [|done]. apply elem_of_app. right. left.
        -- exists c. split; [|done]. apply elem_of_app. by left.
      * intros (c & [Hin| ->%list_elem_of_singleton]%elem_of_app & -> & ->).
        -- right. split; [|by eauto].
           intros ->%qualified_column_of_inj.
           destruct Hnew. by apply list_elem_of_fmap_2.
        -- by left.
    + simpl. exists env'. split; [done|]. split; [done|].
      intros k v. rewrite Hmap'. by rewrite <- app_assoc.
Qed.

(** X18.  When no two columns of a relation share a variable name,
    selecting the whole relation gives the query
    [?V1, .., Vn <- name(V1, .., Vn)], followed by the limit literal if
    there is one, where [Vi] is [column_to_variable] of the i-th column. *)
Theorem select_all_text (R : RelationCls) (limit offset : option Z) :
  NoDup (column_to_variable <$> _get_columns R) →
  compile_query (select_all R limit offset)
  = Ok (Single
          ("?" +:+ join ", " (column_to_variable <$> _get_columns R)
             +:+ " <- "
             +:+ join ", "
                   ((_resolve_name R +:+ "("
                       +:+ join ", " (column_to_variable <$> _get_columns R)
                       +:+ ")")
                      :: limit_literal limit offset))).
Proof.
  intros Hnd.
  destruct (get_vars_plain R (_get_columns R) [] VarEnv.new)
    as (env' & Hvars & Hp & Hmap); [done| |done|].
  { intros k v. simpl. rewrite lookup_empty. split; [done|].
    by intros (c & Hin%elem_of_nil & _). }
  eapply select_all_of_names; [done..|].
  simpl in Hmap. clear Hvars.
  assert (∀ c, c ∈ _get_columns R →
               _map env' !! qualified (column_of R c)
               = Some (column_to_variable c)) as Hall.
  { intros c Hin. apply Hmap. by exists c. }
  clear Hmap. induction (_get_columns R) as [|c cols IH]; simpl.
  - constructor.
  - constructor.
    + apply Hall. left.
    + apply IH.
      * by apply NoDup_cons in Hnd as [_ ?].
      * intros c' Hin. apply Hall. by right.
Qed.

Lemma select_all_text_witness :
  compile_query (select_all Examples.Employee (Some 10%Z) None)
  = Ok (Single
          ("?" +:+ join ", "
                     (column_to_variable <$> _get_columns Examples.Employee)
             +:+ " <- "
             +:+ join ", "
                   ((_resolve_name Examples.Employee +:+ "("
                       +:+ join ", " (column_to_variable
                                        <$> _get_columns Examples.Employee)
                       +:+ ")")
                      :: limit_literal (Some 10%Z) None))).
Proof.
  apply (select_all_text Examples.Employee (Some 10%Z) None).
  apply (bool_decide_unpack _). by vm_compute.
Defined.


(** ** Rules *)

Import Rules.

Lemma head_parts_columns (select_map : gmap string Expr)
    (head_columns : list string) (cols : list Column) :
  Forall2 (λ col c, select_map !! col = Some (EColumn c)) head_columns cols →
  ∀ env, for_env (head_part select_map) head_columns env
         = for_env get_var cols env.
Proof.
  induction 1 as [|col c head_columns cols Hc _ IH]; intros env; [done|].
  cbn [for_env].
  assert (head_part select_map col env = get_var c env) as ->.
  { unfold head_part. by rewrite Hc. }
  destruct (get_var c env) as [[v env1]| |]; simpl; [|done..].
  by rewrite IH.
Qed.

Lemma body_atoms_flat
    (rels : list (string * RelationCls * option string)) env :
  _parent env = ∅ →
  for_env body_atom rels env
  = Ok (map (λ r, atom_text
                    (r.1.1,
                     map (λ col, default "_"
                                   (_map env !! qualified (body_column r col)))
                         (_get_columns r.1.2)))
            rels, env).
Proof.
  intros Hp. induction rels as [|[[rn cls] alias] rels IH]; simpl; [done|].
  assert (∀ cols,
            for_env (λ col env,
                       '(var, env) ← lookup {| Ast.relation := rn;
                                               Ast.name := col;
                                               ref_alias := alias |} env;
                       Ok (default "_" var, env)) cols env
            = Ok (map (λ col, default "_"
                                (_map env !! qualified
                                   (body_column (rn, cls, alias) col)))
                      cols, env)) as Hcols.
  { induction cols as [|col cols IHc]; simpl; [done|].
    rewrite (lookup_flat _ _ Hp). simpl. by rewrite IHc. }
  rewrite Hcols. simpl. by rewrite IH.
Qed.

(** X19.  A rule without a condition whose head columns all select a
    column of a body relation compiles, and is range restricted: every
    variable of its head is an argument of one of its body atoms, and there
    is one atom per body relation, with one argument per column. *)
Theorem rule_head_is_bound (head_name : string) (head_columns : list string)
    (select_map : gmap string Expr)
    (body_relations : list (string * RelationCls * option string))
    (persistent : bool) (cols : list Column) :
  Forall2 (λ col c, select_map !! col = Some (EColumn c)) head_columns cols →
  Forall (λ c, ∃ r col, r ∈ body_relations ∧ col ∈ _get_columns r.1.2
                        ∧ c = body_column r col) cols →
  ∃ head_parts atoms,
    compile_rule head_name head_columns select_map body_relations None
                 persistent
    = Ok (((if persistent then "+" else "") +:+ head_name +:+ "("
             +:+ join ", " head_parts +:+ ")")
            +:+ " <- " +:+ join ", " (atom_text <$> atoms))
    ∧ length head_parts = length head_columns
    ∧ Forall2 (λ r a, a.1 = r.1.1
                      ∧ length a.2 = length (_get_columns r.1.2))
              body_relations atoms
    ∧ Forall (λ v, ∃ a, a ∈ atoms ∧ v ∈ a.2) head_parts.
Proof.
  intros Hsel Hcols. unfold compile_rule. simpl.
  rewrite (head_parts_columns _ _ _ Hsel).
  destruct (get_vars_flat cols VarEnv.new)
    as (vs & env' & -> & Hp & _ & Hvs); [done|]. simpl.
  rewrite (body_atoms_flat _ _ Hp). simpl.
  set (args r := map (λ col, default "_"
                               (_map env' !! qualified (body_column r col)))
                     (_get_columns r.1.2)).
  exists vs, (map (λ r, (r.1.1, args r)) body_relations).
  split; [|split; [|split]].
  - rewrite app_nil_r. do 3 f_equal.
    change (atom_text <$> ?l) with (map atom_text l). by rewrite map_map.
  - apply Forall2_length in Hvs. apply Forall2_length in Hsel. congruence.
  - clear. induction body_relations as [|r rels IH]; simpl; constructor;
      [|done].
    simpl. split; [done|]. unfold args. by rewrite length_map.
  - clear Hsel.
    induction Hvs as [|c v cols vs Hv _ IH]; [constructor|].
    apply Forall_cons in Hcols as [(r & col & Hin & Hcol & ->) Hcols].
    constructor; [|by apply IH].
    exists (r.1.1, args r). split.
    + apply (list_elem_of_fmap_2 (λ r, (r.1.1, args r))). done.
    + simpl. unfold args.
      apply (list_elem_of_fmap_2
               (λ col, default "_"
                         (_map env' !! qualified (body_column r col))))
        in Hcol.
      by rewrite Hv in Hcol.
Qed.

Lemma rule_head_is_bound_witness :
  ∃ head_parts atoms,
    compile_rule "reachable" ["src"; "dst"] reachable_select [edge_body]
                 None true
    = Ok (("+" +:+ "reachable" +:+ "("
             +:+ join ", " head_parts +:+ ")")
            +:+ " <- " +:+ join ", " (atom_text <$> atoms))
    ∧ length head_parts = length ["src"; "dst"]
    ∧ Forall2 (λ r a, a.1 = r.1.1
                      ∧ length a.2 = length (_get_columns r.1.2))
              [edge_body] atoms
    ∧ Forall (λ v, ∃ a, a ∈ atoms ∧ v ∈ a.2) head_parts.
Proof.
  apply (rule_head_is_bound "reachable" ["src"; "dst"] reachable_select
           [edge_body] true
           [body_column edge_body "src"; body_column edge_body "dst"]).
  - constructor; [done|]. constructor; [done|]. constructor.
  - constructor.
    { exists edge_body, "src". split; [left|]. split; [left|done]. }
    constructor; [|constructor].
    exists edge_body, "dst". split; [left|]. split; [right; left|done].
Defined.
